(** * The local Moshi gateway (moshi_mlx/local.py)

    A shallow embedding of the two processes of [local.py]: the inference
    process [model_server] and the audio gateway [web_server], with its
    warmup, its four bridge loops and the per-connection [handle_chat]
    session.  Queues are lists (put at the back, get at the front), byte
    strings are [list byte], and every external collaborator (the mimi
    codec, the Opus streams, the language model, the text tokenizer) is a
    field of the class [Externals]. *)

From Stdlib Require Import ZArith Lia.
From Stdlib.Strings Require Import Byte.
From stdpp Require Import base list strings pretty.
From Equations Require Import Equations.

(** ** Constants of the module *)

Definition SAMPLE_RATE : Z := 24000.
Definition FRAME_SIZE : nat := 1920.
Definition CHANNELS : Z := 1.

(** ** [colorize] and [log] *)

Definition ESC : string := String (Ascii.ascii_of_nat 27) "".

Definition colorize (text color : string) : string :=
  let code := ESC +:+ "[" +:+ color +:+ "m" in
  let restore := ESC +:+ "[0m" in
  code +:+ text +:+ restore.

(** [log level msg] is the printed line, or [None] where the source raises
    [ValueError] for an unknown level. *)
Definition log (level msg : string) : option string :=
  if String.eqb level "warning" then Some (colorize "[Warn]" "1;31" +:+ " " +:+ msg)
  else if String.eqb level "info" then Some (colorize "[Info]" "1;34" +:+ " " +:+ msg)
  else if String.eqb level "error" then Some (colorize "[Err ]" "1;31" +:+ " " +:+ msg)
  else None.

(** ** Websocket messages as aiohttp delivers them *)

Inductive WSMsgType :=
  CONTINUATION | TEXT | BINARY | PING | PONG | CLOSE | CLOSING | CLOSED | ERROR.

#[global] Instance WSMsgType_eq_dec : EqDecision WSMsgType.
Proof. solve_decision. Defined.

(** The dynamically typed [message.data]. *)
Inductive PyData :=
| PyBytes (b : list byte)
| PyStr (s : string)
| PyNone.

Record WSMessage := { type : WSMsgType; data : PyData }.

(** What the source's [isinstance(message, bytes)] decides. *)
Definition as_bytes (d : PyData) : option (list byte) :=
  match d with PyBytes b => Some b | _ => None end.

(** The integer a byte string yields when indexed. *)
Definition byte_int (b : byte) : Z := Z.of_N (Byte.to_N b).

(** ** External collaborators *)

Class Externals := {
  (** one float32 PCM sample, and the sample 0.0 *)
  sample : Type;
  zero : sample;
  (** an array of codebook indices, as the codec and the model exchange *)
  TokenFrame : Type;
  (** rustymimi.StreamTokenizer: what the worker computes for one request *)
  mimi_encode : list sample -> TokenFrame;
  mimi_decode : TokenFrame -> list sample;
  (** the codec decodes one token frame into one audio frame *)
  mimi_decode_length : forall t, length (mimi_decode t) = FRAME_SIZE;
  (** sphn.OpusStreamReader / sphn.OpusStreamWriter *)
  opus_decode : list byte -> list sample;
  opus_encode : list sample -> list byte;
  (** moshi_mlx.models.LmGen: state, [step], [last_audio_tokens] *)
  LmGen : Type;
  new_gen : string -> option Z -> Z -> LmGen;
  gen_step : LmGen -> TokenFrame -> LmGen * Z;
  last_audio_tokens : LmGen -> option TokenFrame;
  (** [mx.array(data).transpose(1, 0)[:, :8]] and
      [np.array(audio_tokens).astype(np.uint32)] *)
  model_input : TokenFrame -> TokenFrame;
  as_uint32 : TokenFrame -> TokenFrame;
  (** sentencepiece [id_to_piece] *)
  id_to_piece : Z -> string;
  (** huggingface_hub.hf_hub_download: the local path of a fetched file *)
  hub_path : string -> string -> string;
  (** how an f-string renders values whose text the source does not fix *)
  fmt_msg_type : WSMsgType -> string;
  fmt_type_of : PyData -> string;
  fmt_exception : string;
  fmt_tokens : TokenFrame -> string;
  (** the [dist] directory next to a downloaded archive *)
  dist_dir : string -> string
}.

(** ** State of the collaborators and of the two processes *)

Section State.
Context `{Externals}.

(** sphn.OpusStreamReader: appended bytes are decoded in the background and
    [read_pcm] hands out all PCM decoded so far (possibly none). *)
Record OpusStreamReader := { decoded_pcm : list sample }.

Definition append_bytes (payload : list byte) (r : OpusStreamReader) : OpusStreamReader :=
  {| decoded_pcm := decoded_pcm r ++ opus_decode payload |}.

Definition read_pcm (r : OpusStreamReader) : list sample * OpusStreamReader :=
  (decoded_pcm r, {| decoded_pcm := [] |}).

(** sphn.OpusStreamWriter: appended PCM is encoded and [read_bytes] hands
    out all bytes encoded so far (possibly none). *)
Record OpusStreamWriter := { encoded_bytes : list byte }.

Definition append_pcm (pcm : list sample) (w : OpusStreamWriter) : OpusStreamWriter :=
  {| encoded_bytes := encoded_bytes w ++ opus_encode pcm |}.

Definition read_bytes (w : OpusStreamWriter) : list byte * OpusStreamWriter :=
  (encoded_bytes w, {| encoded_bytes := [] |}).

(** rustymimi.StreamTokenizer: a worker that answers requests in order.
    A request is ready after a number of polls taken from [lag] (none left:
    ready at once); the two getters never block. *)
Record StreamTokenizer := {
  encoding : list (nat * TokenFrame);
  decoding : list (nat * list sample);
  lag : list nat
}.

Definition next_lag (c : StreamTokenizer) : nat := hd 0 (lag c).

Definition encode (pcm : list sample) (c : StreamTokenizer) : StreamTokenizer :=
  {| encoding := encoding c ++ [(next_lag c, mimi_encode pcm)];
     decoding := decoding c;
     lag := tl (lag c) |}.

Definition get_encoded (c : StreamTokenizer) : option TokenFrame * StreamTokenizer :=
  match encoding c with
  | [] => (None, c)
  | (0, d) :: rest =>
      (Some d, {| encoding := rest; decoding := decoding c; lag := lag c |})
  | (S k, d) :: rest =>
      (None, {| encoding := (k, d) :: rest; decoding := decoding c; lag := lag c |})
  end.

Definition decode (t : TokenFrame) (c : StreamTokenizer) : StreamTokenizer :=
  {| encoding := encoding c;
     decoding := decoding c ++ [(next_lag c, mimi_decode t)];
     lag := tl (lag c) |}.

Definition get_decoded (c : StreamTokenizer) : option (list sample) * StreamTokenizer :=
  match decoding c with
  | [] => (None, c)
  | (0, d) :: rest =>
      (Some d, {| encoding := encoding c; decoding := rest; lag := lag c |})
  | (S k, d) :: rest =>
      (None, {| encoding := encoding c; decoding := (k, d) :: rest; lag := lag c |})
  end.

(** What travels on [server_to_client]: the string the model process puts
    first, then arrays of audio tokens. *)
Inductive Msg :=
| MStr (s : string)
| MTokens (t : TokenFrame).

(** The parsed command line ([argparse] defaults filled in). *)
Record Args := {
  tokenizer : option string;
  model : option string;
  mimi : option string;
  quantized : option Z;
  steps : Z;
  hf_repo : option string;
  static : option string;
  host : string;
  port : Z
}.

(** Observable actions of either process, in program order. *)
Inductive Event :=
| EvLog (level msg : string)
| EvSleep (ms : nat)
| EvNewTokenizer (file : string)
| EvEncode (pcm : list sample)
| EvGetEncoded (r : option TokenFrame)
| EvDecode (t : TokenFrame)
| EvGetDecoded (r : option (list sample))
| EvPutC2S (t : TokenFrame)
| EvGetC2S (t : TokenFrame)
| EvPutS2C (m : Msg)
| EvGetS2C (m : Msg)
| EvLoadTextTokenizer (file : string)
| EvSeed (n : Z)
| EvQuantize (bits group_size : Z)
| EvLoadWeights (file : string)
| EvModelWarmup
| EvListen (host : string) (port : Z).

(** The [model_server] process. *)
Inductive ModelProc :=
| NotStarted (args : Args)
| Serving (gen : LmGen)
| Dead (exc : string).

(** Where one [handle_chat] coroutine stands. *)
Inductive Phase :=
| Waiting     (* at [async with lock], lock not yet acquired *)
| Locked      (* inside [async with lock], handshake not yet sent *)
| Gathering   (* awaiting [asyncio.gather] of the four loops *)
| Finished    (* left [async with lock] normally *)
| Failed.     (* [gather] re-raised an exception of one of the loops *)

(** Where one of the polling loops of a session stands. *)
Inductive LoopPc :=
| AtTop       (* at the top of [while True], before [if close: return] *)
| Suspended   (* in [asyncio.sleep(0.001)], or waiting for the next message *)
| Exited.

#[global] Instance Phase_eq_dec : EqDecision Phase.
Proof. solve_decision. Defined.
#[global] Instance LoopPc_eq_dec : EqDecision LoopPc.
Proof. solve_decision. Defined.

(** One [handle_chat] invocation: its websocket, its local variables and
    the four loops it gathers. *)
Record Chat := {
  inbox : list WSMessage;          (* received from the client, not yet iterated *)
  sent : list (list byte);         (* frames passed to [ws.send_bytes], in order *)
  phase : Phase;
  close : bool;
  opus_reader : OpusStreamReader;
  opus_writer : OpusStreamWriter;
  all_pcm_data : option (list sample);
  opus_pc : LoopPc;
  recv_pc : LoopPc;
  send_pc : LoopPc;
  another_pc : LoopPc
}.

(** Both processes and the queues between them. *)
Record World := {
  audio_tokenizer : StreamTokenizer;
  client_to_server : list TokenFrame;
  server_to_client : list Msg;
  model_proc : ModelProc;
  input_queue : list (list sample);
  output_queue : list (list sample);
  lock : bool;
  chats : list Chat;
  events : list Event;
  model_events : list Event;
  fault : option string            (* the exception that ended the event loop *)
}.

End State.

(** ** Field updates *)

Section Updates.
Context `{Externals}.

Definition with_tokenizer (c : StreamTokenizer) (w : World) : World :=
  {| audio_tokenizer := c; client_to_server := client_to_server w;
     server_to_client := server_to_client w; model_proc := model_proc w;
     input_queue := input_queue w; output_queue := output_queue w;
     lock := lock w; chats := chats w; events := events w;
     model_events := model_events w; fault := fault w |}.

Definition with_c2s (q : list TokenFrame) (w : World) : World :=
  {| audio_tokenizer := audio_tokenizer w; client_to_server := q;
     server_to_client := server_to_client w; model_proc := model_proc w;
     input_queue := input_queue w; output_queue := output_queue w;
     lock := lock w; chats := chats w; events := events w;
     model_events := model_events w; fault := fault w |}.

Definition with_s2c (q : list Msg) (w : World) : World :=
  {| audio_tokenizer := audio_tokenizer w; client_to_server := client_to_server w;
     server_to_client := q; model_proc := model_proc w;
     input_queue := input_queue w; output_queue := output_queue w;
     lock := lock w; chats := chats w; events := events w;
     model_events := model_events w; fault := fault w |}.

Definition with_model (m : ModelProc) (evs : list Event) (w : World) : World :=
  {| audio_tokenizer := audio_tokenizer w; client_to_server := client_to_server w;
     server_to_client := server_to_client w; model_proc := m;
     input_queue := input_queue w; output_queue := output_queue w;
     lock := lock w; chats := chats w; events := events w;
     model_events := evs; fault := fault w |}.

Definition with_input_queue (q : list (list sample)) (w : World) : World :=
  {| audio_tokenizer := audio_tokenizer w; client_to_server := client_to_server w;
     server_to_client := server_to_client w; model_proc := model_proc w;
     input_queue := q; output_queue := output_queue w;
     lock := lock w; chats := chats w; events := events w;
     model_events := model_events w; fault := fault w |}.

Definition with_output_queue (q : list (list sample)) (w : World) : World :=
  {| audio_tokenizer := audio_tokenizer w; client_to_server := client_to_server w;
     server_to_client := server_to_client w; model_proc := model_proc w;
     input_queue := input_queue w; output_queue := q;
     lock := lock w; chats := chats w; events := events w;
     model_events := model_events w; fault := fault w |}.

Definition with_lock (b : bool) (w : World) : World :=
  {| audio_tokenizer := audio_tokenizer w; client_to_server := client_to_server w;
     server_to_client := server_to_client w; model_proc := model_proc w;
     input_queue := input_queue w; output_queue := output_queue w;
     lock := b; chats := chats w; events := events w;
     model_events := model_events w; fault := fault w |}.

Definition with_chats (cs : list Chat) (w : World) : World :=
  {| audio_tokenizer := audio_tokenizer w; client_to_server := client_to_server w;
     server_to_client := server_to_client w; model_proc := model_proc w;
     input_queue := input_queue w; output_queue := output_queue w;
     lock := lock w; chats := cs; events := events w;
     model_events := model_events w; fault := fault w |}.

Definition with_fault (e : string) (w : World) : World :=
  {| audio_tokenizer := audio_tokenizer w; client_to_server := client_to_server w;
     server_to_client := server_to_client w; model_proc := model_proc w;
     input_queue := input_queue w; output_queue := output_queue w;
     lock := lock w; chats := chats w; events := events w;
     model_events := model_events w; fault := Some e |}.

(** [emit evs w]: the gateway process performs [evs], in this order. *)
Definition emit (evs : list Event) (w : World) : World :=
  {| audio_tokenizer := audio_tokenizer w; client_to_server := client_to_server w;
     server_to_client := server_to_client w; model_proc := model_proc w;
     input_queue := input_queue w; output_queue := output_queue w;
     lock := lock w; chats := chats w; events := events w ++ evs;
     model_events := model_events w; fault := fault w |}.

End Updates.

(** ** [hf_hub_download] *)

Inductive Res (A : Type) :=
| Ok (a : A)
| Err (exc : string).
Arguments Ok {A} a.
Arguments Err {A} exc.

Section Hub.
Context `{Externals}.

Definition hf_hub_download (repo : option string) (path : string) : Res string :=
  match repo with
  | None => Err ("the --hf-repo flag is required to retrieve " +:+ path)
  | Some r =>
      if String.eqb r "" then Err ("the --hf-repo flag is required to retrieve " +:+ path)
      else Ok (hub_path r path)
  end.

End Hub.

(** ** The inference process: [model_server] *)

Module ModelServer.
Section ModelServer.
Context `{Externals}.

(** [str.replace] of the three bytes of U+2581 by one space; [skip] counts
    the bytes of a match still to be dropped. *)
Fixpoint replace_block (skip : nat) (s : string) : string :=
  match s with
  | EmptyString => EmptyString
  | String a rest =>
      match skip with
      | S k => replace_block k rest
      | O =>
          if String.prefix (String (Ascii.ascii_of_nat 226)
                             (String (Ascii.ascii_of_nat 150)
                               (String (Ascii.ascii_of_nat 129) EmptyString))) s
          then String (Ascii.ascii_of_nat 32) (replace_block 2 rest)
          else String a (replace_block 0 rest)
      end
  end.

(** Lines 98-116: which files the process loads. *)
Definition model_file_of (args : Args) : Res string :=
  match model args with
  | Some f => Ok f
  | None =>
      match quantized args with
      | Some 8%Z => hf_hub_download (hf_repo args) "moshiko_mlx_301e30bf@120.q8.safetensors"
      | Some 4%Z => hf_hub_download (hf_repo args) "moshiko_mlx_301e30bf@120.q4.safetensors"
      | Some q => Err ("Invalid quantized value: " +:+ pretty q)
      | None => hf_hub_download (hf_repo args) "moshiko_mlx_301e30bf@120.safetensors"
      end
  end.

Definition tokenizer_file_of (args : Args) : Res string :=
  match tokenizer args with
  | Some f => Ok f
  | None => hf_hub_download (hf_repo args) "tokenizer_spm_32k_3.model"
  end.

Definition quantize_events (args : Args) : list Event :=
  match quantized args with
  | Some q => [EvQuantize q (if Z.eqb q 4 then 32 else 64)%Z]
  | None => []
  end.

(** Lines 98-144: everything before the serving loop.  The result is the
    new process state, what it did, and what it put on [server_to_client]. *)
Definition boot (args : Args) : ModelProc * list Event * list Msg :=
  match model_file_of args with
  | Err e => (Dead e, [], [])
  | Ok model_file =>
      match tokenizer_file_of args with
      | Err e => (Dead e, [], [])
      | Ok tokenizer_file =>
          (Serving (new_gen model_file (quantized args) (steps args + 5)%Z),
           [EvLog "info" ("[SERVER] loading text tokenizer " +:+ tokenizer_file);
            EvLoadTextTokenizer tokenizer_file;
            EvSeed 299792458%Z]
           ++ quantize_events args ++
           [EvLog "info" ("[SERVER] loading weights " +:+ model_file);
            EvLoadWeights model_file;
            EvLog "info" "[SERVER] weights loaded";
            EvModelWarmup;
            EvLog "info" "[SERVER] model warmed up";
            EvPutS2C (MStr "start");
            EvLog "info" "[SERVER] connected!"],
           [MStr "start"])
      end
  end.

(** The text token is reported unless it is 0 or 3. *)
Definition text_events (text_token : Z) : list Event :=
  if negb (Z.eqb text_token 0 || Z.eqb text_token 3)
  then [EvLog "info" ("token " +:+ replace_block 0 (id_to_piece text_token))]
  else [].

Definition audio_put (audio_tokens : option TokenFrame) : list Msg :=
  match audio_tokens with
  | Some a => [MTokens (as_uint32 a)]
  | None => []
  end.

(** Lines 147-158: one iteration of the serving loop on the dequeued
    [data]: the new generator, the text token, and the audio tokens. *)
Definition iteration (gen : LmGen) (data : TokenFrame)
  : LmGen * Z * option TokenFrame :=
  let data := model_input data in
  let '(gen, text_token) := gen_step gen data in
  let audio_tokens := last_audio_tokens gen in
  (gen, text_token, audio_tokens).

Definition iteration_events (data : TokenFrame) (text_token : Z)
    (audio_tokens : option TokenFrame) : list Event :=
  EvGetC2S data :: text_events text_token
    ++ map EvPutS2C (audio_put audio_tokens).

(** The serving loop run on everything queued on [client_to_server]; it
    then blocks in [client_to_server.get()]. *)
Fixpoint serve (gen : LmGen) (pending : list TokenFrame)
  : LmGen * list Event * list Msg :=
  match pending with
  | [] => (gen, [], [])
  | data :: pending =>
      let '(gen, text_token, audio_tokens) := iteration gen data in
      let '(gen', evs, out) := serve gen pending in
      (gen', iteration_events data text_token audio_tokens ++ evs,
       audio_put audio_tokens ++ out)
  end.

(** The process runs until it blocks: it starts if it has not, and then
    serves the queue. *)
Definition run (w : World) : World :=
  let '(proc, evs0, out0) :=
    match model_proc w with
    | NotStarted args => boot args
    | p => (p, [], [])
    end in
  match proc with
  | Serving gen =>
      let '(gen', evs, out) := serve gen (client_to_server w) in
      with_c2s []
        (with_s2c (server_to_client w ++ out0 ++ out)
          (with_model (Serving gen') (model_events w ++ evs0 ++ evs) w))
  | p => with_model p (model_events w ++ evs0) w
  end.

(** One step of the process on its own: it starts, or it serves the oldest
    queued frame; with nothing queued it stays blocked. *)
Definition turn (w : World) : World :=
  match model_proc w with
  | NotStarted args =>
      let '(proc, evs, out) := boot args in
      with_s2c (server_to_client w ++ out)
        (with_model proc (model_events w ++ evs) w)
  | Serving gen =>
      match client_to_server w with
      | [] => w
      | data :: rest =>
          let '(gen', text_token, audio_tokens) := iteration gen data in
          with_c2s rest
            (with_s2c (server_to_client w ++ audio_put audio_tokens)
              (with_model (Serving gen')
                 (model_events w ++ iteration_events data text_token audio_tokens) w))
      end
  | Dead _ => w
  end.

End ModelServer.
End ModelServer.

(** ** Sequential code of the gateway process *)

Section Run.
Context `{Externals}.

(** How a run of sequential gateway code ends; every case keeps the world
    reached, with the trace up to that point. *)
Inductive Outcome (A : Type) :=
| Done (a : A) (w : World)
| Blocked (w : World)               (* suspended for ever in a blocking [get] *)
| Timeout (w : World)               (* the bound on polls of this model ran out *)
| Raised (exc : string) (w : World).
Arguments Done {A} a w.
Arguments Blocked {A} w.
Arguments Timeout {A} w.
Arguments Raised {A} exc w.

Definition M (A : Type) : Type := World -> Outcome A.

Definition ret {A} (a : A) : M A := fun w => Done a w.

Definition bind {A B} (m : M A) (k : A -> M B) : M B :=
  fun w =>
    match m w with
    | Done a w' => k a w'
    | Blocked w' => Blocked w'
    | Timeout w' => Timeout w'
    | Raised e w' => Raised e w'
    end.

Definition act (f : World -> World) : M unit := fun w => Done tt (f w).

Definition lift {A} (r : Res A) : M A :=
  fun w => match r with Ok a => Done a w | Err e => Raised e w end.

Definition final {A} (o : Outcome A) : World :=
  match o with
  | Done _ w | Blocked w | Timeout w | Raised _ w => w
  end.

End Run.

Arguments Done {_ A} a w.
Arguments Blocked {_ A} w.
Arguments Timeout {_ A} w.
Arguments Raised {_ A} exc w.

Notation "x <- m ;; k" := (bind m (fun x => k))
  (at level 100, m at next level, right associativity).
Notation "m ;;; k" := (bind m (fun _ => k))
  (at level 100, right associativity).

Section Warmup.
Context `{Externals}.

(** [audio_tokenizer.encode(pcm)] and [audio_tokenizer.decode(tokens)]. *)
Definition do_encode (pcm : list sample) : M unit :=
  act (fun w => emit [EvEncode pcm] (with_tokenizer (encode pcm (audio_tokenizer w)) w)).

Definition do_decode (t : TokenFrame) : M unit :=
  act (fun w => emit [EvDecode t] (with_tokenizer (decode t (audio_tokenizer w)) w)).

(** [time.sleep(0.01); data = audio_tokenizer.get_encoded()]. *)
Definition sleep_get_encoded : M (option TokenFrame) :=
  fun w =>
    let '(data, c) := get_encoded (audio_tokenizer w) in
    Done data (emit [EvSleep 10; EvGetEncoded data] (with_tokenizer c w)).

Definition sleep_get_decoded : M (option (list sample)) :=
  fun w =>
    let '(data, c) := get_decoded (audio_tokenizer w) in
    Done data (emit [EvSleep 10; EvGetDecoded data] (with_tokenizer c w)).

(** The two [while True] polling loops of [full_warmup], at most [fuel]
    polls each. *)
Fixpoint poll_encoded (fuel : nat) : M TokenFrame :=
  match fuel with
  | O => fun w => Timeout w
  | S fuel =>
      data <- sleep_get_encoded ;;
      match data with
      | Some d => ret d
      | None => poll_encoded fuel
      end
  end.

Fixpoint poll_decoded (fuel : nat) : M (list sample) :=
  match fuel with
  | O => fun w => Timeout w
  | S fuel =>
      data <- sleep_get_decoded ;;
      match data with
      | Some d => ret d
      | None => poll_decoded fuel
      end
  end.

(** [client_to_server.put_nowait(data)]. *)
Definition c2s_put_nowait (data : TokenFrame) : M unit :=
  act (fun w => emit [EvPutC2S data] (with_c2s (client_to_server w ++ [data]) w)).

(** [server_to_client.get()]: the other process runs until it blocks; the
    call returns the oldest message, or never returns when there is none. *)
Definition s2c_get : M Msg :=
  fun w =>
    let w := ModelServer.run w in
    match server_to_client w with
    | [] => Blocked w
    | m :: rest => Done m (emit [EvGetS2C m] (with_s2c rest w))
    end.

(** The codec takes arrays only. *)
Definition tokens_of (m : Msg) : Res TokenFrame :=
  match m with
  | MTokens t => Ok t
  | MStr _ => Err "TypeError"
  end.

(** [np.array([0.0] * 1920).astype(np.float32)]. *)
Definition zero_frame : list sample := repeat zero 1920.
#[global] Arguments zero_frame : simpl never.

(** The body of [for i in range(4)]. *)
Definition warmup_round (fuel : nat) (i : nat) : M unit :=
  let pcm_data := zero_frame in
  do_encode pcm_data ;;;
  data <- poll_encoded fuel ;;
  c2s_put_nowait data ;;;
  if Nat.eqb i 0 then ret tt
  else
    audio_tokens <- s2c_get ;;
    audio_tokens <- lift (tokens_of audio_tokens) ;;
    do_decode audio_tokens ;;;
    _ <- poll_decoded fuel ;;
    ret tt.

Fixpoint for_each (l : list nat) (body : nat -> M unit) : M unit :=
  match l with
  | [] => ret tt
  | i :: l => body i ;;; for_each l body
  end.

Definition full_warmup (fuel : nat) : M unit :=
  for_each (seq 0 4) (warmup_round fuel).

End Warmup.

(** ** [main] and the start of [web_server] *)

Section Startup.
Context `{Externals}.

(** [main]: two empty queues and two processes, neither of which has run.
    [lags] fixes how long the codec worker will take on each request. *)
Definition main (args : Args) (lags : list nat) : World :=
  {| audio_tokenizer := {| encoding := []; decoding := []; lag := lags |};
     client_to_server := []; server_to_client := [];
     model_proc := NotStarted args;
     input_queue := []; output_queue := [];
     lock := false; chats := []; events := []; model_events := [];
     fault := None |}.

Definition fmt_msg (m : Msg) : string :=
  match m with
  | MStr s => s
  | MTokens t => fmt_tokens t
  end.

Definition mimi_file_of (args : Args) : Res string :=
  match mimi args with
  | Some f => Ok f
  | None => hf_hub_download (hf_repo args) "tokenizer-e351c8d8-checkpoint125.safetensors"
  end.

(** Lines 299-311 of [go]: where the static content is, if any is served. *)
Definition static_path_of (args : Args) : M (option string) :=
  match static args with
  | None =>
      act (emit [EvLog "info" "retrieving the static content"]) ;;;
      dist_tgz <- lift (hf_hub_download (hf_repo args) "dist.tgz") ;;
      ret (Some (dist_dir dist_tgz))
  | Some s =>
      if String.eqb s "none" then ret None else ret (Some s)
  end.

(** [go] up to the moment the site starts listening. *)
Definition go (args : Args) : M unit :=
  static_path <- static_path_of args ;;
  match static_path with
  | Some p => act (emit [EvLog "info" ("serving static content from " +:+ p)])
  | None => ret tt
  end ;;;
  act (emit [EvLog "info" ("listening to ws://" +:+ host args +:+ ":" +:+ pretty (port args));
             EvListen (host args) (port args)]).

(** [web_server] from its first line to the start of the event loop. *)
Definition web_server (fuel : nat) (args : Args) : M unit :=
  mimi_file <- lift (mimi_file_of args) ;;
  act (emit [EvNewTokenizer mimi_file]) ;;;
  start <- s2c_get ;;
  act (emit [EvLog "info" ("[CLIENT] received '" +:+ fmt_msg start
                           +:+ "' from server, starting...")]) ;;;
  full_warmup fuel ;;;
  go args.

End Startup.

(** ** One websocket session: [handle_chat] *)

Module HandleChat.
Section HandleChat.
Context `{Externals}.

Definition with_inbox (l : list WSMessage) (c : Chat) : Chat :=
  {| inbox := l; sent := sent c; phase := phase c; close := close c;
     opus_reader := opus_reader c; opus_writer := opus_writer c;
     all_pcm_data := all_pcm_data c; opus_pc := opus_pc c; recv_pc := recv_pc c;
     send_pc := send_pc c; another_pc := another_pc c |}.

Definition with_sent (l : list (list byte)) (c : Chat) : Chat :=
  {| inbox := inbox c; sent := l; phase := phase c; close := close c;
     opus_reader := opus_reader c; opus_writer := opus_writer c;
     all_pcm_data := all_pcm_data c; opus_pc := opus_pc c; recv_pc := recv_pc c;
     send_pc := send_pc c; another_pc := another_pc c |}.

Definition with_phase (p : Phase) (c : Chat) : Chat :=
  {| inbox := inbox c; sent := sent c; phase := p; close := close c;
     opus_reader := opus_reader c; opus_writer := opus_writer c;
     all_pcm_data := all_pcm_data c; opus_pc := opus_pc c; recv_pc := recv_pc c;
     send_pc := send_pc c; another_pc := another_pc c |}.

Definition with_close (b : bool) (c : Chat) : Chat :=
  {| inbox := inbox c; sent := sent c; phase := phase c; close := b;
     opus_reader := opus_reader c; opus_writer := opus_writer c;
     all_pcm_data := all_pcm_data c; opus_pc := opus_pc c; recv_pc := recv_pc c;
     send_pc := send_pc c; another_pc := another_pc c |}.

Definition with_reader (r : OpusStreamReader) (c : Chat) : Chat :=
  {| inbox := inbox c; sent := sent c; phase := phase c; close := close c;
     opus_reader := r; opus_writer := opus_writer c;
     all_pcm_data := all_pcm_data c; opus_pc := opus_pc c; recv_pc := recv_pc c;
     send_pc := send_pc c; another_pc := another_pc c |}.

Definition with_writer (r : OpusStreamWriter) (c : Chat) : Chat :=
  {| inbox := inbox c; sent := sent c; phase := phase c; close := close c;
     opus_reader := opus_reader c; opus_writer := r;
     all_pcm_data := all_pcm_data c; opus_pc := opus_pc c; recv_pc := recv_pc c;
     send_pc := send_pc c; another_pc := another_pc c |}.

Definition with_all_pcm_data (a : option (list sample)) (c : Chat) : Chat :=
  {| inbox := inbox c; sent := sent c; phase := phase c; close := close c;
     opus_reader := opus_reader c; opus_writer := opus_writer c;
     all_pcm_data := a; opus_pc := opus_pc c; recv_pc := recv_pc c;
     send_pc := send_pc c; another_pc := another_pc c |}.

Definition with_opus_pc (p : LoopPc) (c : Chat) : Chat :=
  {| inbox := inbox c; sent := sent c; phase := phase c; close := close c;
     opus_reader := opus_reader c; opus_writer := opus_writer c;
     all_pcm_data := all_pcm_data c; opus_pc := p; recv_pc := recv_pc c;
     send_pc := send_pc c; another_pc := another_pc c |}.

Definition with_recv_pc (p : LoopPc) (c : Chat) : Chat :=
  {| inbox := inbox c; sent := sent c; phase := phase c; close := close c;
     opus_reader := opus_reader c; opus_writer := opus_writer c;
     all_pcm_data := all_pcm_data c; opus_pc := opus_pc c; recv_pc := p;
     send_pc := send_pc c; another_pc := another_pc c |}.

Definition with_send_pc (p : LoopPc) (c : Chat) : Chat :=
  {| inbox := inbox c; sent := sent c; phase := phase c; close := close c;
     opus_reader := opus_reader c; opus_writer := opus_writer c;
     all_pcm_data := all_pcm_data c; opus_pc := opus_pc c; recv_pc := recv_pc c;
     send_pc := p; another_pc := another_pc c |}.

Definition with_another_pc (p : LoopPc) (c : Chat) : Chat :=
  {| inbox := inbox c; sent := sent c; phase := phase c; close := close c;
     opus_reader := opus_reader c; opus_writer := opus_writer c;
     all_pcm_data := all_pcm_data c; opus_pc := opus_pc c; recv_pc := recv_pc c;
     send_pc := send_pc c; another_pc := p |}.

(** *** The inbound reader, [recv_loop] *)

(** How the body of [async for message in ws] leaves one iteration. *)
Inductive Flow :=
| Continue                  (* on to the next message *)
| Break                     (* out of the loop *)
| Raise (exc : string).     (* an exception leaves the loop *)

Record Received := {
  flow : Flow;
  logged : list Event;
  reader : OpusStreamReader
}.

(** Lines 219-239: the loop body on one [message]. *)
Definition recv_message (message : WSMessage) (opus_reader : OpusStreamReader)
  : Received :=
  if decide (type message = ERROR) then
    {| flow := Break; logged := [EvLog "error" fmt_exception]; reader := opus_reader |}
  else if decide (type message = CLOSED) then
    {| flow := Break; logged := []; reader := opus_reader |}
  else if decide (type message <> BINARY) then
    {| flow := Continue;
       logged := [EvLog "error" ("unexpected message type " +:+ fmt_msg_type (type message))];
       reader := opus_reader |}
  else
    match as_bytes (data message) with
    | None =>
        {| flow := Continue;
           logged := [EvLog "error" ("unsupported message type " +:+ fmt_type_of (data message))];
           reader := opus_reader |}
    | Some message =>
        if Nat.eqb (length message) 0 then
          {| flow := Continue; logged := [EvLog "warning" "empty message"];
             reader := opus_reader |}
        else
          match message !! 0 with
          | None => {| flow := Raise "IndexError"; logged := []; reader := opus_reader |}
          | Some kind =>
              let kind := byte_int kind in
              if Z.eqb kind 1 then
                let payload := drop 1 message in
                {| flow := Continue; logged := [];
                   reader := append_bytes payload opus_reader |}
              else
                {| flow := Continue;
                   logged := [EvLog "warning" ("unknown message kind " +:+ pretty kind)];
                   reader := opus_reader |}
          end
    end.

(** aiohttp ends the iteration [async for message in ws] itself when the
    message it receives is a close message. *)
Definition stops_iteration (t : WSMsgType) : bool :=
  match t with
  | CLOSE | CLOSING | CLOSED => true
  | _ => false
  end.

(** The [finally] clause of [recv_loop]. *)
Definition recv_finally (c : Chat) : Chat * list Event :=
  (with_recv_pc Exited (with_close true c), [EvLog "info" "connection closed"]).

(** [recv_loop] resumed on the next message of the websocket, if one has
    arrived: the chat, what was logged, and the exception that left the
    loop, if any. *)
Definition recv_loop (c : Chat) : Chat * list Event * option string :=
  match inbox c with
  | [] => (c, [], None)
  | message :: rest =>
      let c := with_inbox rest c in
      if stops_iteration (type message) then
        let '(c, evs) := recv_finally c in (c, evs, None)
      else
        let r := recv_message message (opus_reader c) in
        let c := with_reader (reader r) c in
        match flow r with
        | Continue => (c, logged r, None)
        | Break => let '(c, evs) := recv_finally c in (c, logged r ++ evs, None)
        | Raise e => let '(c, evs) := recv_finally c in (c, logged r ++ evs, Some e)
        end
  end.

(** *** The PCM assembler, [opus_loop] *)

(** Lines 258-261: the inner [while] loop. *)
#[local] Opaque FRAME_SIZE.
Equations? slice_frames (all_pcm_data : list sample) (input_queue : list (list sample))
  : list sample * list (list sample) by wf (length all_pcm_data) lt :=
  slice_frames all_pcm_data input_queue with decide (FRAME_SIZE <= length all_pcm_data) => {
    | left _ =>
        let chunk := take FRAME_SIZE all_pcm_data in
        slice_frames (drop FRAME_SIZE all_pcm_data) (input_queue ++ [chunk]);
    | right _ => (all_pcm_data, input_queue) }.
Proof.
  rewrite length_drop.
  assert (0 < FRAME_SIZE) by (apply Nat.ltb_lt; vm_compute; reflexivity). lia.
Qed.
#[local] Transparent FRAME_SIZE.

(** Lines 252-261: what one poll does with the [pcm] it read. *)
Definition assemble (pcm : list sample) (all_pcm_data : option (list sample))
    (input_queue : list (list sample))
  : option (list sample) * list (list sample) :=
  if Nat.eqb (length pcm) 0 then (all_pcm_data, input_queue)
  else
    let all_pcm_data :=
      match all_pcm_data with
      | None => pcm
      | Some a => a ++ pcm
      end in
    let '(all_pcm_data, input_queue) := slice_frames all_pcm_data input_queue in
    (Some all_pcm_data, input_queue).

(** Lines 251-261: the loop body after the sleep. *)
Definition opus_loop_body (c : Chat) (input_queue : list (list sample))
  : Chat * list (list sample) :=
  let '(pcm, r) := read_pcm (opus_reader c) in
  let '(a, input_queue) := assemble pcm (all_pcm_data c) input_queue in
  (with_all_pcm_data a (with_reader r c), input_queue).

(** *** The two halves of the output writer, [send_loop] and [another_loop] *)

(** [b"\x01" + msg]. *)
Definition audio_frame (msg : list byte) : list byte := x01 :: msg.

(** Lines 268-270. *)
Definition send_loop_body (c : Chat) : Chat :=
  let '(msg, wr) := read_bytes (opus_writer c) in
  let c := with_writer wr c in
  if Nat.ltb 0 (length msg) then with_sent (sent c ++ [audio_frame msg]) c
  else c.

(** Lines 277-282: [None] where the assertion on the shape fails. *)
Definition another_loop_body (c : Chat) (output_queue : list (list sample))
  : option Chat * list (list sample) :=
  match output_queue with
  | [] => (Some c, output_queue)
  | pcm_data :: rest =>
      if Nat.eqb (length pcm_data) 1920
      then (Some (with_writer (append_pcm pcm_data (opus_writer c)) c), rest)
      else (None, rest)
  end.

(** *** The coroutine itself *)

(** Lines 213-214 and 284-285: the connection is accepted; the coroutine
    stands at [async with lock]. *)
Definition accepted : Chat :=
  {| inbox := []; sent := []; phase := Waiting; close := false;
     opus_reader := {| decoded_pcm := [] |};
     opus_writer := {| encoded_bytes := [] |};
     all_pcm_data := None;
     opus_pc := AtTop; recv_pc := Suspended; send_pc := AtTop; another_pc := AtTop |}.

(** Lines 286-288: the lock is taken and the two Opus streams are made. *)
Definition enter (c : Chat) : Chat :=
  with_phase Locked
    (with_writer {| encoded_bytes := [] |}
      (with_reader {| decoded_pcm := [] |} c)).

(** Lines 290-291: the handshake is sent and the four loops are started. *)
Definition handshake (c : Chat) : Chat :=
  with_phase Gathering (with_sent (sent c ++ [[x00]]) c).

Definition all_exited (c : Chat) : bool :=
  bool_decide (opus_pc c = Exited) && bool_decide (recv_pc c = Exited)
  && bool_decide (send_pc c = Exited) && bool_decide (another_pc c = Exited).

End HandleChat.
End HandleChat.

(** ** The four bridge loops of [web_server] *)

Module WebServer.
Section WebServer.
Context `{Externals}.

(** Lines 177-184: one round of [send_loop]. *)
Definition send_loop (w : World) : World :=
  match input_queue w with
  | [] => w
  | pcm_data :: rest =>
      emit [EvEncode pcm_data]
        (with_tokenizer (encode pcm_data (audio_tokenizer w))
          (with_input_queue rest w))
  end.

(** Lines 186-192: one round of [recv_loop]. *)
Definition recv_loop (w : World) : World :=
  let '(data, c) := get_decoded (audio_tokenizer w) in
  let w := emit [EvGetDecoded data] (with_tokenizer c w) in
  match data with
  | None => w
  | Some data => with_output_queue (output_queue w ++ [data]) w
  end.

(** Lines 194-200: one round of [send_loop2]. *)
Definition send_loop2 (w : World) : World :=
  let '(data, c) := get_encoded (audio_tokenizer w) in
  let w := emit [EvGetEncoded data] (with_tokenizer c w) in
  match data with
  | None => w
  | Some data => emit [EvPutC2S data] (with_c2s (client_to_server w ++ [data]) w)
  end.

(** Lines 202-209: one round of [recv_loop2]; an exception of [decode]
    ends the event loop. *)
Definition recv_loop2 (w : World) : World :=
  match server_to_client w with
  | [] => w
  | m :: rest =>
      let w := emit [EvGetS2C m] (with_s2c rest w) in
      match tokens_of m with
      | Ok audio_tokens =>
          emit [EvDecode audio_tokens]
            (with_tokenizer (decode audio_tokens (audio_tokenizer w)) w)
      | Err e => with_fault e w
      end
  end.

End WebServer.
End WebServer.

(** ** The event loop: every interleaving of the coroutines *)

Inductive Task := OpusLoop | RecvLoop | SendLoop | AnotherLoop.
Inductive Bridge := BridgeSend | BridgeRecv | BridgeSend2 | BridgeRecv2.

(** What may happen next.  Each action is what one coroutine does between
    two suspensions, or what the outside does. *)
Inductive Action :=
| Connect                             (* a client opens /api/chat *)
| Deliver (i : nat) (m : WSMessage)   (* a message of client [i] arrives *)
| Acquire (i : nat)                   (* chat [i] gets the lock *)
| Handshake (i : nat)                 (* chat [i] sends the handshake, starts its loops *)
| Resume (i : nat) (t : Task)         (* loop [t] of chat [i] runs to its next suspension *)
| Release (i : nat)                   (* [gather] of chat [i] returns *)
| Pump (b : Bridge)                   (* one round of a bridge loop *)
| Model.                              (* the model process takes a turn *)

Section EventLoop.
Context `{Externals}.

Definition put_chat (i : nat) (c : Chat) (w : World) : World :=
  with_chats (<[i := c]> (chats w)) w.

(** An exception of one of the gathered loops reaches [handle_chat]: it
    leaves [async with lock], which releases the lock. *)
Definition gather_raises (c : Chat) (w : World) : Chat * World :=
  match phase c with
  | Gathering => (HandleChat.with_phase Failed c, with_lock false w)
  | _ => (c, w)
  end.

(** A polling loop at its top: it returns if [close] is set, and sleeps
    otherwise. *)
Definition at_top (c : Chat) : LoopPc :=
  if close c then Exited else Suspended.

Definition resume (i : nat) (t : Task) (c : Chat) (w : World) : World :=
  match t with
  | RecvLoop =>
      match recv_pc c with
      | Exited => w
      | _ =>
          let '(c, evs, exc) := HandleChat.recv_loop c in
          let w := emit evs w in
          match exc with
          | None => put_chat i c w
          | Some _ => let '(c, w) := gather_raises c w in put_chat i c w
          end
      end
  | OpusLoop =>
      match opus_pc c with
      | AtTop => put_chat i (HandleChat.with_opus_pc (at_top c) c) w
      | Suspended =>
          let '(c, q) := HandleChat.opus_loop_body c (input_queue w) in
          put_chat i (HandleChat.with_opus_pc AtTop c) (with_input_queue q w)
      | Exited => w
      end
  | SendLoop =>
      match send_pc c with
      | AtTop => put_chat i (HandleChat.with_send_pc (at_top c) c) w
      | Suspended =>
          put_chat i (HandleChat.with_send_pc AtTop (HandleChat.send_loop_body c)) w
      | Exited => w
      end
  | AnotherLoop =>
      match another_pc c with
      | AtTop => put_chat i (HandleChat.with_another_pc (at_top c) c) w
      | Suspended =>
          match HandleChat.another_loop_body c (output_queue w) with
          | (Some c, q) =>
              put_chat i (HandleChat.with_another_pc AtTop c) (with_output_queue q w)
          | (None, q) =>
              let '(c, w) :=
                gather_raises (HandleChat.with_another_pc Exited c)
                              (with_output_queue q w) in
              put_chat i c w
          end
      | Exited => w
      end
  end.

(** The loops of a chat run from [gather] on, also after [gather] raised. *)
Definition loops_started (c : Chat) : bool :=
  bool_decide (phase c = Gathering) || bool_decide (phase c = Failed).

Definition on_chat (i : nat) (f : Chat -> World -> World) (w : World) : World :=
  match chats w !! i with
  | Some c => f c w
  | None => w
  end.

Definition gateway_step (a : Action) (w : World) : World :=
  match a with
  | Connect =>
      emit [EvLog "info" "accepted connection"]
        (with_chats (chats w ++ [HandleChat.accepted]) w)
  | Deliver i m =>
      on_chat i (fun c => put_chat i (HandleChat.with_inbox (inbox c ++ [m]) c)) w
  | Acquire i =>
      on_chat i (fun c w =>
        if bool_decide (phase c = Waiting) && negb (lock w)
        then put_chat i (HandleChat.enter c) (with_lock true w)
        else w) w
  | Handshake i =>
      on_chat i (fun c w =>
        if bool_decide (phase c = Locked)
        then put_chat i (HandleChat.handshake c) w
        else w) w
  | Resume i t =>
      on_chat i (fun c w => if loops_started c then resume i t c w else w) w
  | Release i =>
      on_chat i (fun c w =>
        if bool_decide (phase c = Gathering) && HandleChat.all_exited c
        then emit [EvLog "info" "done with connection"]
               (put_chat i (HandleChat.with_phase Finished c) (with_lock false w))
        else w) w
  | Pump BridgeSend => WebServer.send_loop w
  | Pump BridgeRecv => WebServer.recv_loop w
  | Pump BridgeSend2 => WebServer.send_loop2 w
  | Pump BridgeRecv2 => WebServer.recv_loop2 w
  | Model => w
  end.

(** After an exception has ended the event loop only the model process
    still runs. *)
Definition step (a : Action) (w : World) : World :=
  match a with
  | Model => ModelServer.turn w
  | _ => match fault w with
         | None => gateway_step a w
         | Some _ => w
         end
  end.

Definition run (schedule : list Action) (w : World) : World :=
  foldl (fun w a => step a w) w schedule.

End EventLoop.

(** ** A small instance of the collaborators, for running the model *)

Module Toy.

(** Token frames are numbers.  The generator counts its steps and follows
    a pattern that says at which steps audio tokens come out (past the end
    of the pattern: at every step); frame [100 + n] comes out of step [n]. *)
Definition toy_step (g : nat * list bool * option nat) (data : nat)
  : (nat * list bool * option nat) * Z :=
  let '(n, pattern, _) := g in
  ((S n, tl pattern, if hd true pattern then Some (100 + n) else None),
   Z.of_nat (S n)).

Definition toy (pattern : list bool) : Externals :=
  {| sample := Z;
     zero := 0%Z;
     TokenFrame := nat;
     mimi_encode := fun pcm => length pcm;
     mimi_decode := fun t => repeat (Z.of_nat t) FRAME_SIZE;
     mimi_decode_length := fun t => repeat_length (Z.of_nat t) FRAME_SIZE;
     opus_decode := fun payload => map (fun _ => 1%Z) payload;
     opus_encode := fun pcm =>
       match pcm with
       | [] => []
       | s :: _ => [if Z.eqb s 103 then x67 else x2a]
       end;
     LmGen := nat * list bool * option nat;
     new_gen := fun _ _ _ => (0, pattern, None);
     gen_step := toy_step;
     last_audio_tokens := fun g => snd g;
     model_input := fun d => d;
     as_uint32 := fun a => a;
     id_to_piece := fun id => if Z.eqb id 1 then "hello" else "world";
     hub_path := fun repo path => repo +:+ "/" +:+ path;
     fmt_msg_type := fun _ => "WSMsgType";
     fmt_type_of := fun _ => "type";
     fmt_exception := "exception";
     fmt_tokens := fun _ => "tokens";
     dist_dir := fun p => p +:+ ".d" |}.

Definition toy_args : Args :=
  {| tokenizer := Some "tok.model"; model := Some "lm.safetensors";
     mimi := Some "mimi.safetensors"; quantized := None; steps := 2500%Z;
     hf_repo := Some ""; static := Some "none";
     host := "localhost"; port := 8998%Z |}.

End Toy.

(** ** Vocabulary of the properties *)

Section Vocabulary.
Context `{Externals}.

(** The events of one polling loop that ends at its [k]+1st poll with [d]. *)
Definition polls {A : Type} (ev : option A -> Event) (k : nat) (d : A) : list Event :=
  concat (replicate k [EvSleep 10; ev None]) ++ [EvSleep 10; ev (Some d)].

(** A codec with nothing in flight. *)
Definition idle (lags : list nat) : StreamTokenizer :=
  {| encoding := []; decoding := []; lag := lags |}.

Definition is_tokens (m : Msg) : Prop :=
  match m with MTokens _ => True | MStr _ => False end.

(** One priming iteration as the specification words it: encode a zero
    frame, poll [get_encoded] every 10 ms until a frame is there ([k] empty
    polls), push it to the model; then, when a [reply] is awaited, take one
    token frame [t] from the model, decode it, and poll [get_decoded] until
    the PCM is there ([j] empty polls). *)
Definition priming_round (k : nat) (reply : option (TokenFrame * nat)) : list Event :=
  [EvEncode zero_frame]
  ++ polls EvGetEncoded k (mimi_encode zero_frame)
  ++ [EvPutC2S (mimi_encode zero_frame)]
  ++ match reply with
     | None => []
     | Some (t, j) =>
         [EvGetS2C (MTokens t); EvDecode t] ++ polls EvGetDecoded j (mimi_decode t)
     end.

(** What the model puts on [server_to_client] when it serves [frames]. *)
Definition emitted (gen : LmGen) (frames : list TokenFrame) : list Msg :=
  snd (ModelServer.serve gen frames).

(** The polls of one session, in order: each is what [read_pcm] returned. *)
Definition assemble_all (polls : list (list sample))
    (st : option (list sample) * list (list sample))
  : option (list sample) * list (list sample) :=
  foldl (fun st pcm => HandleChat.assemble pcm (fst st) (snd st)) st polls.

(** The PCM the assembler holds back. *)
Definition buffered (a : option (list sample)) : list sample := default [] a.

(** The static content can be found: a path is given, or the archive can
    be fetched. *)
Definition static_ok (args : Args) : Prop :=
  static args = None -> exists p, hf_hub_download (hf_repo args) "dist.tgz" = Ok p.

(** The chat holds the lock. *)
Definition in_session (c : Chat) : Prop :=
  phase c = Locked \/ phase c = Gathering.


Definition is_audio_frame (f : list byte) : Prop :=
  exists msg, msg <> [] /\ f = HandleChat.audio_frame msg.

Definition frame_sized (pcm : list sample) : Prop := length pcm = 1920.

Definition chat_inv (c : Chat) : Prop :=
  phase c <> Failed
  /\ (phase c = Waiting \/ phase c = Locked ->
      sent c = [] /\ opus_pc c = AtTop /\ recv_pc c = Suspended
      /\ send_pc c = AtTop /\ another_pc c = AtTop)
  /\ (phase c = Gathering \/ phase c = Finished ->
      exists frames, sent c = [x00] :: frames /\ Forall is_audio_frame frames)
  /\ (phase c = Finished -> HandleChat.all_exited c = true).

Definition pcm_ok (w : World) : Prop :=
  Forall frame_sized (output_queue w)
  /\ Forall (fun job => frame_sized (snd job)) (decoding (audio_tokenizer w)).

Definition world_inv (w : World) : Prop :=
  Forall chat_inv (chats w)
  /\ pcm_ok w
  /\ (forall i c, chats w !! i = Some c -> in_session c -> lock w = true)
  /\ (forall i j ci cj, chats w !! i = Some ci -> chats w !! j = Some cj ->
        in_session ci -> in_session cj -> i = j).

(** The state in which [go] starts the event loop. *)
Definition event_loop_start (w : World) : Prop :=
  chats w = [] /\ lock w = false /\ pcm_ok w.





(** The gateway takes a string from [server_to_client]. *)
Definition dequeues_string (e : Event) : Prop :=
  exists s, e = EvGetS2C (MStr s).

(** The model puts a string on [server_to_client]. *)
Definition puts_string (e : Event) : Prop :=
  exists s, e = EvPutS2C (MStr s).

(** The gateway uses the codec or opens its port. *)
Definition gateway_works (e : Event) : Prop :=
  match e with
  | EvEncode _ | EvGetEncoded _ | EvDecode _ | EvGetDecoded _ | EvListen _ _ => True
  | _ => False
  end.

(** What the model process has done: it has put "start" once, after it
    loaded its weights and warmed the model up, and no other string. *)
Definition model_trace_ok (evs : list Event) : Prop :=
  exists pre post,
    evs = pre ++ EvPutS2C (MStr "start") :: post
    /\ EvModelWarmup ∈ pre /\ (exists f, EvLoadWeights f ∈ pre)
    /\ Forall (fun e => ~ puts_string e) pre
    /\ Forall (fun e => ~ puts_string e) post.

(** The model serves, the readiness message has been taken, and no chat
    exists yet. *)
Definition started (w : World) : Prop :=
  Forall is_tokens (server_to_client w)
  /\ chats w = []
  /\ (exists gen, model_proc w = Serving gen)
  /\ model_trace_ok (model_events w).

(** [m] keeps [started] and takes no string from [server_to_client],
    however it ends. *)
Definition keeps {A : Type} (m : M A) : Prop :=
  forall w, started w ->
    started (final (m w))
    /\ exists tr, events (final (m w)) = events w ++ tr
                  /\ Forall (fun e => ~ dequeues_string e) tr.

(** The call of [log] prints: its level is one [log] knows. *)
Definition log_ok (e : Event) : Prop :=
  match e with
  | EvLog level msg => exists line, log level msg = Some line
  | _ => True
  end.

(** The buffer handed to [audio_tokenizer.encode] is one frame. *)
Definition encode_ok (e : Event) : Prop :=
  match e with
  | EvEncode pcm => length pcm = 1920
  | _ => True
  end.

Definition fine (e : Event) : Prop := log_ok e /\ encode_ok e.

(** What the start of [web_server] keeps: nothing on [input_queue], and
    the model process has only done fine things. *)
Definition tidy (w : World) : Prop :=
  input_queue w = [] /\ Forall fine (model_events w).

(** [m], however it ends, keeps [inv] and does only things that satisfy
    [ok]. *)
Definition always {A : Type} (inv : World -> Prop) (ok : Event -> Prop) (m : M A)
  : Prop :=
  forall w, inv w ->
    inv (final (m w))
    /\ exists tr, events (final (m w)) = events w ++ tr /\ Forall ok tr.

(** What the event loop keeps. *)
Definition loop_fine (w : World) : Prop :=
  Forall frame_sized (input_queue w)
  /\ Forall fine (events w) /\ Forall fine (model_events w).

(** No repository was named on the command line ([--hf-repo] defaults to
    the empty string). *)
Definition repo_missing (args : Args) : Prop :=
  hf_repo args = None \/ hf_repo args = Some "".


(** The gateway opens its port. *)
Definition listens (e : Event) : Prop :=
  match e with EvListen _ _ => True | _ => False end.

(** Something the gateway only announces: a line of its log at level
    "info", the file of its codec, the port it opens. *)
Definition announces (e : Event) : Prop :=
  match e with
  | EvLog level _ => level = "info"
  | EvNewTokenizer _ | EvListen _ _ => True
  | _ => False
  end.

(** The model serves and only token frames wait on [server_to_client]. *)
Definition serving (w : World) : Prop :=
  Forall is_tokens (server_to_client w)
  /\ (exists gen, model_proc w = Serving gen)
  /\ fault w = None.

(** What a trace says went through each end of the audio path, in order:
    the buffers passed to [audio_tokenizer.encode], the frames put on and
    taken from [client_to_server], the messages put on and taken from
    [server_to_client], the frames passed to [audio_tokenizer.decode], and
    the PCM buffers [get_decoded] returned. *)
Definition encoded (evs : list Event) : list (list sample) :=
  flat_map (fun e => match e with EvEncode pcm => [pcm] | _ => [] end) evs.

Definition put_c2s (evs : list Event) : list TokenFrame :=
  flat_map (fun e => match e with EvPutC2S t => [t] | _ => [] end) evs.

Definition got_c2s (evs : list Event) : list TokenFrame :=
  flat_map (fun e => match e with EvGetC2S t => [t] | _ => [] end) evs.

Definition put_s2c (evs : list Event) : list Msg :=
  flat_map (fun e => match e with EvPutS2C m => [m] | _ => [] end) evs.

Definition got_s2c (evs : list Event) : list Msg :=
  flat_map (fun e => match e with EvGetS2C m => [m] | _ => [] end) evs.

Definition decoded (evs : list Event) : list TokenFrame :=
  flat_map (fun e => match e with EvDecode t => [t] | _ => [] end) evs.

Definition got_decoded (evs : list Event) : list (list sample) :=
  flat_map (fun e => match e with EvGetDecoded (Some d) => [d] | _ => [] end) evs.

(** Nothing on the audio path is lost, duplicated or reordered. *)
Definition in_order (w : World) : Prop :=
  map mimi_encode (encoded (events w))
    = put_c2s (events w) ++ map snd (encoding (audio_tokenizer w))
  /\ put_c2s (events w) = got_c2s (model_events w) ++ client_to_server w
  /\ put_s2c (model_events w) = got_s2c (events w) ++ server_to_client w
  /\ map mimi_decode (decoded (events w))
     = got_decoded (events w) ++ map snd (decoding (audio_tokenizer w)).

(** As [in_order], with the frame [d] taken from the codec and not yet put
    on [client_to_server]. *)
Definition carrying (d : TokenFrame) (w : World) : Prop :=
  map mimi_encode (encoded (events w))
    = put_c2s (events w) ++ d :: map snd (encoding (audio_tokenizer w))
  /\ put_c2s (events w) = got_c2s (model_events w) ++ client_to_server w
  /\ put_s2c (model_events w) = got_s2c (events w) ++ server_to_client w
  /\ map mimi_decode (decoded (events w))
     = got_decoded (events w) ++ map snd (decoding (audio_tokenizer w)).

(** The event is none of the audio path. *)
Definition off_path (e : Event) : Prop :=
  match e with
  | EvLog _ _ | EvNewTokenizer _ | EvListen _ _ => True
  | _ => False
  end.

(** [m], run where [pre] holds, returns where [post] holds of its result,
    and ends in any other way only where [stop] holds. *)
Definition triple {A : Type} (pre : World -> Prop) (m : M A)
    (post : A -> World -> Prop) (stop : World -> Prop) : Prop :=
  forall w, pre w ->
    match m w with
    | Done a w' => post a w'
    | Blocked w' | Timeout w' | Raised _ w' => stop w'
    end.



(** The chat has left [handle_chat]: what it has sent, its state and its
    streams are [c]'s; only its websocket may have received more. *)
Definition left_as (c c' : Chat) : Prop :=
  phase c' = Finished /\ sent c' = sent c /\ close c' = close c
  /\ opus_reader c' = opus_reader c /\ opus_writer c' = opus_writer c
  /\ all_pcm_data c' = all_pcm_data c
  /\ opus_pc c' = opus_pc c /\ recv_pc c' = recv_pc c
  /\ send_pc c' = send_pc c /\ another_pc c' = another_pc c.


(** The message neither reports an error nor closes the connection. *)
Definition keeps_open (t : WSMsgType) : Prop :=
  t <> ERROR /\ t <> CLOSE /\ t <> CLOSING /\ t <> CLOSED.

(** No client hangs up and no websocket fails. *)
Definition no_hang_up (a : Action) : Prop :=
  match a with
  | Deliver _ m => keeps_open (type m)
  | _ => True
  end.

(** The client of the chat is still there, as far as the chat knows. *)
Definition connected (c : Chat) : Prop :=
  close c = false /\ recv_pc c <> Exited /\ phase c <> Finished
  /\ Forall (fun m => keeps_open (type m)) (inbox c).

(** A chat holds the lock whenever it is taken. *)
Definition lock_has_holder (w : World) : Prop :=
  lock w = true -> exists i c, chats w !! i = Some c /\ in_session c.

End Vocabulary.

(** ** Sample runs *)

(** A run with two clients: the first is served, the second waits. *)
Definition two_clients : list Action :=
  [Connect; Acquire 0; Handshake 0; Connect; Acquire 1;
   Deliver 0 {| type := BINARY; data := PyBytes [x01; x05] |};
   Resume 0 RecvLoop; Resume 0 OpusLoop; Resume 0 OpusLoop;
   Pump BridgeRecv2; Pump BridgeRecv;
   Resume 0 AnotherLoop; Resume 0 AnotherLoop; Resume 0 SendLoop; Resume 0 SendLoop].

(** An event loop about to start, with one token frame waiting. *)
Definition toy_start : World (H := Toy.toy []) :=
  with_s2c [MTokens (7%nat : @TokenFrame (Toy.toy []))] (main Toy.toy_args []).


(** A model with one step of delay: no audio tokens at its first step,
    then audio tokens at every step. *)
Definition delayed : Externals := Toy.toy [false; true; true; true].

(** A model that emits audio tokens at every step. *)
Definition eager : Externals := Toy.toy [true; true; true; true].

(** The run returned. *)
Definition is_done `{Externals} {A : Type} (o : Outcome A) : bool :=
  match o with Done _ _ => true | _ => false end.


(** The state in which [web_server] enters the warmup with the delayed
    model: "start" has been taken and the model serves. *)
Definition delayed_ready : World (H := delayed) :=
  with_model (Serving (H := delayed) (0, [false; true; true; true], None)) []
    (main Toy.toy_args [1; 2; 0; 3]).

(** The model is about to serve one queued frame. *)
Definition delayed_serving : World (H := delayed) :=
  with_c2s [(1920%nat : @TokenFrame delayed)] delayed_ready.

(** A command line that asks for 5 bits and names no model file. *)
Definition five_bit_args : Args :=
  {| tokenizer := Some "tok.model"; model := None;
     mimi := Some "mimi.safetensors"; quantized := Some 5%Z; steps := 2500%Z;
     hf_repo := Some "kyutai/moshiko"; static := Some "none";
     host := "localhost"; port := 8998%Z |}.

(** A model that emits no audio tokens at its first four steps. *)
Definition mute : Externals := Toy.toy [false; false; false; false].

(** The state in which [web_server] enters the warmup with the mute model. *)
Definition mute_ready : World (H := mute) :=
  with_model (Serving (H := mute) (0, [false; false; false; false], None)) []
    (main Toy.toy_args [1; 2; 0; 3]).

(** The three files are named, the static content and the repository are
    not: [--static] and [--hf-repo] are left at their defaults. *)
Definition local_files_args : Args :=
  {| tokenizer := Some "tok.model"; model := Some "lm.safetensors";
     mimi := Some "mimi.safetensors"; quantized := None; steps := 2500%Z;
     hf_repo := Some ""; static := None;
     host := "localhost"; port := 8998%Z |}.

(** The scheduler lets each polling loop of chat [i] run twice and then
    lets [gather] return. *)
Definition wind_down (i : nat) : list Action :=
  [Resume i OpusLoop; Resume i OpusLoop; Resume i SendLoop; Resume i SendLoop;
   Resume i AnotherLoop; Resume i AnotherLoop; Release i].



(** Two clients connect; the first is served and hangs up, and its session
    ends. *)
Definition first_leaves : list Action :=
  [Connect; Connect; Acquire 0; Acquire 1; Handshake 0;
   Deliver 0 {| type := CLOSE; data := PyNone |}; Resume 0 RecvLoop]
  ++ wind_down 0.

(** A binary websocket message that carries [payload] as audio. *)
Definition audio_message (payload : list byte) : WSMessage :=
  {| type := BINARY; data := PyBytes (x01 :: payload) |}.

(** The audio messages of client [i] arrive, its [recv_loop] takes them one
    by one, and its [opus_loop] wakes up once. *)
Definition upload (i : nat) (payloads : list (list byte)) : list Action :=
  map (fun p => Deliver i (audio_message p)) payloads
  ++ replicate (length payloads) (Resume i RecvLoop)
  ++ [Resume i OpusLoop; Resume i OpusLoop].

(** A client is in its session and has sent nothing yet. *)
Definition in_session_0 : list Action := [Connect; Acquire 0; Handshake 0].




(** The chat of the first client when its session has ended. *)
Definition gone : Chat (H := Toy.toy []) :=
  {| inbox := []; sent := [[x00]]; phase := Finished; close := true;
     opus_reader := {| decoded_pcm := [] |};
     opus_writer := {| encoded_bytes := [] |};
     all_pcm_data := None;
     opus_pc := Exited; recv_pc := Exited; send_pc := Exited;
     another_pc := Exited |}.

(** The second client is served, and the first sends one more message. *)
Definition second_served : list Action :=
  [Acquire 1; Handshake 1; Deliver 0 (audio_message [x05]);
   Resume 0 RecvLoop; Resume 0 SendLoop; Acquire 0; Release 0].




(** Its chat. *)
Definition greeted : Chat (H := Toy.toy []) :=
  HandleChat.handshake (HandleChat.enter HandleChat.accepted).

(** A client is in its session and one audio message has arrived. *)
Definition one_message : list Action :=
  in_session_0 ++ [Deliver 0 (audio_message [x05])].

(** * Properties *)

(** ** The inbound reader *)

Section InboundReader.
Context `{Externals}.
Import HandleChat.

Lemma recv_message_never_raises (message : WSMessage) (rd : OpusStreamReader) (e : string) :
  flow (recv_message message rd) <> Raise e.
Proof.
  unfold recv_message.
  repeat case_decide; simpl; try discriminate.
  destruct (as_bytes (data message)) as [b|]; simpl; try discriminate.
  destruct b as [|k b]; simpl; try discriminate.
  destruct (Z.eqb (byte_int k) 1); simpl; discriminate.
Qed.

(** C6: for every payload [p], the frame [b"\x01" + p] that [send_loop]
    builds has the leading byte 1, the rest of it is [p], and the inbound
    reader takes it as audio and feeds exactly [p] to the Opus reader. *)
Theorem audio_frame_round_trip (p : list byte) (rd : OpusStreamReader) :
  audio_frame p !! 0 = Some x01
  /\ byte_int x01 = 1%Z
  /\ drop 1 (audio_frame p) = p
  /\ recv_message {| type := BINARY; data := PyBytes (audio_frame p) |} rd
     = {| flow := Continue; logged := []; reader := append_bytes p rd |}.
Proof.
  repeat split.
Qed.

(** C9: the body of the inbound reader never raises, on any message; on an
    empty binary message it logs the warning "empty message", leaves the
    Opus reader as it is and goes on with the next message, and the loop
    neither sets [close] nor ends. *)
Theorem empty_binary_frame_is_dropped (c : Chat) (rest : list WSMessage) :
  (forall (message : WSMessage) (rd : OpusStreamReader) (e : string),
      flow (recv_message message rd) <> Raise e)
  /\ recv_message {| type := BINARY; data := PyBytes [] |} (opus_reader c)
     = {| flow := Continue; logged := [EvLog "warning" "empty message"];
          reader := opus_reader c |}
  /\ recv_loop (with_inbox ({| type := BINARY; data := PyBytes [] |} :: rest) c)
     = (with_inbox rest c, [EvLog "warning" "empty message"], None).
Proof.
  split; [apply recv_message_never_raises|].
  split; [reflexivity|].
  destruct c; reflexivity.
Qed.

Lemma recv_loop_closes_only_on_error_or_close (c c' : Chat) (evs : list Event) (exc : option string) :
  recv_loop c = (c', evs, exc) -> close c = false -> close c' = true ->
  exists m rest, inbox c = m :: rest /\ (type m = ERROR \/ stops_iteration (type m) = true).
Proof.
  unfold recv_loop. intros Hr Hc Hc'.
  destruct (inbox c) as [|m rest] eqn:Hin.
  - inversion Hr; subst. congruence.
  - exists m, rest. split; [reflexivity|].
    destruct (stops_iteration (type m)) eqn:Hs; [by right|]. left.
    revert Hr. unfold recv_message.
    destruct (decide (type m = ERROR)) as [|Hne]; [done|].
    destruct (decide (type m = CLOSED)) as [Hcl|Hncl].
    { rewrite Hcl in Hs. discriminate. }
    destruct (decide (type m <> BINARY)); simpl.
    { intros Hr; inversion Hr; subst; simpl in *. congruence. }
    destruct (as_bytes (data m)) as [b|]; simpl.
    2:{ intros Hr; inversion Hr; subst; simpl in *. congruence. }
    destruct b as [|k b]; simpl.
    { intros Hr; inversion Hr; subst; simpl in *. congruence. }
    destruct (Z.eqb (byte_int k) 1); simpl;
      intros Hr; inversion Hr; subst; simpl in *; congruence.
Qed.

(** C7: a message that is neither an error nor a close, and that is not
    binary or is binary with a leading byte other than 1, is logged once (as
    an error or a warning) and dropped: the loop goes on and nothing of the
    chat changes but its inbox; and [close] is only ever set by a message
    that is an error or a close. *)
Theorem bad_messages_are_logged_and_dropped
    (c : Chat) (message : WSMessage) (rest : list WSMessage)
    (Hnot_error : type message <> ERROR)
    (Hnot_close : stops_iteration (type message) = false)
    (Hbad : type message <> BINARY
            \/ exists k payload, data message = PyBytes (k :: payload)
                                 /\ byte_int k <> 1%Z) :
  (exists level text,
      (level = "error" \/ level = "warning")
      /\ recv_message message (opus_reader c)
         = {| flow := Continue; logged := [EvLog level text]; reader := opus_reader c |}
      /\ recv_loop (with_inbox (message :: rest) c)
         = (with_inbox rest c, [EvLog level text], None))
  /\ (forall (c0 c1 : Chat) (evs : list Event) (exc : option string),
        recv_loop c0 = (c1, evs, exc) -> close c0 = false -> close c1 = true ->
        exists m tl, inbox c0 = m :: tl
                     /\ (type m = ERROR \/ stops_iteration (type m) = true)).
Proof.
  split; [|apply recv_loop_closes_only_on_error_or_close].
  assert (Hclosed : type message <> CLOSED).
  { intros Heq. rewrite Heq in Hnot_close. discriminate. }
  destruct (decide (type message = BINARY)) as [Hbin|Hnb].
  - destruct Hbad as [|(k & payload & Hdata & Hk)]; [done|].
    exists "warning", ("unknown message kind " +:+ pretty (byte_int k)).
    split; [by right|].
    assert (Hm : recv_message message (opus_reader c)
         = {| flow := Continue;
              logged := [EvLog "warning" ("unknown message kind " +:+ pretty (byte_int k))];
              reader := opus_reader c |}).
    { unfold recv_message. rewrite !decide_False by (try done; by intros ?).
      rewrite Hdata. simpl. apply Z.eqb_neq in Hk. by rewrite Hk. }
    split; [exact Hm|].
    unfold recv_loop. simpl. rewrite Hnot_close. simpl.
    rewrite Hm. destruct c; reflexivity.
  - exists "error", ("unexpected message type " +:+ fmt_msg_type (type message)).
    split; [by left|].
    assert (Hm : recv_message message (opus_reader c)
         = {| flow := Continue;
              logged := [EvLog "error" ("unexpected message type " +:+ fmt_msg_type (type message))];
              reader := opus_reader c |}).
    { unfold recv_message. rewrite !decide_False by done. by rewrite decide_True. }
    split; [exact Hm|].
    unfold recv_loop. simpl. rewrite Hnot_close. simpl.
    rewrite Hm. destruct c; reflexivity.
Qed.
End InboundReader.

(** ** The PCM assembler and the text token *)

Section Assembler.
Context `{Externals}.
Import HandleChat.


Lemma slice_frames_spec (a : list sample) (q : list (list sample)) :
  exists new,
    snd (slice_frames a q) = q ++ new
    /\ Forall (fun b => length b = FRAME_SIZE) new
    /\ concat new ++ fst (slice_frames a q) = a
    /\ length (fst (slice_frames a q)) < FRAME_SIZE.
Proof.
  funelim (slice_frames a q).
  - destruct H0 as (new & Hq & Hlen & Hcat & Hrem).
    eexists (_ :: new). repeat split.
    + rewrite Hq. rewrite <- app_assoc. reflexivity.
    + constructor; [|done]. rewrite length_take. lia.
    + simpl. rewrite <- app_assoc, Hcat. apply take_drop.
    + done.
  - exists []. simpl. repeat split; [by rewrite app_nil_r | constructor | lia].
Qed.


Lemma assemble_spec (pcm : list sample) (a : option (list sample)) (q : list (list sample)) :
  length (buffered a) < FRAME_SIZE ->
  exists new,
    snd (assemble pcm a q) = q ++ new
    /\ Forall (fun b => length b = FRAME_SIZE) new
    /\ concat new ++ buffered (fst (assemble pcm a q)) = buffered a ++ pcm
    /\ length (buffered (fst (assemble pcm a q))) < FRAME_SIZE.
Proof.
  intros Ha. unfold assemble.
  destruct (Nat.eqb (length pcm) 0) eqn:Hz.
  - apply Nat.eqb_eq, nil_length_inv in Hz. subst pcm.
    exists []. simpl. rewrite !app_nil_r. repeat split; [constructor | done].
  - set (all := match a with None => pcm | Some a0 => a0 ++ pcm end).
    assert (Hall : all = buffered a ++ pcm) by (by destruct a).
    destruct (slice_frames_spec all q) as (new & Hq & Hlen & Hcat & Hrem).
    destruct (slice_frames all q) as [rest q'] eqn:Hs. simpl in *.
    exists new. repeat split; [done | done | by rewrite Hcat | done].
Qed.

Lemma assemble_all_spec (polls : list (list sample)) (a : option (list sample))
    (q : list (list sample)) :
  length (buffered a) < FRAME_SIZE ->
  exists new,
    snd (assemble_all polls (a, q)) = q ++ new
    /\ Forall (fun b => length b = FRAME_SIZE) new
    /\ concat new ++ buffered (fst (assemble_all polls (a, q))) = buffered a ++ concat polls
    /\ length (buffered (fst (assemble_all polls (a, q)))) < FRAME_SIZE.
Proof.
  revert a q. induction polls as [|pcm polls IH]; intros a q Ha.
  - exists []. simpl. rewrite !app_nil_r. repeat split; [constructor | done].
  - simpl. destruct (assemble_spec pcm a q Ha) as (new1 & Hq1 & Hl1 & Hc1 & Hr1).
    destruct (assemble pcm a q) as [a1 q1] eqn:Has. simpl in *.
    destruct (IH a1 q1 Hr1) as (new2 & Hq2 & Hl2 & Hc2 & Hr2).
    exists (new1 ++ new2). repeat split.
    + rewrite Hq2, Hq1. by rewrite <- app_assoc.
    + by apply Forall_app.
    + rewrite concat_app, <- app_assoc, Hc2, app_assoc, Hc1. by rewrite <- app_assoc.
    + done.
Qed.

(** C2: whatever chunks the Opus reader hands out over the polls of a
    session, every buffer the assembler puts on [input_queue] has 1920
    samples, the buffers followed by what it holds back are the chunks in
    order (nothing dropped, nothing added), and it holds back fewer than
    1920 samples. *)
Theorem assembler_frames_are_exact (polls : list (list sample)) :
  let '(all_pcm_data, input_queue) := assemble_all polls (None, []) in
  Forall (fun chunk => length chunk = 1920) input_queue
  /\ concat input_queue ++ buffered all_pcm_data = concat polls
  /\ length (buffered all_pcm_data) < 1920.
Proof.
  destruct (assemble_all_spec polls None []) as (new & Hq & Hl & Hc & Hr).
  { simpl. unfold FRAME_SIZE. lia. }
  destruct (assemble_all polls (None, [])) as [a q]. simpl in *. subst q.
  done.
Qed.
End Assembler.

Section TextToken.
Context `{Externals}.
Import ModelServer.

(** C8: an iteration of the model loop yields one text token; the token is
    logged as "token <piece>" unless it is 0 or 3, and then not at all; and
    what the iteration leaves behind (the generator, the two channels, the
    rest of the world) does not depend on the token, which appears in the
    log only. *)
Theorem text_token_is_only_logged (w : World) (gen : LmGen) (data : TokenFrame)
    (rest : list TokenFrame)
    (Hserving : model_proc w = Serving gen)
    (Hqueued : client_to_server w = data :: rest) :
  let gen' := fst (gen_step gen (model_input data)) in
  let text_token := snd (gen_step gen (model_input data)) in
  let w' := turn w in
  iteration gen data = (gen', text_token, last_audio_tokens gen')
  /\ text_events text_token
     = (if decide (text_token = 0%Z \/ text_token = 3%Z) then []
        else [EvLog "info" ("token " +:+ replace_block 0 (id_to_piece text_token))])
  /\ model_events w'
     = model_events w ++ [EvGetC2S data] ++ text_events text_token
         ++ map EvPutS2C (audio_put (last_audio_tokens gen'))
  /\ model_proc w' = Serving gen'
  /\ client_to_server w' = rest
  /\ server_to_client w' = server_to_client w ++ audio_put (last_audio_tokens gen')
  /\ (audio_tokenizer w', input_queue w', output_queue w', lock w', chats w',
      events w', fault w')
     = (audio_tokenizer w, input_queue w, output_queue w, lock w, chats w,
        events w, fault w).
Proof.
  intros gen' text_token w'. subst gen' text_token w'.
  unfold turn, iteration. rewrite Hserving, Hqueued.
  destruct (gen_step gen (model_input data)) as [g t] eqn:Hstep. simpl.
  repeat split.
  unfold text_events. case_decide as Hd.
  - destruct Hd as [-> | ->]; reflexivity.
  - destruct (Z.eqb_spec t 0); [tauto|]. destruct (Z.eqb_spec t 3); [tauto|]. reflexivity.
Qed.
End TextToken.

(** ** The warmup *)

Lemma world_ext `{Externals} (w w' : World) :
  audio_tokenizer w = audio_tokenizer w' ->
  client_to_server w = client_to_server w' ->
  server_to_client w = server_to_client w' ->
  model_proc w = model_proc w' ->
  input_queue w = input_queue w' ->
  output_queue w = output_queue w' ->
  lock w = lock w' ->
  chats w = chats w' ->
  events w = events w' ->
  model_events w = model_events w' ->
  fault w = fault w' ->
  w = w'.
Proof. destruct w, w'; simpl; intros; subst; reflexivity. Qed.

Ltac world_eq :=
  apply world_ext; simpl; unfold polls; simpl;
  repeat (progress (rewrite <- ?app_assoc; simpl)); try reflexivity.

Section WarmupFacts.
Context `{Externals}.
Opaque zero_frame.

Lemma poll_encoded_ready (k : nat) : forall (fuel : nat) (w : World) (d : TokenFrame)
    (rest : list (nat * TokenFrame)),
  encoding (audio_tokenizer w) = (k, d) :: rest -> k < fuel ->
  poll_encoded fuel w
  = Done d (emit (polls EvGetEncoded k d)
              (with_tokenizer {| encoding := rest;
                                 decoding := decoding (audio_tokenizer w);
                                 lag := lag (audio_tokenizer w) |} w)).
Proof.
  induction k as [|k IH]; intros fuel w d rest Henc Hlt;
    (destruct fuel as [|fuel]; [lia|]); simpl;
    unfold bind, sleep_get_encoded, get_encoded; rewrite Henc.
  - unfold ret. f_equal.
  - rewrite (IH fuel _ d rest) by (simpl; first [reflexivity | lia]).
    f_equal. world_eq.
Qed.

Lemma poll_decoded_ready (k : nat) : forall (fuel : nat) (w : World) (d : list sample)
    (rest : list (nat * list sample)),
  decoding (audio_tokenizer w) = (k, d) :: rest -> k < fuel ->
  poll_decoded fuel w
  = Done d (emit (polls EvGetDecoded k d)
              (with_tokenizer {| encoding := encoding (audio_tokenizer w);
                                 decoding := rest;
                                 lag := lag (audio_tokenizer w) |} w)).
Proof.
  induction k as [|k IH]; intros fuel w d rest Henc Hlt;
    (destruct fuel as [|fuel]; [lia|]); simpl;
    unfold bind, sleep_get_decoded, get_decoded; rewrite Henc.
  - unfold ret. f_equal.
  - rewrite (IH fuel _ d rest) by (simpl; first [reflexivity | lia]).
    f_equal. world_eq.
Qed.

Lemma first_round (fuel : nat) (w : World) (lags : list nat) :
  audio_tokenizer w = idle lags -> hd 0 lags < fuel ->
  warmup_round fuel 0 w
  = Done tt (emit ([EvEncode zero_frame]
                   ++ polls EvGetEncoded (hd 0 lags) (mimi_encode zero_frame)
                   ++ [EvPutC2S (mimi_encode zero_frame)])
               (with_c2s (client_to_server w ++ [mimi_encode zero_frame])
                 (with_tokenizer (idle (tl lags)) w))).
Proof.
  intros Hidle Hfuel. unfold warmup_round, bind, do_encode, act.
  erewrite poll_encoded_ready; [|simpl; rewrite Hidle; reflexivity|exact Hfuel].
  simpl. unfold c2s_put_nowait, act, ret. f_equal. rewrite Hidle. world_eq.
Qed.

Lemma later_round (fuel i : nat) (w : World) (lags : list nat) (gen gen' : LmGen)
    (evs : list Event) (out : list Msg) (t : TokenFrame) (q : list Msg) :
  i <> 0 ->
  audio_tokenizer w = idle lags -> hd 0 lags < fuel -> hd 0 (tl lags) < fuel ->
  model_proc w = Serving gen ->
  ModelServer.serve gen (client_to_server w ++ [mimi_encode zero_frame]) = (gen', evs, out) ->
  server_to_client w ++ out = MTokens t :: q ->
  warmup_round fuel i w
  = Done tt (emit ([EvEncode zero_frame]
                   ++ polls EvGetEncoded (hd 0 lags) (mimi_encode zero_frame)
                   ++ [EvPutC2S (mimi_encode zero_frame); EvGetS2C (MTokens t); EvDecode t]
                   ++ polls EvGetDecoded (hd 0 (tl lags)) (mimi_decode t))
               (with_c2s []
                 (with_s2c q
                   (with_model (Serving gen') (model_events w ++ evs)
                     (with_tokenizer (idle (tl (tl lags))) w))))).
Proof.
  intros Hi Hidle Hf1 Hf2 Hgen Hserve Hout. unfold warmup_round, bind, do_encode, act.
  erewrite poll_encoded_ready; [|simpl; rewrite Hidle; reflexivity|exact Hf1].
  simpl. destruct (Nat.eqb_spec i 0) as [|_]; [done|].
  unfold s2c_get, ModelServer.run. simpl. rewrite Hgen, Hserve. simpl.
  rewrite Hout. simpl.
  erewrite poll_decoded_ready; [|simpl; rewrite Hidle; reflexivity|exact Hf2].
  unfold ret. f_equal. rewrite Hidle. world_eq.
Qed.
End WarmupFacts.

Section WarmupRuns.
Context `{Externals}.
Opaque zero_frame.




Lemma serve_app (gen : LmGen) (l1 l2 : list TokenFrame) :
  ModelServer.serve gen (l1 ++ l2)
  = let '(g1, e1, o1) := ModelServer.serve gen l1 in
    let '(g2, e2, o2) := ModelServer.serve g1 l2 in
    (g2, e1 ++ e2, o1 ++ o2).
Proof.
  revert gen. induction l1 as [|d l1 IH]; intros gen; simpl.
  - by destruct (ModelServer.serve gen l2) as [[g2 e2] o2].
  - destruct (ModelServer.iteration gen d) as [[g t] a].
    rewrite IH. destruct (ModelServer.serve g l1) as [[g1 e1] o1].
    destruct (ModelServer.serve g1 l2) as [[g2 e2] o2].
    simpl. by rewrite <- ?app_assoc.
Qed.


Lemma audio_put_tokens (a : option TokenFrame) : Forall is_tokens (ModelServer.audio_put a).
Proof. destruct a; simpl; repeat constructor. Qed.


Lemma emitted_tokens (gen : LmGen) (l : list TokenFrame) :
  Forall is_tokens (emitted gen l).
Proof.
  unfold emitted. revert gen. induction l as [|d l IH]; intros gen; simpl; [constructor|].
  destruct (ModelServer.iteration gen d) as [[g t] a].
  specialize (IH g). destruct (ModelServer.serve g l) as [[g1 e1] o1]. simpl in *.
  apply Forall_app. split; [apply audio_put_tokens | done].
Qed.

Lemma lags_head (fuel : nat) (lags : list nat) :
  0 < fuel -> Forall (fun k => k < fuel) lags ->
  hd 0 lags < fuel /\ Forall (fun k => k < fuel) (tl lags).
Proof. intros Hf Hl. destruct Hl; simpl; auto. Qed.

Lemma nonempty_tokens (l : list Msg) :
  Forall is_tokens l -> 1 <= length l -> exists t q, l = MTokens t :: q.
Proof.
  intros Hl Hn. destruct l as [|[s|t] q]; simpl in *; [lia| |eauto].
  by inversion Hl.
Qed.

(** The whole warmup, from the state in which [web_server] enters it. *)
Lemma full_warmup_runs (fuel : nat) (w : World) (lags : list nat) (gen : LmGen) :
  let d := mimi_encode zero_frame in
  0 < fuel -> Forall (fun k => k < fuel) lags ->
  audio_tokenizer w = idle lags ->
  model_proc w = Serving gen ->
  client_to_server w = [] -> server_to_client w = [] ->
  1 <= length (emitted gen (replicate 2 d)) ->
  2 <= length (emitted gen (replicate 3 d)) ->
  3 <= length (emitted gen (replicate 4 d)) ->
  exists gen' evs t1 t2 t3 q k0 k1 k2 k3 j1 j2 j3,
    ModelServer.serve gen (replicate 4 d)
    = (gen', evs, MTokens t1 :: MTokens t2 :: MTokens t3 :: q)
    /\ full_warmup fuel w
       = Done tt
           (emit (priming_round k0 None
                  ++ priming_round k1 (Some (t1, j1))
                  ++ priming_round k2 (Some (t2, j2))
                  ++ priming_round k3 (Some (t3, j3)))
              (with_c2s []
                (with_s2c q
                  (with_model (Serving gen') (model_events w ++ evs)
                    (with_tokenizer (idle (drop 7 lags)) w))))).
Proof.
  intros d Hfuel Hlags Hidle Hgen Hc2s Hs2c H1 H2 H3.
  destruct (lags_head fuel lags Hfuel Hlags) as [L0 Hl1].
  destruct (lags_head fuel _ Hfuel Hl1) as [L1 Hl2].
  destruct (lags_head fuel _ Hfuel Hl2) as [L2 Hl3].
  destruct (lags_head fuel _ Hfuel Hl3) as [L3 Hl4].
  destruct (lags_head fuel _ Hfuel Hl4) as [L4 Hl5].
  destruct (lags_head fuel _ Hfuel Hl5) as [L5 Hl6].
  destruct (lags_head fuel _ Hfuel Hl6) as [L6 Hl7].
  (* what the model emits, step by step *)
  pose proof (emitted_tokens gen (replicate 4 d)) as Htok.
  unfold emitted in *.
  change (replicate 4 d) with ([d; d] ++ [d] ++ [d]) in *.
  change (replicate 3 d) with ([d; d] ++ [d]) in *.
  change (replicate 2 d) with [d; d] in *.
  rewrite serve_app in Htok, H3. rewrite serve_app in H2.
  destruct (ModelServer.serve gen [d; d]) as [[g2 e2] o2] eqn:S2.
  rewrite serve_app in Htok, H3.
  destruct (ModelServer.serve g2 [d]) as [[g3 e3] o3] eqn:S3.
  destruct (ModelServer.serve g3 [d]) as [[g4 e4] o4] eqn:S4.
  simpl in H1, H2, H3, Htok.
  apply Forall_app in Htok as [T2 Htok]. apply Forall_app in Htok as [T3 T4].
  destruct (nonempty_tokens o2 T2 H1) as (t1 & q1 & ->).
  inversion T2 as [|? ? _ T2']; subst.
  destruct (nonempty_tokens (q1 ++ o3)) as (t2 & q2 & E2).
  { by apply Forall_app. } { simpl in H2. rewrite !length_app in *. simpl in *. lia. }
  assert (T2'' : Forall is_tokens q2).
  { assert (Hf : Forall is_tokens (q1 ++ o3)) by (by apply Forall_app).
    rewrite E2 in Hf. by inversion Hf. }
  destruct (nonempty_tokens (q2 ++ o4)) as (t3 & q3 & E3).
  { by apply Forall_app. }
  { assert (length (q1 ++ o3) = S (length q2)) by (by rewrite E2).
    rewrite !length_app in *. simpl in *. lia. }
  exists g4, (e2 ++ e3 ++ e4), t1, t2, t3, q3.
  exists (hd 0 lags), (hd 0 (tl lags)), (hd 0 (tl (tl (tl lags)))),
    (hd 0 (tl (tl (tl (tl (tl lags)))))).
  exists (hd 0 (tl (tl lags))), (hd 0 (tl (tl (tl (tl lags))))),
    (hd 0 (tl (tl (tl (tl (tl (tl lags))))))).
  split.
  { rewrite serve_app, S2, serve_app, S3, S4. f_equal.
    rewrite <- E3. rewrite (app_comm_cons q2), <- E2. simpl.
    by rewrite <- app_assoc. }
  unfold full_warmup. simpl. unfold bind.
  rewrite (first_round fuel w lags Hidle L0).
  erewrite (later_round fuel 1 _ (tl lags) gen g2 e2 (MTokens t1 :: q1) t1 q1);
    [|lia|reflexivity|done|done|simpl; done|simpl; by rewrite Hc2s|simpl; by rewrite Hs2c].
  erewrite (later_round fuel 2 _ (tl (tl (tl lags))) g2 g3 e3 o3 t2 q2);
    [|lia|reflexivity|done|done|reflexivity|simpl; done|simpl; done].
  erewrite (later_round fuel 3 _ (tl (tl (tl (tl (tl lags))))) g3 g4 e4 o4 t3 q3);
    [|lia|reflexivity|done|done|reflexivity|simpl; done|simpl; done].
  unfold ret. f_equal.
  assert (Hdrop : tl (tl (tl (tl (tl (tl (tl lags)))))) = drop 7 lags).
  { clear. do 7 (destruct lags as [|? lags]; [reflexivity|]). reflexivity. }
  rewrite <- Hdrop. unfold priming_round. world_eq.
Qed.

End WarmupRuns.

Section WarmupClaims.
Context `{Externals}.
Opaque zero_frame.

(** C5: with a codec that answers within [fuel] polls and a model that has
    emitted [i] frames when it has served [i]+1 priming frames, the warmup
    returns, and its trace is four priming rounds: each encodes the zero
    frame, polls [get_encoded] every 10 ms until a frame comes and puts it
    on [client_to_server]; the second, third and fourth also take one token
    frame from [server_to_client], decode it and poll [get_decoded] until
    the PCM comes; the first does not. *)
Theorem warmup_is_four_priming_rounds (fuel : nat) (w : World) (lags : list nat)
    (gen : LmGen)
    (Hfuel : 0 < fuel)
    (Hlags : Forall (fun k => k < fuel) lags)
    (Hidle : audio_tokenizer w = idle lags)
    (Hgen : model_proc w = Serving gen)
    (Hc2s : client_to_server w = [])
    (Hs2c : server_to_client w = [])
    (H1 : 1 <= length (emitted gen (replicate 2 (mimi_encode zero_frame))))
    (H2 : 2 <= length (emitted gen (replicate 3 (mimi_encode zero_frame))))
    (H3 : 3 <= length (emitted gen (replicate 4 (mimi_encode zero_frame)))) :
  exists w' t1 t2 t3 k0 k1 k2 k3 j1 j2 j3,
    full_warmup fuel w = Done tt w'
    /\ events w'
       = events w
         ++ priming_round k0 None
         ++ priming_round k1 (Some (t1, j1))
         ++ priming_round k2 (Some (t2, j2))
         ++ priming_round k3 (Some (t3, j3)).
Proof.
  destruct (full_warmup_runs fuel w lags gen Hfuel Hlags Hidle Hgen Hc2s Hs2c H1 H2 H3)
    as (gen' & evs & t1 & t2 & t3 & q & k0 & k1 & k2 & k3 & j1 & j2 & j3 & _ & Hrun).
  eexists _, t1, t2, t3, k0, k1, k2, k3, j1, j2, j3.
  split; [exact Hrun|]. reflexivity.
Qed.

Lemma go_runs (args : Args) :
  static_ok args ->
  exists evs, forall w, go args w = Done tt (emit evs w).
Proof.
  intros Hs. unfold go, static_path_of.
  destruct (static args) as [s|] eqn:Hst.
  - destruct (String.eqb s "none").
    + eexists. intros w. unfold bind, ret, act. f_equal. 
    + eexists. intros w. unfold bind, ret, act. f_equal. world_eq.
  - destruct (Hs Hst) as [p Hp]. rewrite Hp.
    eexists. intros w. unfold bind, ret, act, lift. f_equal. world_eq.
Qed.

Lemma web_server_runs (fuel : nat) (args : Args) (lags : list nat)
    (mimi_file model_file tokenizer_file : string) :
  let d := mimi_encode zero_frame in
  let gen := new_gen model_file (quantized args) (steps args + 5)%Z in
  mimi_file_of args = Ok mimi_file ->
  ModelServer.model_file_of args = Ok model_file ->
  ModelServer.tokenizer_file_of args = Ok tokenizer_file ->
  static_ok args ->
  0 < fuel -> Forall (fun k => k < fuel) lags ->
  1 <= length (emitted gen (replicate 2 d)) ->
  2 <= length (emitted gen (replicate 3 d)) ->
  3 <= length (emitted gen (replicate 4 d)) ->
  exists gen' evs mevs q,
    emitted gen (replicate 4 d) = take 3 (emitted gen (replicate 4 d)) ++ q
    /\ length (take 3 (emitted gen (replicate 4 d))) = 3
    /\ web_server fuel args (main args lags)
       = Done tt
           (emit evs
             (with_c2s []
               (with_s2c q
                 (with_model (Serving gen') mevs
                   (with_tokenizer (idle (drop 7 lags)) (main args lags)))))).
Proof.
  intros d gen Hmimi Hmodel Htok Hstatic Hfuel Hlags H1 H2 H3.
  destruct (go_runs args Hstatic) as [gevs Hgo].
  unfold web_server, bind, lift, act. rewrite Hmimi.
  unfold s2c_get, ModelServer.run, ModelServer.boot. simpl.
  rewrite Hmodel, Htok. simpl.
  match goal with |- context [full_warmup fuel ?w0] =>
    destruct (full_warmup_runs fuel w0 lags gen Hfuel Hlags eq_refl eq_refl eq_refl eq_refl
                H1 H2 H3)
      as (gen' & evs & t1 & t2 & t3 & q & k0 & k1 & k2 & k3 & j1 & j2 & j3 & Hserve & Hrun);
    rewrite Hrun
  end.
  rewrite Hgo.
  eexists gen', _, _, q. unfold emitted. subst d gen.
  pose proof (Hserve : ModelServer.serve _ [_; _; _; _] = _) as Hserve'.
  rewrite Hserve'. simpl.
  split; [reflexivity|]. split; [reflexivity|].
  f_equal.
Qed.

End WarmupClaims.

(** ** The event loop keeps its invariant *)

Section EventLoopInvariant.
Context `{Externals}.
Import HandleChat.

(** [recv_loop] changes neither the phase nor what was sent, and raises
    nothing. *)
Lemma recv_loop_frame (c c' : Chat) (evs : list Event) (exc : option string) :
  recv_loop c = (c', evs, exc) ->
  exc = None /\ phase c' = phase c /\ sent c' = sent c
  /\ opus_pc c' = opus_pc c /\ send_pc c' = send_pc c /\ another_pc c' = another_pc c
  /\ opus_writer c' = opus_writer c
  /\ (recv_pc c' = recv_pc c \/ recv_pc c' = Exited).
Proof.
  unfold recv_loop. destruct (inbox c) as [|m rest].
  { intros Heq; inversion Heq; subst; clear Heq; simpl; repeat split; auto. }
  destruct (stops_iteration (type m)).
  { intros Heq; inversion Heq; subst; clear Heq; simpl; repeat split; auto. }
  simpl. destruct (flow (recv_message m (opus_reader c))) eqn:E.
  - intros Heq; inversion Heq; subst; clear Heq; simpl; repeat split; auto.
  - intros Heq; inversion Heq; subst; clear Heq; simpl; repeat split; auto.
  - by apply recv_message_never_raises in E.
Qed.

Lemma all_exited_ext (c c' : Chat) :
  opus_pc c' = opus_pc c -> recv_pc c' = recv_pc c ->
  send_pc c' = send_pc c -> another_pc c' = another_pc c ->
  all_exited c' = all_exited c.
Proof. unfold all_exited. by intros -> -> -> ->. Qed.

(** Nothing the invariant looks at has changed. *)
Lemma chat_inv_ext (c c' : Chat) :
  chat_inv c -> phase c' = phase c -> sent c' = sent c ->
  opus_pc c' = opus_pc c -> recv_pc c' = recv_pc c ->
  send_pc c' = send_pc c -> another_pc c' = another_pc c ->
  chat_inv c'.
Proof.
  intros (Hf & Hw & Hg & Hd) Hp Hs H1 H2 H3 H4. unfold chat_inv.
  rewrite (all_exited_ext c c' H1 H2 H3 H4), Hp, Hs, H1, H2, H3, H4. auto.
Qed.

(** While the loops run, the chat only adds audio frames to what it sent. *)
Lemma chat_inv_gathering (c c' : Chat) (extra : list (list byte)) :
  chat_inv c -> phase c = Gathering -> phase c' = Gathering ->
  sent c' = sent c ++ extra -> Forall is_audio_frame extra ->
  chat_inv c'.
Proof.
  intros (Hf & Hw & Hg & Hd) Hp Hp' Hs Hex. unfold chat_inv. rewrite Hp', Hs.
  split; [done|]. split; [intros [?|?]; congruence|].
  split; [|congruence]. intros _.
  destruct Hg as (frames & Hfr & Hall); [by left|].
  exists (frames ++ extra). rewrite Hfr. split; [done|]. by apply Forall_app.
Qed.

Lemma in_session_phase (c c' : Chat) :
  phase c' = phase c -> in_session c' <-> in_session c.
Proof. unfold in_session. by intros ->. Qed.

(** One chat is replaced by one that holds the lock if and only if the
    old one did. *)
Lemma inv_put_chat (w w' : World) (i : nat) (c c' : Chat) :
  world_inv w -> chats w !! i = Some c ->
  chat_inv c' -> (in_session c' <-> in_session c) ->
  chats w' = <[i := c']> (chats w) -> lock w' = lock w -> pcm_ok w' ->
  world_inv w'.
Proof.
  intros (Hc & _ & Hl & Hu) Hi Hc' Hp Hch Hlk Hpcm. unfold world_inv.
  rewrite Hch, Hlk. repeat split; try apply Hpcm.
  - by apply Forall_insert.
  - intros j cj Hj Hs. apply list_lookup_insert_Some in Hj as [(-> & <- & _)|(Hne & Hj)].
    + apply (Hl j c Hi). by apply Hp.
    + by apply (Hl j cj).
  - intros j k cj ck Hj Hk Hsj Hsk.
    apply list_lookup_insert_Some in Hj as [(-> & <- & _)|(Hnj & Hj)];
    apply list_lookup_insert_Some in Hk as [(-> & <- & _)|(Hnk & Hk)].
    + done.
    + apply (Hu j k c ck); auto. by apply Hp.
    + apply (Hu j k cj c); auto. by apply Hp.
    + by apply (Hu j k cj ck).
Qed.

(** Neither the chats nor the lock have changed. *)
Lemma inv_same_chats (w w' : World) :
  world_inv w -> chats w' = chats w -> lock w' = lock w -> pcm_ok w' ->
  world_inv w'.
Proof.
  intros (Hc & _ & Hl & Hu) Hch Hlk Hpcm. unfold world_inv.
  rewrite Hch, Hlk. auto.
Qed.


Lemma lookup_chat_inv (w : World) (i : nat) (c : Chat) :
  world_inv w -> chats w !! i = Some c -> chat_inv c.
Proof.
  intros (Hc & _) Hi. rewrite Forall_lookup in Hc. by apply (Hc i).
Qed.

Lemma inv_connect (w w' : World) :
  world_inv w -> chats w' = chats w ++ [accepted] -> lock w' = lock w -> pcm_ok w' ->
  world_inv w'.
Proof.
  intros (Hc & _ & Hl & Hu) Hch Hlk Hpcm. unfold world_inv. rewrite Hch, Hlk.
  assert (Hacc : ~ in_session accepted) by (intros [?|?]; discriminate).
  repeat split; try apply Hpcm.
  - apply Forall_app. split; [done|]. constructor; [|constructor].
    unfold chat_inv. simpl. repeat split; try done; intros [?|?]; discriminate.
  - intros j cj Hj Hs. apply lookup_app_Some in Hj as [Hj|(_ & Hj)]; [by apply (Hl j cj)|].
    apply list_lookup_singleton_Some in Hj as [_ <-]. done.
  - intros j k cj ck Hj Hk Hsj Hsk.
    apply lookup_app_Some in Hj as [Hj|(_ & Hj)];
      [|apply list_lookup_singleton_Some in Hj as [_ <-]; done].
    apply lookup_app_Some in Hk as [Hk|(_ & Hk)];
      [|apply list_lookup_singleton_Some in Hk as [_ <-]; done].
    by apply (Hu j k cj ck).
Qed.

Lemma inv_acquire (w w' : World) (i : nat) (c : Chat) :
  world_inv w -> chats w !! i = Some c -> phase c = Waiting -> lock w = false ->
  chats w' = <[i := enter c]> (chats w) -> lock w' = true -> pcm_ok w' ->
  world_inv w'.
Proof.
  intros Hinv Hi Hp Hfree Hch Hlk Hpcm.
  pose proof (lookup_chat_inv w i c Hinv Hi) as (Hf & Hw & Hg & Hd).
  destruct Hinv as (Hc & _ & Hl & Hu).
  assert (Hnone : forall j cj, chats w !! j = Some cj -> ~ in_session cj).
  { intros j cj Hj Hs. specialize (Hl j cj Hj Hs). congruence. }
  unfold world_inv. rewrite Hch, Hlk. repeat split; try apply Hpcm.
  - apply Forall_insert; [done|]. destruct Hw as (? & ? & ? & ? & ?); [by left|].
    unfold chat_inv. simpl. repeat split; try done; intros [?|?]; discriminate.
  - intros j k cj ck Hj Hk Hsj Hsk.
    apply list_lookup_insert_Some in Hj as [(-> & <- & _)|(Hnj & Hj)];
    apply list_lookup_insert_Some in Hk as [(-> & <- & _)|(Hnk & Hk)];
      first [done | by destruct (Hnone _ _ Hk) | by destruct (Hnone _ _ Hj)].
Qed.

Lemma inv_release (w w' : World) (i : nat) (c : Chat) :
  world_inv w -> chats w !! i = Some c -> phase c = Gathering -> all_exited c = true ->
  chats w' = <[i := with_phase Finished c]> (chats w) -> pcm_ok w' ->
  world_inv w'.
Proof.
  intros Hinv Hi Hp Hex Hch Hpcm.
  pose proof (lookup_chat_inv w i c Hinv Hi) as (Hf & Hw & Hg & Hd).
  destruct Hinv as (Hc & _ & Hl & Hu).
  assert (Hin : in_session c) by (by right).
  assert (Hnone : forall j cj, <[i := with_phase Finished c]> (chats w) !! j = Some cj ->
                               ~ in_session cj).
  { intros j cj Hj Hs.
    apply list_lookup_insert_Some in Hj as [(-> & <- & _)|(Hnj & Hj)].
    - destruct Hs as [?|?]; discriminate.
    - apply Hnj. by apply (Hu i j c cj). }
  unfold world_inv. rewrite Hch. repeat split; try apply Hpcm.
  - apply Forall_insert; [done|]. unfold chat_inv. simpl.
    split; [done|]. split; [intros [?|?]; discriminate|].
    split; [intros _; apply Hg; by left|]. intros _. exact Hex.
  - intros j cj Hj Hs. by destruct (Hnone j cj Hj).
  - intros j k cj ck Hj Hk Hsj Hsk. by destruct (Hnone j cj Hj).
Qed.

Lemma opus_loop_body_frame (c c' : Chat) (q q' : list (list sample)) :
  opus_loop_body c q = (c', q') ->
  phase c' = phase c /\ sent c' = sent c.
Proof.
  unfold opus_loop_body. simpl.
  destruct (assemble (decoded_pcm (opus_reader c)) (all_pcm_data c) q) as [a q2].
  intros Heq; inversion Heq; subst. done.
Qed.

Lemma send_loop_body_frame (c : Chat) :
  phase (send_loop_body c) = phase c
  /\ exists extra, sent (send_loop_body c) = sent c ++ extra
                   /\ Forall is_audio_frame extra.
Proof.
  unfold send_loop_body. simpl.
  destruct (Nat.ltb_spec 0 (length (encoded_bytes (opus_writer c)))) as [Hlt|Hge]; simpl.
  - split; [done|]. eexists; split; [reflexivity|].
    constructor; [|constructor]. eexists; split; [|reflexivity].
    intros Hnil. rewrite Hnil in Hlt. simpl in Hlt. lia.
  - split; [done|]. exists []. by rewrite app_nil_r.
Qed.

Lemma another_loop_body_frame (c : Chat) (q : list (list sample)) :
  Forall frame_sized q ->
  exists c' q', another_loop_body c q = (Some c', q')
                /\ phase c' = phase c /\ sent c' = sent c /\ Forall frame_sized q'.
Proof.
  intros Hq. unfold another_loop_body. destruct q as [|pcm rest].
  - exists c, []. repeat split; constructor.
  - inversion Hq as [|? ? Hpcm Hrest]; subst.
    unfold frame_sized in Hpcm. rewrite Hpcm, Nat.eqb_refl.
    eexists _, rest. repeat split; done.
Qed.



Lemma get_decoded_ok (c : StreamTokenizer) :
  Forall (fun job => frame_sized (snd job)) (decoding c) ->
  Forall (fun job => frame_sized (snd job)) (decoding (snd (get_decoded c)))
  /\ match fst (get_decoded c) with Some d => frame_sized d | None => True end.
Proof.
  intros Hd. unfold get_decoded.
  destruct (decoding c) as [|[[|k] d] rest] eqn:E; simpl; rewrite ?E.
  - by split.
  - inversion Hd; subst. by split.
  - inversion Hd; subst. split; [by constructor|done].
Qed.

Lemma get_encoded_decoding (c : StreamTokenizer) :
  decoding (snd (get_encoded c)) = decoding c.
Proof. unfold get_encoded. by destruct (encoding c) as [|[[|k] d] rest]. Qed.

Lemma pump_inv (b : Bridge) (w : World) :
  world_inv w -> world_inv (gateway_step (Pump b) w).
Proof.
  intros Hinv. pose proof Hinv as (_ & [Hout Hdec] & _).
  destruct b; simpl.
  - unfold WebServer.send_loop. destruct (input_queue w); [done|].
    apply (inv_same_chats w); try done.
  - unfold WebServer.recv_loop.
    pose proof (get_decoded_ok _ Hdec) as [Hd' Hres].
    destruct (get_decoded (audio_tokenizer w)) as [[d|] c]; simpl in *;
      apply (inv_same_chats w); try done; split; simpl; try done.
    apply Forall_app. split; [done|]. by constructor.
  - unfold WebServer.send_loop2.
    pose proof (get_encoded_decoding (audio_tokenizer w)) as Hd'.
    destruct (get_encoded (audio_tokenizer w)) as [[d|] c]; simpl in *;
      apply (inv_same_chats w); try done; split; simpl; try done; by rewrite Hd'.
  - unfold WebServer.recv_loop2. destruct (server_to_client w) as [|m rest]; [done|].
    destruct m as [s|tk]; simpl.
    + apply (inv_same_chats w); try done.
    + apply (inv_same_chats w); try done. split; simpl; [done|].
      apply Forall_app. split; [done|]. constructor; [|constructor].
      simpl. apply mimi_decode_length.
Qed.

Lemma model_turn_inv (w : World) : world_inv w -> world_inv (ModelServer.turn w).
Proof.
  intros Hinv. pose proof Hinv as (_ & Hpcm & _). unfold ModelServer.turn.
  destruct (model_proc w) as [args|gen|e]; [| |done].
  - destruct (ModelServer.boot args) as [[p evs] out].
    apply (inv_same_chats w); try done.
  - destruct (client_to_server w) as [|data rest]; [done|].
    destruct (ModelServer.iteration gen data) as [[g tk] a].
    apply (inv_same_chats w); try done.
Qed.

Lemma loops_started_gathering (c : Chat) :
  chat_inv c -> loops_started c = true -> phase c = Gathering.
Proof.
  intros (Hf & _) Hs. unfold loops_started in Hs.
  apply orb_true_iff in Hs as [Hs|Hs]; apply bool_decide_eq_true in Hs; congruence.
Qed.

Lemma resume_inv (i : nat) (t : Task) (c : Chat) (w : World) :
  world_inv w -> chats w !! i = Some c -> phase c = Gathering ->
  world_inv (resume i t c w).
Proof.
  intros Hinv Hi Hp. pose proof (lookup_chat_inv w i c Hinv Hi) as Hc.
  pose proof Hinv as (_ & Hpcm & _).
  destruct t; unfold resume.
  - (* opus_loop *)
    destruct (opus_pc c).
    + apply (inv_put_chat w _ i c (with_opus_pc (at_top c) c)); try done.
      by apply (chat_inv_gathering c _ []); try done; simpl; rewrite ?app_nil_r.
    + destruct (opus_loop_body c (input_queue w)) as [c' q] eqn:Hbody.
      apply opus_loop_body_frame in Hbody as [Hp' Hs'].
      apply (inv_put_chat w _ i c (with_opus_pc AtTop c')); try done.
      * apply (chat_inv_gathering c _ []); try done; simpl;
          rewrite ?app_nil_r; congruence.
      * apply in_session_phase. simpl. congruence.
    + done.
  - (* recv_loop *)
    destruct (recv_pc c); try done;
      destruct (recv_loop c) as [[c' evs] exc] eqn:Hloop;
      apply recv_loop_frame in Hloop as (-> & Hp' & Hs' & _);
      (apply (inv_put_chat w _ i c c'); try done;
       [apply (chat_inv_gathering c _ []); try done; rewrite ?app_nil_r; congruence
       |by apply in_session_phase]).
  - (* send_loop *)
    destruct (send_pc c).
    + apply (inv_put_chat w _ i c (with_send_pc (at_top c) c)); try done.
      by apply (chat_inv_gathering c _ []); try done; simpl; rewrite ?app_nil_r.
    + destruct (send_loop_body_frame c) as (Hp' & extra & Hs' & Hex).
      apply (inv_put_chat w _ i c (with_send_pc AtTop (send_loop_body c))); try done.
      * apply (chat_inv_gathering c _ extra); try done; simpl; congruence.
      * apply in_session_phase. simpl. congruence.
    + done.
  - (* another_loop *)
    destruct (another_pc c).
    + apply (inv_put_chat w _ i c (with_another_pc (at_top c) c)); try done.
      by apply (chat_inv_gathering c _ []); try done; simpl; rewrite ?app_nil_r.
    + destruct Hpcm as [Hout Hdec].
      destruct (another_loop_body_frame c (output_queue w) Hout)
        as (c' & q' & -> & Hp' & Hs' & Hq').
      apply (inv_put_chat w _ i c (with_another_pc AtTop c')); try done.
      * apply (chat_inv_gathering c _ []); try done; simpl;
          rewrite ?app_nil_r; congruence.
      * apply in_session_phase. simpl. congruence.
    + done.
Qed.

Lemma gateway_step_inv (a : Action) (w : World) :
  world_inv w -> world_inv (gateway_step a w).
Proof.
  intros Hinv. pose proof Hinv as (_ & Hpcm & Hl & _).
  destruct a as [|i m|i|i|i t|i|b|]; try done.
  - (* Connect *) simpl. by apply (inv_connect w).
  - (* Deliver *) simpl. unfold on_chat. destruct (chats w !! i) as [c|] eqn:Hi; [|done].
    apply (inv_put_chat w _ i c (with_inbox (inbox c ++ [m]) c)); try done.
    by apply (chat_inv_ext c); [apply (lookup_chat_inv w i)|..].
  - (* Acquire *) simpl. unfold on_chat. destruct (chats w !! i) as [c|] eqn:Hi; [|done].
    destruct (bool_decide (phase c = Waiting)) eqn:Hw; [|done].
    destruct (lock w) eqn:Hlk; [done|]. simpl.
    apply bool_decide_eq_true in Hw.
    by apply (inv_acquire w _ i c).
  - (* Handshake *) simpl. unfold on_chat. destruct (chats w !! i) as [c|] eqn:Hi; [|done].
    destruct (bool_decide (phase c = Locked)) eqn:Hw; [|done].
    apply bool_decide_eq_true in Hw.
    pose proof (lookup_chat_inv w i c Hinv Hi) as (Hf & Hwl & Hg & Hd).
    destruct Hwl as (Hs & ? & ? & ? & ?); [by right|].
    apply (inv_put_chat w _ i c (handshake c)); try done.
    + unfold chat_inv. simpl. rewrite Hs. simpl.
      split; [done|]. split; [intros [?|?]; discriminate|].
      split; [|discriminate]. intros _. exists []. by split.
    + unfold in_session. simpl. rewrite Hw. split; intros _; [by left|by right].
  - (* Resume *) simpl. unfold on_chat. destruct (chats w !! i) as [c|] eqn:Hi; [|done].
    destruct (loops_started c) eqn:Hs; [|done].
    apply resume_inv; try done.
    by apply loops_started_gathering; [apply (lookup_chat_inv w i)|].
  - (* Release *) simpl. unfold on_chat. destruct (chats w !! i) as [c|] eqn:Hi; [|done].
    destruct (bool_decide (phase c = Gathering)) eqn:Hw; [|done].
    destruct (all_exited c) eqn:Hex; [|done]. simpl.
    apply bool_decide_eq_true in Hw.
    by apply (inv_release w _ i c).
  - (* Pump *) by apply pump_inv.
Qed.

Lemma step_inv (a : Action) (w : World) : world_inv w -> world_inv (step a w).
Proof.
  intros Hinv. unfold step.
  destruct a; try (destruct (fault w); [done|by apply gateway_step_inv]).
  by apply model_turn_inv.
Qed.

Lemma start_inv (w : World) : event_loop_start w -> world_inv w.
Proof.
  intros (Hch & Hlk & Hpcm). unfold world_inv. rewrite Hch.
  repeat split; try apply Hpcm; try constructor; intros *; by rewrite lookup_nil.
Qed.

Lemma run_inv (schedule : list Action) (w : World) :
  world_inv w -> world_inv (run schedule w).
Proof.
  revert w. induction schedule as [|a l IH]; intros w Hinv; [done|].
  simpl. apply IH. by apply step_inv.
Qed.

End EventLoopInvariant.

(** ** Sessions: the lock and the handshake *)

Section SessionClaims.
Context `{Externals}.
Import HandleChat.



(** C4: whatever a chat has sent starts with the one-byte frame 0x00, and
    every later frame starts with the byte 0x01. *)
Theorem handshake_is_sent_first (w0 : World) (schedule : list Action) (i : nat) (c : Chat)
    (Hstart : event_loop_start w0)
    (Hchat : chats (run schedule w0) !! i = Some c) :
  sent c = []
  \/ exists frames,
       sent c = [x00] :: frames
       /\ Forall (fun f => exists msg, msg <> [] /\ f = x01 :: msg) frames.
Proof.
  pose proof (run_inv schedule w0 (start_inv w0 Hstart)) as Hinv.
  pose proof (lookup_chat_inv _ i c Hinv Hchat) as (Hf & Hw & Hg & Hd).
  destruct (phase c) eqn:Hp; try done.
  - left. by destruct Hw as (? & _); [left|].
  - left. by destruct Hw as (? & _); [right|].
  - right. by apply Hg; left.
  - right. by apply Hg; right.
Qed.

End SessionClaims.


Lemma toy_start_ok : event_loop_start toy_start.
Proof. repeat split; constructor. Qed.


Lemma handshake_is_sent_first_witness :
  exists c, chats (run two_clients toy_start) !! 0 = Some c
  /\ (sent c = []
      \/ exists frames,
           sent c = [x00] :: frames
           /\ Forall (fun f => exists msg, msg <> [] /\ f = x01 :: msg) frames).
Proof.
  eexists. split; [vm_compute; reflexivity|].
  apply (handshake_is_sent_first toy_start two_clients 0 _ toy_start_ok).
  vm_compute. reflexivity.
Defined.

(** ** With nothing in flight and no audio coming in, nothing goes out *)

Section QuietProofs.
Context `{Externals}.
Import HandleChat.








End QuietProofs.

(** ** What the warmup leaves behind *)

Section WarmupOutput.
Context `{Externals}.
Opaque zero_frame.




End WarmupOutput.



(** ** The readiness message *)

Section StartProofs.
Context `{Externals}.
Opaque zero_frame.

Lemma keeps_ret {A : Type} (a : A) : keeps (ret a).
Proof. intros w Hs. split; [done|]. exists []. by rewrite app_nil_r. Qed.

Lemma keeps_stop {A : Type} : keeps (fun w => Timeout (A := A) w).
Proof. intros w Hs. split; [done|]. exists []. by rewrite app_nil_r. Qed.

Lemma keeps_bind {A B : Type} (m : M A) (k : A -> M B) :
  keeps m -> (forall a, keeps (k a)) -> keeps (bind m k).
Proof.
  intros Hm Hk w Hs. destruct (Hm w Hs) as (Hs1 & tr1 & Ht1 & Hq1).
  unfold bind. destruct (m w) as [a w1|w1|w1|e w1]; simpl in *; try by eauto.
  destruct (Hk a w1 Hs1) as (Hs2 & tr2 & Ht2 & Hq2).
  split; [done|]. exists (tr1 ++ tr2). rewrite Ht2, Ht1, app_assoc.
  split; [done|]. by apply Forall_app.
Qed.

Lemma keeps_lift {A : Type} (r : Res A) : keeps (lift r).
Proof.
  intros w Hs. unfold lift. destruct r; (split; [done|]); exists []; by rewrite app_nil_r.
Qed.

(** An action on the codec or a queue of the gateway that logs [evs]. *)
Lemma keeps_act (f : World -> World) (evs : list Event) :
  (forall w, server_to_client (f w) = server_to_client w
             /\ chats (f w) = chats w /\ model_proc (f w) = model_proc w
             /\ model_events (f w) = model_events w
             /\ events (f w) = events w ++ evs) ->
  Forall (fun e => ~ dequeues_string e) evs ->
  keeps (act f).
Proof.
  intros Hf Hevs w (Hs & Hc & Hp & Hm). destruct (Hf w) as (E1 & E2 & E3 & E4 & E5).
  unfold act. simpl. split; [|by eauto].
  unfold started. by rewrite E1, E2, E3, E4.
Qed.

Ltac quiet_events :=
  repeat constructor; intros [? ?]; discriminate.

Lemma keeps_sleep_get_encoded : keeps sleep_get_encoded.
Proof.
  intros w (Hs & Hc & Hp & Hm). unfold sleep_get_encoded.
  destruct (get_encoded (audio_tokenizer w)) as [data c]. simpl.
  split; [done|]. eexists; split; [reflexivity|]. quiet_events.
Qed.

Lemma keeps_sleep_get_decoded : keeps sleep_get_decoded.
Proof.
  intros w (Hs & Hc & Hp & Hm). unfold sleep_get_decoded.
  destruct (get_decoded (audio_tokenizer w)) as [data c]. simpl.
  split; [done|]. eexists; split; [reflexivity|]. quiet_events.
Qed.

Lemma keeps_poll_encoded (fuel : nat) : keeps (poll_encoded fuel).
Proof.
  induction fuel as [|fuel IH]; simpl; [apply keeps_stop|].
  apply keeps_bind; [apply keeps_sleep_get_encoded|].
  intros [d|]; [apply keeps_ret|exact IH].
Qed.

Lemma keeps_poll_decoded (fuel : nat) : keeps (poll_decoded fuel).
Proof.
  induction fuel as [|fuel IH]; simpl; [apply keeps_stop|].
  apply keeps_bind; [apply keeps_sleep_get_decoded|].
  intros [d|]; [apply keeps_ret|exact IH].
Qed.

Lemma serve_no_string (gen : LmGen) (l : list TokenFrame) :
  Forall (fun e => ~ puts_string e) (snd (fst (ModelServer.serve gen l))).
Proof.
  revert gen. induction l as [|d l IH]; intros gen; simpl; [constructor|].
  destruct (ModelServer.iteration gen d) as [[g t] a].
  specialize (IH g). destruct (ModelServer.serve g l) as [[g1 e1] o1]. simpl in *.
  unfold ModelServer.iteration_events. simpl.
  constructor; [intros [? ?]; discriminate|].
  apply Forall_app. split; [|done]. apply Forall_app. split.
  - unfold ModelServer.text_events.
    destruct (negb _); repeat constructor; intros [? ?]; discriminate.
  - destruct a; simpl; repeat constructor; intros [? ?]; discriminate.
Qed.

Lemma model_trace_ok_app (evs more : list Event) :
  model_trace_ok evs -> Forall (fun e => ~ puts_string e) more ->
  model_trace_ok (evs ++ more).
Proof.
  intros (pre & post & -> & Hw & Hl & Hpre & Hpost) Hmore.
  exists pre, (post ++ more). rewrite <- app_assoc. simpl.
  repeat split; try done. by apply Forall_app.
Qed.

Lemma run_started (w : World) :
  started w ->
  started (ModelServer.run w)
  /\ events (ModelServer.run w) = events w.
Proof.
  intros (Hs & Hc & [gen Hp] & Hm). unfold ModelServer.run. rewrite Hp.
  pose proof (serve_no_string gen (client_to_server w)) as Hev.
  pose proof (emitted_tokens gen (client_to_server w)) as Hout. unfold emitted in Hout.
  destruct (ModelServer.serve gen (client_to_server w)) as [[g evs] out]. simpl in *.
  split; [|done]. unfold started. simpl. split; [by apply Forall_app|].
  split; [done|]. split; [by eauto|]. by apply model_trace_ok_app.
Qed.

Lemma keeps_s2c_get : keeps s2c_get.
Proof.
  intros w Hs. destruct (run_started w Hs) as [(Hs1 & Hc1 & Hp1 & Hm1) He]. unfold s2c_get.
  destruct (server_to_client (ModelServer.run w)) as [|m rest] eqn:Hq; simpl.
  - split; [by rewrite <- Hq in Hs1|]. exists []. by rewrite app_nil_r.
  - inversion Hs1 as [|? ? Hm Hrest]; subst.
    split; [done|]. rewrite He. eexists; split; [reflexivity|].
    constructor; [|constructor]. intros [s Heq]. inversion Heq; subst. done.
Qed.

Lemma keeps_warmup_round (fuel i : nat) : keeps (warmup_round fuel i).
Proof.
  unfold warmup_round.
  apply keeps_bind; [apply (keeps_act _ [EvEncode zero_frame]); [done|quiet_events]|].
  intros _. apply keeps_bind; [apply keeps_poll_encoded|].
  intros d. apply keeps_bind; [apply (keeps_act _ [EvPutC2S d]); [done|quiet_events]|].
  intros _. destruct (Nat.eqb i 0); [apply keeps_ret|].
  apply keeps_bind; [apply keeps_s2c_get|].
  intros m. apply keeps_bind; [apply keeps_lift|].
  intros t. apply keeps_bind; [apply (keeps_act _ [EvDecode t]); [done|quiet_events]|].
  intros _. apply keeps_bind; [apply keeps_poll_decoded|].
  intros _. apply keeps_ret.
Qed.

Lemma keeps_for_each (l : list nat) (body : nat -> M unit) :
  (forall i, keeps (body i)) -> keeps (for_each l body).
Proof.
  intros Hb. induction l as [|i l IH]; simpl; [apply keeps_ret|].
  apply keeps_bind; [apply Hb|]. intros _. exact IH.
Qed.

Lemma keeps_full_warmup (fuel : nat) : keeps (full_warmup fuel).
Proof. apply keeps_for_each. intros i. apply keeps_warmup_round. Qed.

Lemma keeps_emit (evs : list Event) :
  Forall (fun e => ~ dequeues_string e) evs -> keeps (act (emit evs)).
Proof. intros Hevs. by apply (keeps_act _ evs). Qed.

Lemma keeps_go (args : Args) : keeps (go args).
Proof.
  unfold go. apply keeps_bind.
  - unfold static_path_of. destruct (static args) as [s|].
    + destruct (String.eqb s "none"); apply keeps_ret.
    + apply keeps_bind; [apply keeps_emit; quiet_events|].
      intros _. apply keeps_bind; [apply keeps_lift|]. intros p. apply keeps_ret.
  - intros p. apply keeps_bind.
    + destruct p; [apply keeps_emit; quiet_events|apply keeps_ret].
    + intros _. apply keeps_emit. quiet_events.
Qed.

Lemma boot_cases (args : Args) :
  (exists e, ModelServer.boot args = (Dead e, [], []))
  \/ (exists gen evs, ModelServer.boot args = (Serving gen, evs, [MStr "start"])
                      /\ model_trace_ok evs).
Proof.
  unfold ModelServer.boot.
  destruct (ModelServer.model_file_of args) as [mf|e]; [|by left; eauto].
  destruct (ModelServer.tokenizer_file_of args) as [tf|e]; [|by left; eauto].
  right. eexists _, _. split; [reflexivity|].
  eexists ([_; _; _] ++ ModelServer.quantize_events args ++ [_; _; _; _; _]), [_].
  split; [by rewrite <- !app_assoc|].
  split; [rewrite !elem_of_app, !elem_of_cons; auto 10|].
  split; [eexists; rewrite !elem_of_app, !elem_of_cons; right; right; right; left;
          reflexivity|].
  split; [|quiet_events].
  apply Forall_app. split; [quiet_events|]. apply Forall_app. split; [|quiet_events].
  unfold ModelServer.quantize_events. destruct (quantized args); quiet_events.
Qed.

Lemma web_server_unfold (fuel : nat) (args : Args) (w : World) :
  web_server fuel args w
  = match mimi_file_of args with
    | Err e => Raised e w
    | Ok mimi_file =>
        match s2c_get (emit [EvNewTokenizer mimi_file] w) with
        | Done start w1 =>
            (act (emit [EvLog "info" ("[CLIENT] received '" +:+ fmt_msg start
                                      +:+ "' from server, starting...")]) ;;;
             full_warmup fuel ;;; go args) w1
        | Blocked w1 => Blocked w1
        | Timeout w1 => Timeout w1
        | Raised e w1 => Raised e w1
        end
    end.
Proof.
  unfold web_server, bind, lift, act. by destruct (mimi_file_of args).
Qed.

(** The first [server_to_client.get()] of the gateway. *)
Lemma first_get (args : Args) (lags : list nat) (evs0 : list Event) :
  (exists w1, s2c_get (emit evs0 (main args lags)) = Blocked w1
              /\ events w1 = evs0 /\ model_events w1 = [] /\ chats w1 = [])
  \/ (exists w1, s2c_get (emit evs0 (main args lags)) = Done (MStr "start") w1
                 /\ events w1 = evs0 ++ [EvGetS2C (MStr "start")] /\ started w1).
Proof.
  unfold s2c_get, ModelServer.run.
  change (model_proc (emit evs0 (main args lags))) with (NotStarted args).
  destruct (boot_cases args) as [[e ->]|(gen & evs & -> & Hok)]; simpl.
  - left. eexists. split; [reflexivity|]. by repeat split.
  - right. eexists. split; [reflexivity|]. split; [done|].
    unfold started. simpl. split; [constructor|]. split; [done|].
    split; [by eauto|]. by rewrite app_nil_r.
Qed.

(** C10: however the start of [web_server] ends, no chat exists at its
    end, and its trace is empty, or only the construction of the tokenizer
    (the model process never started to serve), or the construction of the
    tokenizer followed by the dequeue of the string "start" and by events
    that dequeue no other string; in the last case the model process has put
    "start" once, after it loaded its weights and warmed the model up, and
    no other string.  Hence every codec operation and the opening of the
    port come after the dequeue of "start". *)
Theorem gateway_waits_for_start (fuel : nat) (args : Args) (lags : list nat) :
  let w := final (web_server fuel args (main args lags)) in
  chats w = []
  /\ (events w = [] /\ model_events w = []
      \/ (exists f, events w = [EvNewTokenizer f]) /\ model_events w = []
      \/ (exists f rest,
            events w = EvNewTokenizer f :: EvGetS2C (MStr "start") :: rest
            /\ Forall (fun e => ~ dequeues_string e) rest)
         /\ model_trace_ok (model_events w))
  /\ (forall pre e post,
        events w = pre ++ e :: post -> gateway_works e ->
        EvGetS2C (MStr "start") ∈ pre).
Proof.
  intros w.
  assert (Hshape : chats w = []
    /\ (events w = [] /\ model_events w = []
      \/ (exists f, events w = [EvNewTokenizer f]) /\ model_events w = []
      \/ (exists f rest,
            events w = EvNewTokenizer f :: EvGetS2C (MStr "start") :: rest
            /\ Forall (fun e => ~ dequeues_string e) rest)
         /\ model_trace_ok (model_events w))).
  { subst w. rewrite web_server_unfold.
    destruct (mimi_file_of args) as [mf|e]; simpl; [|by auto].
    destruct (first_get args lags [EvNewTokenizer mf])
      as [(w1 & -> & He & Hm & Hc)|(w1 & -> & He & Hs)]; simpl.
    { split; [done|]. right. left. split; [by eexists|done]. }
    match goal with |- context [bind ?m ?k w1] =>
      assert (Hk : keeps (bind m k)); [|destruct (Hk w1 Hs) as (Hs' & tr & Htr & Hq)]
    end.
    - apply keeps_bind; [apply keeps_emit; quiet_events|].
      intros _. apply keeps_bind; [apply keeps_full_warmup|].
      intros _. apply keeps_go.
    - destruct Hs' as (_ & Hc & _ & Hm). split; [done|]. right. right.
      split; [|done]. rewrite Htr, He. simpl. eauto. }
  split; [apply Hshape|]. split; [apply Hshape|].
  intros pre e post Hev Hwork.
  destruct Hshape as (_ & [[He _]|[[(f & He) _]|[(f & rest & He & _) _]]]);
    rewrite He in Hev.
  - by destruct pre.
  - destruct pre as [|x [|y pre]]; inversion Hev; subst; try done.
  - destruct pre as [|x [|y pre]]; inversion Hev; subst; try done.
    rewrite !elem_of_cons. auto.
Qed.

End StartProofs.

(** ** The theorems above at sample inputs *)

Lemma warmup_is_four_priming_rounds_witness :
  exists w' t1 t2 t3 k0 k1 k2 k3 j1 j2 j3,
    full_warmup 5 delayed_ready = Done tt w'
    /\ events w'
       = events delayed_ready
         ++ priming_round k0 None
         ++ priming_round k1 (Some (t1, j1))
         ++ priming_round k2 (Some (t2, j2))
         ++ priming_round k3 (Some (t3, j3)).
Proof.
  apply (warmup_is_four_priming_rounds (H := delayed) 5 delayed_ready [1; 2; 0; 3]
           (0, [false; true; true; true], None)).
  - lia.
  - repeat constructor; lia.
  - reflexivity.
  - reflexivity.
  - reflexivity.
  - reflexivity.
  - vm_compute. lia.
  - vm_compute. lia.
  - vm_compute. lia.
Defined.

Lemma bad_messages_are_logged_and_dropped_witness :
  exists level text,
    (level = "error" \/ level = "warning")
    /\ HandleChat.recv_loop (H := delayed)
         (HandleChat.with_inbox [{| type := TEXT; data := PyStr "hello" |}]
                                HandleChat.accepted)
       = (HandleChat.with_inbox [] HandleChat.accepted, [EvLog level text], None).
Proof.
  destruct (bad_messages_are_logged_and_dropped (H := delayed) HandleChat.accepted
              {| type := TEXT; data := PyStr "hello" |} [])
    as [(level & text & Hl & _ & Hloop) _].
  - discriminate.
  - reflexivity.
  - left. discriminate.
  - exists level, text. split; [exact Hl|exact Hloop].
Defined.

Lemma text_token_is_only_logged_witness :
  model_proc (ModelServer.turn delayed_serving)
  = Serving (H := delayed) (1, [true; true; true], None)
  /\ client_to_server (ModelServer.turn delayed_serving) = []
  /\ server_to_client (ModelServer.turn delayed_serving) = [].
Proof.
  destruct (text_token_is_only_logged (H := delayed) delayed_serving
              (0, [false; true; true; true], None) (1920%nat : @TokenFrame delayed) [])
    as (_ & _ & _ & Hp & Hc & Hs & _).
  - reflexivity.
  - reflexivity.
  - split; [exact Hp|]. split; [exact Hc|exact Hs].
Defined.

(** ** The model process: running until it blocks is taking turns *)

(** The blocking [get] of the gateway lets the model process run until it
    blocks ([ModelServer.run]); in the event loop the process takes one turn
    at a time.  The two agree. *)

Section ModelRuns.
Context `{Externals}.

Lemma turn_serves (l : list TokenFrame) : forall (w : World) (gen : LmGen),
  model_proc w = Serving gen -> client_to_server w = l ->
  Nat.iter (length l) ModelServer.turn w
  = (let '(gen', evs, out) := ModelServer.serve gen l in
     with_c2s []
       (with_s2c (server_to_client w ++ out)
          (with_model (Serving gen') (model_events w ++ evs) w))).
Proof.
  induction l as [|data l IH]; intros w gen Hp Hq.
  - simpl. world_eq; rewrite ?app_nil_r; congruence.
  - change (length (data :: l)) with (S (length l)). rewrite Nat.iter_succ_r.
    unfold ModelServer.turn at 2. rewrite Hp, Hq. simpl.
    destruct (ModelServer.iteration gen data) as [[g t] a] eqn:Hit.
    erewrite IH; [|reflexivity|reflexivity].
    destruct (ModelServer.serve g l) as [[g' evs] out].
    world_eq.
Qed.

Lemma turns_dead (n : nat) (w : World) (e : string) :
  model_proc w = Dead e -> Nat.iter n ModelServer.turn w = w.
Proof.
  intros Hp. induction n as [|n IH]; simpl; [done|].
  rewrite IH. unfold ModelServer.turn. by rewrite Hp.
Qed.

(** [run] is the process taking turns until it blocks. *)
Lemma run_is_turns (w : World) :
  ModelServer.run w
  = Nat.iter (S (length (client_to_server w))) ModelServer.turn w
  /\ ModelServer.turn (ModelServer.run w) = ModelServer.run w.
Proof.
  unfold ModelServer.run. destruct (model_proc w) as [args|gen|e] eqn:Hp.
  - rewrite Nat.iter_succ_r. unfold ModelServer.turn at 2. rewrite Hp.
    destruct (ModelServer.boot args) as [[[a|g|e] evs0] out0] eqn:Hb.
    + exfalso. unfold ModelServer.boot in Hb.
      destruct (ModelServer.model_file_of args); [|discriminate].
      destruct (ModelServer.tokenizer_file_of args); discriminate.
    + erewrite turn_serves; [|reflexivity|reflexivity].
      destruct (ModelServer.serve g (client_to_server w)) as [[g' evs] out].
      split; [world_eq|reflexivity].
    + assert (Hout : out0 = []).
      { unfold ModelServer.boot in Hb.
        destruct (ModelServer.model_file_of args); [|by inversion Hb].
        destruct (ModelServer.tokenizer_file_of args); by inversion Hb. }
      subst out0. split; [|reflexivity].
      rewrite turns_dead with (e := e) by reflexivity. world_eq. by rewrite app_nil_r.
  - simpl. rewrite (turn_serves _ w gen Hp eq_refl).
    destruct (ModelServer.serve gen (client_to_server w)) as [[g' evs] out].
    split; reflexivity.
  - rewrite (turns_dead _ _ e Hp). split.
    + world_eq; rewrite ?app_nil_r; congruence.
    + unfold ModelServer.turn. reflexivity.
Qed.

End ModelRuns.

(** ** Invariants of the start-up *)

(** Whatever the primitive operations of the start-up keep, the whole
    start-up keeps, however it ends. *)
Section StartupInvariants.
Context `{Externals}.
Variable inv : World -> Prop.
Variable ok : Event -> Prop.

Lemma always_ret {A : Type} (a : A) : always inv ok (ret a).
Proof. intros w Hs. split; [done|]. exists []. by rewrite app_nil_r. Qed.

Lemma always_stop {A : Type} : always inv ok (fun w => Timeout (A := A) w).
Proof. intros w Hs. split; [done|]. exists []. by rewrite app_nil_r. Qed.

Lemma always_bind {A B : Type} (m : M A) (k : A -> M B) :
  always inv ok m -> (forall a, always inv ok (k a)) -> always inv ok (bind m k).
Proof.
  intros Hm Hk w Hs. destruct (Hm w Hs) as (Hs1 & tr1 & Ht1 & Hq1).
  unfold bind. destruct (m w) as [a w1|w1|w1|e w1]; simpl in *; try by eauto.
  destruct (Hk a w1 Hs1) as (Hs2 & tr2 & Ht2 & Hq2).
  split; [done|]. exists (tr1 ++ tr2). rewrite Ht2, Ht1, app_assoc.
  split; [done|]. by apply Forall_app.
Qed.

Lemma always_lift {A : Type} (r : Res A) : always inv ok (lift r).
Proof.
  intros w Hs. unfold lift. destruct r; (split; [done|]); exists []; by rewrite app_nil_r.
Qed.

Hypothesis Hencode : always inv ok (do_encode zero_frame).
Hypothesis Hget_encoded : always inv ok sleep_get_encoded.
Hypothesis Hput : forall d, always inv ok (c2s_put_nowait d).
Hypothesis Hget : always inv ok s2c_get.
Hypothesis Hdecode : forall t, always inv ok (do_decode t).
Hypothesis Hget_decoded : always inv ok sleep_get_decoded.
Hypothesis Hemit : forall evs, Forall announces evs -> always inv ok (act (emit evs)).

Lemma always_poll_encoded (fuel : nat) : always inv ok (poll_encoded fuel).
Proof.
  induction fuel as [|fuel IH]; simpl; [apply always_stop|].
  apply always_bind; [apply Hget_encoded|].
  intros [d|]; [apply always_ret|exact IH].
Qed.

Lemma always_poll_decoded (fuel : nat) : always inv ok (poll_decoded fuel).
Proof.
  induction fuel as [|fuel IH]; simpl; [apply always_stop|].
  apply always_bind; [apply Hget_decoded|].
  intros [d|]; [apply always_ret|exact IH].
Qed.

Lemma always_warmup_round (fuel i : nat) : always inv ok (warmup_round fuel i).
Proof.
  unfold warmup_round.
  apply always_bind; [apply Hencode|].
  intros _. apply always_bind; [apply always_poll_encoded|].
  intros d. apply always_bind; [apply Hput|].
  intros _. destruct (Nat.eqb i 0); [apply always_ret|].
  apply always_bind; [apply Hget|].
  intros m. apply always_bind; [apply always_lift|].
  intros t. apply always_bind; [apply Hdecode|].
  intros _. apply always_bind; [apply always_poll_decoded|].
  intros _. apply always_ret.
Qed.

Lemma always_for_each (l : list nat) (body : nat -> M unit) :
  (forall i, always inv ok (body i)) -> always inv ok (for_each l body).
Proof.
  intros Hb. induction l as [|i l IH]; simpl; [apply always_ret|].
  apply always_bind; [apply Hb|]. intros _. exact IH.
Qed.

Lemma always_go (args : Args) : always inv ok (go args).
Proof.
  unfold go. apply always_bind.
  - unfold static_path_of. destruct (static args) as [s|].
    + destruct (String.eqb s "none"); apply always_ret.
    + apply always_bind; [apply Hemit; by repeat constructor|].
      intros _. apply always_bind; [apply always_lift|]. intros p. apply always_ret.
  - intros p. apply always_bind.
    + destruct p; [apply Hemit; by repeat constructor|apply always_ret].
    + intros _. apply Hemit. by repeat constructor.
Qed.

Lemma always_web_server (fuel : nat) (args : Args) : always inv ok (web_server fuel args).
Proof.
  unfold web_server.
  apply always_bind; [apply always_lift|].
  intros f. apply always_bind; [apply Hemit; by repeat constructor|].
  intros _. apply always_bind; [apply Hget|].
  intros m. apply always_bind; [apply Hemit; by repeat constructor|].
  intros _. apply always_bind; [apply always_for_each; intros i; apply always_warmup_round|].
  intros _. apply always_go.
Qed.

End StartupInvariants.

(** ** What every run calls [log] and [encode] with *)

Section CallArguments.
Context `{Externals}.
Import HandleChat.

Lemma zero_frame_length : length zero_frame = 1920.
Proof. unfold zero_frame. apply repeat_length. Qed.

Opaque zero_frame.

Lemma fine_log (level msg : string) :
  level = "info" \/ level = "warning" \/ level = "error" -> fine (EvLog level msg).
Proof.
  intros [-> | [-> | ->]]; split; simpl; try done; unfold log; simpl; eauto.
Qed.

Ltac fine_events :=
  repeat constructor;
  try (apply fine_log; auto);
  try (split; simpl; done).

Lemma tidy_act (f : World -> World) (evs : list Event) :
  (forall w, input_queue (f w) = input_queue w
             /\ model_events (f w) = model_events w
             /\ events (f w) = events w ++ evs) ->
  Forall fine evs ->
  always tidy fine (act f).
Proof.
  intros Hf Hevs w (Hq & Hm). destruct (Hf w) as (E1 & E2 & E3).
  unfold act. simpl. split; [|by eauto]. unfold tidy. by rewrite E1, E2.
Qed.


Lemma tidy_sleep_get_encoded : always tidy fine sleep_get_encoded.
Proof.
  intros w Hs. unfold sleep_get_encoded.
  destruct (get_encoded (audio_tokenizer w)) as [data c]. simpl.
  split; [done|]. eexists; split; [reflexivity|]. fine_events.
Qed.

Lemma tidy_sleep_get_decoded : always tidy fine sleep_get_decoded.
Proof.
  intros w Hs. unfold sleep_get_decoded.
  destruct (get_decoded (audio_tokenizer w)) as [data c]. simpl.
  split; [done|]. eexists; split; [reflexivity|]. fine_events.
Qed.

Lemma text_events_fine (t : Z) : Forall fine (ModelServer.text_events t).
Proof. unfold ModelServer.text_events. destruct (negb _); fine_events. Qed.

Lemma iteration_events_fine (d : TokenFrame) (t : Z) (a : option TokenFrame) :
  Forall fine (ModelServer.iteration_events d t a).
Proof.
  unfold ModelServer.iteration_events. constructor; [by split|].
  apply Forall_app. split; [apply text_events_fine|].
  destruct a; simpl; fine_events.
Qed.

Lemma serve_fine (gen : LmGen) (l : list TokenFrame) :
  Forall fine (snd (fst (ModelServer.serve gen l))).
Proof.
  revert gen. induction l as [|d l IH]; intros gen; simpl; [constructor|].
  destruct (ModelServer.iteration gen d) as [[g t] a].
  specialize (IH g). destruct (ModelServer.serve g l) as [[g1 e1] o1]. simpl in *.
  change (Forall fine (ModelServer.iteration_events d t a ++ e1)).
  apply Forall_app. split; [apply iteration_events_fine|done].
Qed.

Lemma boot_fine (args : Args) : Forall fine (snd (fst (ModelServer.boot args))).
Proof.
  unfold ModelServer.boot.
  destruct (ModelServer.model_file_of args) as [mf|e]; [|constructor].
  destruct (ModelServer.tokenizer_file_of args) as [tf|e]; [|constructor]. simpl.
  constructor; [apply fine_log; auto|]. constructor; [by split|].
  constructor; [by split|]. apply Forall_app. split.
  - unfold ModelServer.quantize_events. destruct (quantized args); fine_events.
  - fine_events.
Qed.

Lemma model_run_fine (w : World) :
  Forall fine (model_events w) ->
  Forall fine (model_events (ModelServer.run w))
  /\ events (ModelServer.run w) = events w
  /\ input_queue (ModelServer.run w) = input_queue w.
Proof.
  intros Hm. unfold ModelServer.run.
  pose proof (boot_fine) as Hb.
  destruct (model_proc w) as [args|gen|e].
  - specialize (Hb args). destruct (ModelServer.boot args) as [[[a|g|e] evs0] out0]; simpl in *.
    + split; [by apply Forall_app|done].
    + pose proof (serve_fine g (client_to_server w)) as Hs.
      destruct (ModelServer.serve g (client_to_server w)) as [[g' evs] out]. simpl in *.
      split; [|done]. apply Forall_app. split; [done|]. by apply Forall_app.
    + split; [by apply Forall_app|done].
  - pose proof (serve_fine gen (client_to_server w)) as Hs.
    destruct (ModelServer.serve gen (client_to_server w)) as [[g' evs] out]. simpl in *.
    split; [|done]. by apply Forall_app.
  - simpl. split; [|done]. by rewrite app_nil_r.
Qed.

Lemma tidy_s2c_get : always tidy fine s2c_get.
Proof.
  intros w (Hq & Hm). destruct (model_run_fine w Hm) as (Hm1 & He & Hq1). unfold s2c_get.
  destruct (server_to_client (ModelServer.run w)) as [|m rest] eqn:Hs; simpl.
  - split; [split; [congruence|done]|]. exists []. by rewrite app_nil_r.
  - split; [split; simpl; [congruence|done]|]. rewrite He.
    eexists; split; [reflexivity|]. fine_events.
Qed.

Lemma tidy_emit (evs : list Event) :
  Forall announces evs -> always tidy fine (act (emit evs)).
Proof.
  intros Hevs. apply (tidy_act _ evs); [done|].
  eapply Forall_impl; [exact Hevs|]. intros [] He; try done.
  simpl in He. subst. apply fine_log. auto.
Qed.

Lemma tidy_web_server (fuel : nat) (args : Args) : always tidy fine (web_server fuel args).
Proof.
  apply always_web_server.
  - apply (tidy_act _ [EvEncode zero_frame]); [done|].
    constructor; [|constructor]. split; [done|]. apply zero_frame_length.
  - apply tidy_sleep_get_encoded.
  - intros d. apply (tidy_act _ [EvPutC2S d]); [done|fine_events].
  - apply tidy_s2c_get.
  - intros t. apply (tidy_act _ [EvDecode t]); [done|fine_events].
  - apply tidy_sleep_get_decoded.
  - apply tidy_emit.
Qed.

Lemma recv_message_fine (m : WSMessage) (r : OpusStreamReader) :
  Forall fine (logged (recv_message m r)).
Proof.
  unfold recv_message.
  repeat (case_decide; simpl; [fine_events|]).
  destruct (as_bytes (data m)) as [b|]; simpl; [|fine_events].
  destruct (Nat.eqb (length b) 0); simpl; [fine_events|].
  destruct (b !! 0) as [k|]; simpl; [|constructor].
  destruct (Z.eqb (byte_int k) 1); simpl; fine_events.
Qed.

Lemma recv_loop_fine (c : Chat) : Forall fine (snd (fst (recv_loop c))).
Proof.
  unfold recv_loop. destruct (inbox c) as [|m rest]; simpl; [constructor|].
  destruct (stops_iteration (type m)); simpl; [fine_events|].
  pose proof (recv_message_fine m (opus_reader c)) as Hm.
  destruct (flow (recv_message m (opus_reader c))); simpl; [done| |];
    (apply Forall_app; split; [done|fine_events]).
Qed.

Lemma opus_loop_body_sized (c : Chat) (q : list (list sample)) :
  Forall frame_sized q -> Forall frame_sized (snd (opus_loop_body c q)).
Proof.
  intros Hq. unfold opus_loop_body. simpl.
  unfold assemble. destruct (Nat.eqb _ 0); simpl; [done|].
  match goal with |- context [slice_frames ?a q] =>
    destruct (slice_frames_spec a q) as (new & Hn & Hl & _);
    destruct (slice_frames a q) as [rest q'] end.
  simpl in *. subst q'. apply Forall_app. split; [done|exact Hl].
Qed.

Lemma gather_raises_fine (c : Chat) (w : World) :
  input_queue (snd (gather_raises c w)) = input_queue w
  /\ events (snd (gather_raises c w)) = events w
  /\ model_events (snd (gather_raises c w)) = model_events w.
Proof. unfold gather_raises. by destruct (phase c). Qed.

Lemma resume_fine (i : nat) (t : Task) (c : Chat) (w : World) :
  loop_fine w -> loop_fine (resume i t c w).
Proof.
  intros (Hq & He & Hm). unfold resume. destruct t.
  - destruct (opus_pc c); [by repeat split| |by repeat split].
    pose proof (opus_loop_body_sized c (input_queue w) Hq) as Hs.
    destruct (opus_loop_body c (input_queue w)) as [c' q']. by repeat split.
  - pose proof (recv_loop_fine c) as Hr.
    destruct (recv_pc c); [| |by repeat split];
      (destruct (recv_loop c) as [[c' evs] [e|]]; simpl in Hr;
       [pose proof (gather_raises_fine c' (emit evs w)) as (E1 & E2 & E3);
        destruct (gather_raises c' (emit evs w)) as [c2 w2]; simpl in *;
        repeat split; simpl; rewrite ?E1, ?E2, ?E3; try done; by apply Forall_app
       |repeat split; simpl; try done; by apply Forall_app]).
  - by destruct (send_pc c).
  - destruct (another_pc c); [by repeat split| |by repeat split].
    destruct (another_loop_body c (output_queue w)) as [[c'|] q'].
    + by repeat split.
    + match goal with |- context [gather_raises ?a ?b] =>
        pose proof (gather_raises_fine a b) as (E1 & E2 & E3);
        destruct (gather_raises a b) as [c2 w2] end.
      simpl in *. repeat split; simpl; rewrite ?E1, ?E2, ?E3; done.
Qed.

Lemma pump_fine (b : Bridge) (w : World) :
  loop_fine w -> loop_fine (gateway_step (Pump b) w).
Proof.
  intros (Hq & He & Hm). destruct b; simpl.
  - unfold WebServer.send_loop. destruct (input_queue w) as [|pcm rest] eqn:Hi.
    + repeat split; [by rewrite Hi|done|done].
    + inversion Hq; subst. repeat split; simpl; [done| |done].
      apply Forall_app. split; [done|]. constructor; [|constructor]. by split.
  - unfold WebServer.recv_loop.
    destruct (get_decoded (audio_tokenizer w)) as [[d|] c]; repeat split; simpl;
      try done; (apply Forall_app; split; [done|fine_events]).
  - unfold WebServer.send_loop2.
    destruct (get_encoded (audio_tokenizer w)) as [[d|] c]; repeat split; simpl;
      try done; rewrite <- ?app_assoc; (apply Forall_app; split; [done|fine_events]).
  - unfold WebServer.recv_loop2. destruct (server_to_client w) as [|m rest].
    + by repeat split.
    + destruct m as [s|t]; simpl; repeat split; simpl; try done;
        rewrite <- ?app_assoc; (apply Forall_app; split; [done|fine_events]).
Qed.

Lemma gateway_step_fine (a : Action) (w : World) :
  loop_fine w -> loop_fine (gateway_step a w).
Proof.
  intros Hw. destruct a as [|i m|i|i|i t|i|b|]; try (by apply pump_fine); [| | | | | |done].
  - destruct Hw as (Hq & He & Hm). repeat split; simpl; try done.
    apply Forall_app. split; [done|fine_events].
  - simpl. unfold on_chat. destruct (chats w !! i); [|done].
    destruct Hw as (Hq & He & Hm). by repeat split.
  - simpl. unfold on_chat. destruct (chats w !! i) as [c|]; [|done].
    destruct (_ && _); [|done]. destruct Hw as (Hq & He & Hm). by repeat split.
  - simpl. unfold on_chat. destruct (chats w !! i) as [c|]; [|done].
    destruct (bool_decide _); [|done]. destruct Hw as (Hq & He & Hm). by repeat split.
  - simpl. unfold on_chat. destruct (chats w !! i) as [c|]; [|done].
    destruct (loops_started c); [|done]. by apply resume_fine.
  - simpl. unfold on_chat. destruct (chats w !! i) as [c|]; [|done].
    destruct (_ && _); [|done]. destruct Hw as (Hq & He & Hm). repeat split; simpl; try done.
    apply Forall_app. split; [done|fine_events].
Qed.

Lemma turn_fine (w : World) : loop_fine w -> loop_fine (ModelServer.turn w).
Proof.
  intros (Hq & He & Hm). unfold ModelServer.turn.
  destruct (model_proc w) as [args|gen|e]; [| |by repeat split].
  - pose proof (boot_fine args) as Hb.
    destruct (ModelServer.boot args) as [[p evs] out]. simpl in Hb.
    repeat split; simpl; try done. by apply Forall_app.
  - destruct (client_to_server w) as [|d rest]; [by repeat split|].
    destruct (ModelServer.iteration gen d) as [[g t] a].
    repeat split; simpl; try done. apply Forall_app. split; [done|].
    apply iteration_events_fine.
Qed.

Lemma step_fine (a : Action) (w : World) : loop_fine w -> loop_fine (step a w).
Proof.
  intros Hw. unfold step.
  destruct a; try (by apply turn_fine);
    (destruct (fault w); [done|by apply gateway_step_fine]).
Qed.

Lemma run_fine_loop (schedule : list Action) (w : World) :
  loop_fine w -> loop_fine (run schedule w).
Proof.
  revert w. induction schedule as [|a l IH]; intros w Hw; [done|].
  simpl. apply IH. by apply step_fine.
Qed.

Lemma served_fine (fuel : nat) (args : Args) (lags : list nat) (schedule : list Action) :
  loop_fine (run schedule (final (web_server fuel args (main args lags)))).
Proof.
  apply run_fine_loop.
  destruct (tidy_web_server fuel args (main args lags)) as ((Hq & Hm) & tr & Ht & Hf).
  { split; [done|constructor]. }
  repeat split; [by rewrite Hq|by rewrite Ht|done].
Qed.

(** X1: [log] never raises: in every run of the two processes, whatever
    the command line, the codec delays, the clients and the scheduling,
    every call of [log] names a level that [log] knows, so that it prints
    and does not raise [ValueError]. *)
Theorem log_never_raises (fuel : nat) (args : Args) (lags : list nat)
    (schedule : list Action) :
  let w := run schedule (final (web_server fuel args (main args lags))) in
  Forall log_ok (events w) /\ Forall log_ok (model_events w).
Proof.
  intros w. destruct (served_fine fuel args lags schedule) as (_ & He & Hm).
  fold w in He, Hm. split; eapply Forall_impl; eauto; by intros e [Hl _].
Qed.

(** X2: every buffer the gateway hands to [audio_tokenizer.encode], in the
    warmup and in [send_loop] alike, has exactly 1920 samples, whatever the
    clients send and however their audio is cut into messages. *)
Theorem encoder_input_is_one_frame (fuel : nat) (args : Args) (lags : list nat)
    (schedule : list Action) :
  let w := run schedule (final (web_server fuel args (main args lags))) in
  Forall encode_ok (events w).
Proof.
  intros w. destruct (served_fine fuel args lags schedule) as (_ & He & _).
  fold w in He. eapply Forall_impl; eauto; by intros e [_ Hl].
Qed.

End CallArguments.

(** ** How the start-up ends *)

Section StartupOutcomes.
Context `{Externals}.
Opaque zero_frame.

Lemma hf_hub_download_cases (repo : option string) (path : string) :
  (repo = None \/ repo = Some "")
    /\ hf_hub_download repo path
       = Err ("the --hf-repo flag is required to retrieve " +:+ path)
  \/ (exists r, repo = Some r /\ r <> "" /\ hf_hub_download repo path = Ok (hub_path r path)).
Proof.
  unfold hf_hub_download. destruct repo as [r|]; [|by left; auto].
  destruct (String.eqb_spec r "") as [->|Hne]; [by left; auto|].
  right. by exists r.
Qed.





(** X4: when the model process dies at its start and the codec file is
    there, the gateway builds its tokenizer and then blocks for ever in
    [server_to_client.get()]: it raises nothing, never warms up and never
    listens. *)
Theorem gateway_hangs_when_model_dies (fuel : nat) (args : Args) (lags : list nat)
    (mimi_file e : string)
    (Hmimi : mimi_file_of args = Ok mimi_file)
    (Hdead : ModelServer.boot args = (Dead e, [], [])) :
  exists w,
    web_server fuel args (main args lags) = Blocked w
    /\ events w = [EvNewTokenizer mimi_file]
    /\ model_proc w = Dead e /\ model_events w = []
    /\ client_to_server w = [] /\ server_to_client w = [].
Proof.
  rewrite web_server_unfold, Hmimi.
  unfold s2c_get, ModelServer.run. simpl. rewrite Hdead. simpl.
  eexists. split; [reflexivity|]. by repeat split.
Qed.

(** X6: the warmup needs an answer of the model by the second priming
    frame.  With a model that has emitted nothing when it has served two
    frames, the warmup runs its first round, encodes and pushes the second
    frame, and blocks for ever in [server_to_client.get()]; the model has
    taken both frames. *)
Theorem warmup_blocks_without_model_output (fuel : nat) (w : World) (lags : list nat)
    (gen : LmGen)
    (Hfuel : 0 < fuel)
    (Hlags : Forall (fun k => k < fuel) lags)
    (Hidle : audio_tokenizer w = idle lags)
    (Hgen : model_proc w = Serving gen)
    (Hc2s : client_to_server w = [])
    (Hs2c : server_to_client w = [])
    (Hmute : emitted gen (replicate 2 (mimi_encode zero_frame)) = []) :
  exists w' k0 k1,
    full_warmup fuel w = Blocked w'
    /\ events w'
       = events w
         ++ priming_round k0 None
         ++ [EvEncode zero_frame]
         ++ polls EvGetEncoded k1 (mimi_encode zero_frame)
         ++ [EvPutC2S (mimi_encode zero_frame)]
    /\ client_to_server w' = [] /\ server_to_client w' = [].
Proof.
  destruct (lags_head fuel lags Hfuel Hlags) as [L0 Hl1].
  destruct (lags_head fuel (tl lags) Hfuel Hl1) as [L1 _].
  unfold full_warmup. simpl. unfold bind at 1.
  rewrite (first_round fuel w lags Hidle L0).
  unfold bind at 1. unfold warmup_round, bind, do_encode, act.
  erewrite poll_encoded_ready; [|simpl; reflexivity|exact L1].
  simpl. unfold s2c_get, ModelServer.run. simpl. rewrite Hgen, Hc2s. simpl app.
  unfold emitted in Hmute. simpl replicate in *.
  destruct (ModelServer.serve gen [mimi_encode zero_frame; mimi_encode zero_frame])
    as [[g2 e2] o2] eqn:Hserve.
  simpl in Hmute. subst o2. simpl. rewrite Hs2c. simpl.
  eexists _, (hd 0 lags), (hd 0 (tl lags)). split; [reflexivity|].
  split; [|by split]. simpl. unfold priming_round.
  rewrite <- !app_assoc. simpl. by rewrite <- !app_assoc.
Qed.

Lemma polls_no_listen {A : Type} (ev : option A -> Event) (k : nat) (d : A) :
  (forall r, ~ listens (ev r)) -> Forall (fun e => ~ listens e) (polls ev k d).
Proof.
  intros Hev. unfold polls. apply Forall_app. split.
  - apply Forall_concat, Forall_replicate.
    constructor; [simpl; tauto|]. constructor; [apply Hev|constructor].
  - constructor; [simpl; tauto|]. constructor; [apply Hev|constructor].
Qed.

Lemma priming_round_no_listen (k : nat) (reply : option (TokenFrame * nat)) :
  Forall (fun e => ~ listens e) (priming_round k reply).
Proof.
  unfold priming_round.
  apply Forall_app; split; [|apply Forall_app; split; [|apply Forall_app; split]].
  - constructor; [simpl; tauto|constructor].
  - apply polls_no_listen. simpl; tauto.
  - constructor; [simpl; tauto|constructor].
  - destruct reply as [[t j]|]; [|constructor].
    constructor; [simpl; tauto|]. constructor; [simpl; tauto|].
    apply polls_no_listen. simpl; tauto.
Qed.

Opaque priming_round.

(** X5: with the three files named on the command line, no [--static] and
    no repository, the gateway finds out that it cannot fetch the static
    content only after the whole warmup: it takes "start", runs the four
    priming rounds, announces the retrieval and raises the [ValueError] of
    [hf_hub_download]; it has never listened, and the model process is left
    serving. *)
Theorem missing_static_content_is_found_late (fuel : nat) (args : Args) (lags : list nat)
    (mimi_file model_file tokenizer_file : string)
    (Hmimi : mimi_file_of args = Ok mimi_file)
    (Hmodel : ModelServer.model_file_of args = Ok model_file)
    (Htok : ModelServer.tokenizer_file_of args = Ok tokenizer_file)
    (Hstatic : static args = None)
    (Hrepo : repo_missing args)
    (Hfuel : 0 < fuel)
    (Hlags : Forall (fun k => k < fuel) lags)
    (H1 : 1 <= length (emitted (new_gen model_file (quantized args) (steps args + 5)%Z)
                               (replicate 2 (mimi_encode zero_frame))))
    (H2 : 2 <= length (emitted (new_gen model_file (quantized args) (steps args + 5)%Z)
                               (replicate 3 (mimi_encode zero_frame))))
    (H3 : 3 <= length (emitted (new_gen model_file (quantized args) (steps args + 5)%Z)
                               (replicate 4 (mimi_encode zero_frame)))) :
  exists w t1 t2 t3 k0 k1 k2 k3 j1 j2 j3,
    web_server fuel args (main args lags)
    = Raised "the --hf-repo flag is required to retrieve dist.tgz" w
    /\ events w
       = [EvNewTokenizer mimi_file; EvGetS2C (MStr "start");
          EvLog "info" "[CLIENT] received 'start' from server, starting..."]
         ++ priming_round k0 None
         ++ priming_round k1 (Some (t1, j1))
         ++ priming_round k2 (Some (t2, j2))
         ++ priming_round k3 (Some (t3, j3))
         ++ [EvLog "info" "retrieving the static content"]
    /\ Forall (fun e => ~ listens e) (events w)
    /\ exists gen, model_proc w = Serving gen.
Proof.
  assert (Hgo : forall w, go args w
                = Raised "the --hf-repo flag is required to retrieve dist.tgz"
                    (emit [EvLog "info" "retrieving the static content"] w)).
  { intros w. unfold go, static_path_of. rewrite Hstatic.
    destruct (hf_hub_download_cases (hf_repo args) "dist.tgz")
      as [[_ E]|(r & E & Hne & _)].
    - unfold bind, act, lift. by rewrite E.
    - destruct Hrepo as [Hr|Hr]; rewrite Hr in E; congruence. }
  unfold web_server, bind, lift, act. rewrite Hmimi.
  unfold s2c_get, ModelServer.run, ModelServer.boot. simpl.
  rewrite Hmodel, Htok. simpl.
  match goal with |- context [full_warmup fuel ?w0] =>
    destruct (full_warmup_runs fuel w0 lags _ Hfuel Hlags eq_refl eq_refl eq_refl eq_refl
                H1 H2 H3)
      as (gen' & evs & t1 & t2 & t3 & q & k0 & k1 & k2 & k3 & j1 & j2 & j3 & Hserve & Hrun);
    rewrite Hrun
  end.
  rewrite Hgo.
  match goal with |- context [Raised _ ?W = _] => exists W end.
  exists t1, t2, t3, k0, k1, k2, k3, j1, j2, j3. split; [reflexivity|].
  assert (Hev : forall (a b c d e : list Event), (a ++ b ++ c ++ d) ++ e = a ++ b ++ c ++ d ++ e).
  { intros. by rewrite <- !app_assoc. }
  pose proof (priming_round_no_listen k0 None) as N0.
  pose proof (priming_round_no_listen k1 (Some (t1, j1))) as N1.
  pose proof (priming_round_no_listen k2 (Some (t2, j2))) as N2.
  pose proof (priming_round_no_listen k3 (Some (t3, j3))) as N3.
  simpl. rewrite Hev. split; [reflexivity|]. split; [|by eexists].
  do 3 (constructor; [simpl; tauto|]).
  do 4 (apply Forall_app; split; [assumption|]).
  constructor; [simpl; tauto|constructor].
Qed.

Transparent priming_round.

(** X7: what the warmup leaves behind.  When it returns, the gateway has
    taken the first three token frames the model emitted for the four
    priming frames; every further frame of these is still on
    [server_to_client] when the event loop starts.  The codec is idle and
    has used seven of its delays, and [client_to_server] and both PCM queues
    are empty. *)
Theorem warmup_leaves_the_surplus (fuel : nat) (args : Args) (lags : list nat)
    (mimi_file model_file tokenizer_file : string)
    (Hmimi : mimi_file_of args = Ok mimi_file)
    (Hmodel : ModelServer.model_file_of args = Ok model_file)
    (Htok : ModelServer.tokenizer_file_of args = Ok tokenizer_file)
    (Hstatic : static_ok args)
    (Hfuel : 0 < fuel)
    (Hlags : Forall (fun k => k < fuel) lags)
    (H1 : 1 <= length (emitted (new_gen model_file (quantized args) (steps args + 5)%Z)
                               (replicate 2 (mimi_encode zero_frame))))
    (H2 : 2 <= length (emitted (new_gen model_file (quantized args) (steps args + 5)%Z)
                               (replicate 3 (mimi_encode zero_frame))))
    (H3 : 3 <= length (emitted (new_gen model_file (quantized args) (steps args + 5)%Z)
                               (replicate 4 (mimi_encode zero_frame)))) :
  exists w,
    web_server fuel args (main args lags) = Done tt w
    /\ server_to_client w
       = drop 3 (emitted (new_gen model_file (quantized args) (steps args + 5)%Z)
                         (replicate 4 (mimi_encode zero_frame)))
    /\ audio_tokenizer w = idle (drop 7 lags)
    /\ client_to_server w = [] /\ input_queue w = [] /\ output_queue w = [].
Proof.
  destruct (web_server_runs fuel args lags mimi_file model_file tokenizer_file
              Hmimi Hmodel Htok Hstatic Hfuel Hlags H1 H2 H3)
    as (gen' & evs & mevs & q & Hq & Hlen & Hrun).
  eexists. split; [exact Hrun|]. simpl. split; [|done].
  rewrite <- (take_drop 3 (emitted _ _)) in Hq at 1.
  by apply app_inv_head in Hq.
Qed.

End StartupOutcomes.

Lemma gateway_hangs_when_model_dies_witness :
  exists w,
    web_server (H := delayed) 5 five_bit_args (main five_bit_args []) = Blocked w
    /\ events w = [EvNewTokenizer "mimi.safetensors"]
    /\ model_proc w = Dead "Invalid quantized value: 5" /\ model_events w = []
    /\ client_to_server w = [] /\ server_to_client w = [].
Proof.
  apply (gateway_hangs_when_model_dies (H := delayed) 5 five_bit_args []
           "mimi.safetensors" "Invalid quantized value: 5").
  - reflexivity.
  - vm_compute. reflexivity.
Defined.

Lemma warmup_blocks_without_model_output_witness :
  exists w' k0 k1,
    full_warmup 5 mute_ready = Blocked w'
    /\ events w'
       = events mute_ready
         ++ priming_round k0 None
         ++ [EvEncode zero_frame]
         ++ polls EvGetEncoded k1 (mimi_encode zero_frame)
         ++ [EvPutC2S (mimi_encode zero_frame)]
    /\ client_to_server w' = [] /\ server_to_client w' = [].
Proof.
  apply (warmup_blocks_without_model_output (H := mute) 5 mute_ready [1; 2; 0; 3]
           (0, [false; false; false; false], None)).
  - lia.
  - repeat constructor; lia.
  - reflexivity.
  - reflexivity.
  - reflexivity.
  - reflexivity.
  - vm_compute. reflexivity.
Defined.

Lemma missing_static_content_is_found_late_witness :
  exists w t1 t2 t3 k0 k1 k2 k3 j1 j2 j3,
    web_server (H := delayed) 5 local_files_args (main local_files_args [1; 2; 0; 3])
    = Raised "the --hf-repo flag is required to retrieve dist.tgz" w
    /\ events w
       = [EvNewTokenizer "mimi.safetensors"; EvGetS2C (MStr "start");
          EvLog "info" "[CLIENT] received 'start' from server, starting..."]
         ++ priming_round k0 None
         ++ priming_round k1 (Some (t1, j1))
         ++ priming_round k2 (Some (t2, j2))
         ++ priming_round k3 (Some (t3, j3))
         ++ [EvLog "info" "retrieving the static content"]
    /\ Forall (fun e => ~ listens e) (events w)
    /\ exists gen, model_proc w = Serving gen.
Proof.
  apply (missing_static_content_is_found_late (H := delayed) 5 local_files_args
           [1; 2; 0; 3] "mimi.safetensors" "lm.safetensors" "tok.model").
  - reflexivity.
  - reflexivity.
  - reflexivity.
  - reflexivity.
  - right. reflexivity.
  - lia.
  - repeat constructor; lia.
  - vm_compute. lia.
  - vm_compute. lia.
  - vm_compute. lia.
Defined.

Lemma warmup_leaves_the_surplus_witness :
  exists w,
    web_server (H := eager) 5 Toy.toy_args (main Toy.toy_args [1; 2; 0; 3]) = Done tt w
    /\ server_to_client w
       = drop 3 (emitted (H := eager)
                   (new_gen (Externals := eager) "lm.safetensors" None (2500 + 5)%Z)
                   (replicate 4 (mimi_encode (Externals := eager) zero_frame)))
    /\ audio_tokenizer w = idle (drop 7 [1; 2; 0; 3])
    /\ client_to_server w = [] /\ input_queue w = [] /\ output_queue w = [].
Proof.
  apply (warmup_leaves_the_surplus (H := eager) 5 Toy.toy_args [1; 2; 0; 3]
           "mimi.safetensors" "lm.safetensors" "tok.model").
  - reflexivity.
  - reflexivity.
  - reflexivity.
  - intros Hs. discriminate Hs.
  - lia.
  - repeat constructor; lia.
  - vm_compute. lia.
  - vm_compute. lia.
  - vm_compute. lia.
Defined.

(** ** From the start-up into the event loop *)

Section IntoTheEventLoop.
Context `{Externals}.
Opaque zero_frame.
Import HandleChat.




Lemma started_after_start_up (fuel : nat) (args : Args) (lags : list nat) :
  is_done (web_server fuel args (main args lags)) = true ->
  started (final (web_server fuel args (main args lags)))
  /\ fault (final (web_server fuel args (main args lags))) = None.
Proof.
  intros Hd. split.
  - revert Hd. rewrite web_server_unfold.
    destruct (mimi_file_of args) as [mf|e]; [|done].
    destruct (first_get args lags [EvNewTokenizer mf])
      as [(w1 & -> & _)|(w1 & -> & He & Hs)]; [done|].
    intros _.
    match goal with |- started (final (?m w1)) =>
      assert (Hk : keeps m) end.
    { apply keeps_bind; [apply keeps_emit|].
      - constructor; [|constructor]. intros [s Hs']. discriminate.
      - intros _. apply keeps_bind; [apply keeps_full_warmup|].
        intros _. apply keeps_go. }
    by destruct (Hk w1 Hs).
  - clear Hd.
    assert (Hf : always (fun w => fault w = None) (fun _ => True) (web_server fuel args)).
    { assert (Hact : forall f : World -> World,
                (forall w, fault (f w) = fault w) ->
                (forall w, exists evs, events (f w) = events w ++ evs) ->
                always (fun w => fault w = None) (fun _ => True) (act f)).
      { intros f Hff Hev w Hw. unfold act. simpl. split; [by rewrite Hff|].
        destruct (Hev w) as [evs E]. exists evs. split; [done|]. by apply Forall_forall. }
      apply always_web_server.
      - apply Hact; [done|]. intros w. by eexists.
      - intros w Hw. unfold sleep_get_encoded.
        destruct (get_encoded (audio_tokenizer w)) as [data c]. simpl. split; [done|].
        eexists. split; [reflexivity|]. by apply Forall_forall.
      - intros d. apply Hact; [done|]. intros w. by eexists.
      - intros w Hw. unfold s2c_get.
        assert (Hrun : fault (ModelServer.run w) = fault w
                       /\ events (ModelServer.run w) = events w).
        { unfold ModelServer.run.
          destruct (match model_proc w with
                    | NotStarted a => ModelServer.boot a
                    | p => (p, [], [])
                    end) as [[[a|g|e] evs0] out0]; try done.
          by destruct (ModelServer.serve g (client_to_server w)) as [[g' evs] out]. }
        destruct Hrun as [E1 E2].
        destruct (server_to_client (ModelServer.run w)) as [|m rest]; simpl.
        + split; [congruence|]. exists []. rewrite app_nil_r. split; [done|constructor].
        + split; [congruence|]. rewrite E2. eexists. split; [reflexivity|].
          by apply Forall_forall.
      - intros t. apply Hact; [done|]. intros w. by eexists.
      - intros w Hw. unfold sleep_get_decoded.
        destruct (get_decoded (audio_tokenizer w)) as [data c]. simpl. split; [done|].
        eexists. split; [reflexivity|]. by apply Forall_forall.
      - intros evs _. apply Hact; [done|]. intros w. by eexists. }
    by destruct (Hf (main args lags) eq_refl).
Qed.

Lemma serving_turn (w : World) : serving w -> serving (ModelServer.turn w).
Proof.
  intros (Hs & [gen Hp] & Hf). unfold ModelServer.turn. rewrite Hp.
  destruct (client_to_server w) as [|d rest]; [by repeat split; eauto|].
  destruct (ModelServer.iteration gen d) as [[g t] a].
  split; [|split; [by eexists|done]]. simpl.
  apply Forall_app. split; [done|apply audio_put_tokens].
Qed.

Lemma serving_same (w w' : World) :
  serving w -> server_to_client w' = server_to_client w ->
  model_proc w' = model_proc w -> fault w' = fault w -> serving w'.
Proof. unfold serving. by intros (? & ? & ?) -> -> ->. Qed.

Lemma gather_raises_serving (c : Chat) (w : World) :
  server_to_client (snd (gather_raises c w)) = server_to_client w
  /\ model_proc (snd (gather_raises c w)) = model_proc w
  /\ fault (snd (gather_raises c w)) = fault w.
Proof. unfold gather_raises. by destruct (phase c). Qed.

Lemma serving_resume (i : nat) (t : Task) (c : Chat) (w : World) :
  serving w -> serving (resume i t c w).
Proof.
  intros Hw. unfold resume. destruct t.
  - destruct (opus_pc c); [by apply (serving_same w)| |done].
    destruct (opus_loop_body c (input_queue w)) as [c' q']. by apply (serving_same w).
  - destruct (recv_pc c); [| |done];
      (destruct (recv_loop c) as [[c' evs] [e|]];
       [pose proof (gather_raises_serving c' (emit evs w)) as (E1 & E2 & E3);
        destruct (gather_raises c' (emit evs w)) as [c2 w2]; simpl in *;
        by apply (serving_same w)
       |by apply (serving_same w)]).
  - destruct (send_pc c); [by apply (serving_same w)|by apply (serving_same w)|done].
  - destruct (another_pc c); [by apply (serving_same w)| |done].
    destruct (another_loop_body c (output_queue w)) as [[c'|] q'].
    + by apply (serving_same w).
    + match goal with |- context [gather_raises ?a ?b] =>
        pose proof (gather_raises_serving a b) as (E1 & E2 & E3);
        destruct (gather_raises a b) as [c2 w2] end.
      simpl in *. by apply (serving_same w).
Qed.

Lemma serving_gateway_step (a : Action) (w : World) :
  serving w -> serving (gateway_step a w).
Proof.
  intros Hw. destruct a as [|i m|i|i|i t|i|b|]; simpl; try done;
    try (unfold on_chat; destruct (chats w !! i) as [c|]; [|done]).
  all: try done.
  all: try (destruct (loops_started c); [by apply serving_resume|done]).
  all: try (destruct (_ && _); done).
  all: try (destruct (bool_decide _); done).
  - destruct b.
    + unfold WebServer.send_loop. destruct (input_queue w); [done|].
      by apply (serving_same w).
    + unfold WebServer.recv_loop.
      destruct (get_decoded (audio_tokenizer w)) as [[d|] c]; by apply (serving_same w).
    + unfold WebServer.send_loop2.
      destruct (get_encoded (audio_tokenizer w)) as [[d|] c]; by apply (serving_same w).
    + unfold WebServer.recv_loop2. pose proof Hw as (Hs & Hp & Hf).
      destruct (server_to_client w) as [|m rest] eqn:E; [done|].
      inversion Hs as [|? ? Hm Hrest]; subst. destruct m as [s|t]; [done|]. simpl.
      by repeat split.
Qed.

Lemma serving_step (a : Action) (w : World) : serving w -> serving (step a w).
Proof.
  intros Hw. unfold step.
  destruct a; try (by apply serving_turn);
    (destruct (fault w); [done|by apply serving_gateway_step]).
Qed.

Lemma serving_run (schedule : list Action) (w : World) :
  serving w -> serving (run schedule w).
Proof.
  revert w. induction schedule as [|a l IH]; intros w Hw; [done|].
  simpl. apply IH. by apply serving_step.
Qed.

(** X9: once the start of [web_server] has returned, no exception ends the
    event loop: whatever the clients and the scheduling do, [recv_loop2]
    only ever takes token frames from [server_to_client] (the one string,
    "start", was taken before the warmup), so [decode] is never handed a
    string; and the model process keeps serving. *)
Theorem event_loop_never_faults (fuel : nat) (args : Args) (lags : list nat)
    (schedule : list Action)
    (Hdone : is_done (web_server fuel args (main args lags)) = true) :
  let w := run schedule (final (web_server fuel args (main args lags))) in
  fault w = None
  /\ Forall is_tokens (server_to_client w)
  /\ exists gen, model_proc w = Serving gen.
Proof.
  intros w.
  destruct (started_after_start_up fuel args lags Hdone) as [(Hs & _ & Hp & _) Hf].
  destruct (serving_run schedule _ (conj Hs (conj Hp Hf))) as (? & ? & ?). done.
Qed.

End IntoTheEventLoop.

Lemma event_loop_never_faults_witness :
  let w := run two_clients
             (final (web_server (H := delayed) 5 Toy.toy_args (main Toy.toy_args [1; 2; 0; 3]))) in
  fault w = None
  /\ Forall is_tokens (server_to_client w)
  /\ exists gen, model_proc w = Serving gen.
Proof.
  apply (event_loop_never_faults (H := delayed) 5 Toy.toy_args [1; 2; 0; 3] two_clients).
  vm_compute. reflexivity.
Defined.

(** ** The audio path keeps the order *)

Section AudioPathOrder.
Context `{Externals}.
Opaque zero_frame.
Import HandleChat.

Ltac traces :=
  unfold in_order, encoded, put_c2s, got_c2s, put_s2c, got_s2c, decoded, got_decoded in *;
  simpl in *; rewrite ?flat_map_app, ?map_app in *; simpl in *;
  rewrite ?app_nil_r in *.

Lemma get_encoded_order (c : StreamTokenizer) :
  map snd (encoding c)
  = match fst (get_encoded c) with Some d => [d] | None => [] end
    ++ map snd (encoding (snd (get_encoded c)))
  /\ decoding (snd (get_encoded c)) = decoding c.
Proof. unfold get_encoded. destruct (encoding c) as [|[[|k] d] rest] eqn:E; simpl; by rewrite ?E. Qed.

Lemma get_decoded_order (c : StreamTokenizer) :
  map snd (decoding c)
  = match fst (get_decoded c) with Some d => [d] | None => [] end
    ++ map snd (decoding (snd (get_decoded c)))
  /\ encoding (snd (get_decoded c)) = encoding c.
Proof. unfold get_decoded. destruct (decoding c) as [|[[|k] d] rest] eqn:E; simpl; by rewrite ?E. Qed.

Lemma text_events_order (t : Z) :
  got_c2s (ModelServer.text_events t) = [] /\ put_s2c (ModelServer.text_events t) = [].
Proof. unfold ModelServer.text_events. by destruct (negb _). Qed.

Lemma iteration_events_order (d : TokenFrame) (t : Z) (a : option TokenFrame) :
  got_c2s (ModelServer.iteration_events d t a) = [d]
  /\ put_s2c (ModelServer.iteration_events d t a) = ModelServer.audio_put a.
Proof.
  destruct (text_events_order t) as [E1 E2].
  unfold ModelServer.iteration_events, got_c2s, put_s2c in *. simpl.
  rewrite !flat_map_app, E1, E2. by destruct a.
Qed.

Lemma serve_order (gen : LmGen) (l : list TokenFrame) :
  got_c2s (snd (fst (ModelServer.serve gen l))) = l
  /\ put_s2c (snd (fst (ModelServer.serve gen l))) = snd (ModelServer.serve gen l).
Proof.
  revert gen. induction l as [|d l IH]; intros gen; simpl; [done|].
  destruct (ModelServer.iteration gen d) as [[g t] a].
  destruct (IH g) as [I1 I2]. destruct (ModelServer.serve g l) as [[g1 e1] o1].
  destruct (iteration_events_order d t a) as [E1 E2].
  change (got_c2s (ModelServer.iteration_events d t a ++ e1) = d :: l
          /\ put_s2c (ModelServer.iteration_events d t a ++ e1)
             = ModelServer.audio_put a ++ o1).
  unfold got_c2s, put_s2c in *. rewrite !flat_map_app, E1, E2. simpl in *.
  by rewrite I1, I2.
Qed.

Lemma boot_order (args : Args) :
  got_c2s (snd (fst (ModelServer.boot args))) = []
  /\ put_s2c (snd (fst (ModelServer.boot args))) = snd (ModelServer.boot args).
Proof.
  unfold ModelServer.boot.
  destruct (ModelServer.model_file_of args) as [mf|e]; [|done].
  destruct (ModelServer.tokenizer_file_of args) as [tf|e]; [|done]. simpl.
  unfold ModelServer.quantize_events, got_c2s, put_s2c.
  rewrite !flat_map_app. by destruct (quantized args).
Qed.

Lemma turn_order (w : World) : in_order w -> in_order (ModelServer.turn w).
Proof.
  intros (I1 & I2 & I3 & I4). unfold ModelServer.turn.
  destruct (model_proc w) as [args|gen|e]; [| |done].
  - destruct (boot_order args) as [E1 E2].
    destruct (ModelServer.boot args) as [[p evs] out]. simpl in E1, E2.
    unfold in_order, got_c2s, put_s2c in *. simpl. rewrite !flat_map_app, E1, E2.
    rewrite app_nil_r. split; [done|]. split; [done|]. split; [|done].
    by rewrite I3, <- app_assoc.
  - destruct (client_to_server w) as [|d rest] eqn:Hq; [by rewrite <- Hq in I2|].
    destruct (ModelServer.iteration gen d) as [[g t] a].
    destruct (iteration_events_order d t a) as [E1 E2].
    unfold in_order, got_c2s, put_s2c in *. simpl. rewrite !flat_map_app, E1, E2.
    split; [done|]. split; [by rewrite I2, <- app_assoc|]. split; [|done].
    by rewrite I3, <- app_assoc.
Qed.

Lemma run_order (w : World) :
  in_order w ->
  in_order (ModelServer.run w) /\ events (ModelServer.run w) = events w.
Proof.
  intros Hw. destruct (run_is_turns w) as [-> _]. split.
  - generalize (S (length (client_to_server w))). intros n.
    induction n as [|n IH]; simpl; [done|]. by apply turn_order.
  - generalize (S (length (client_to_server w))). intros n.
    induction n as [|n IH]; simpl; [done|]. rewrite <- IH.
    unfold ModelServer.turn. destruct (model_proc _) as [args|gen|e]; [| |done].
    + by destruct (ModelServer.boot args) as [[p evs] out].
    + destruct (client_to_server _) as [|d rest]; [done|].
      by destruct (ModelServer.iteration gen d) as [[g t] a].
Qed.

Lemma in_order_logs (w w' : World) (evs : list Event) :
  in_order w -> Forall off_path evs ->
  events w' = events w ++ evs -> model_events w' = model_events w ->
  audio_tokenizer w' = audio_tokenizer w ->
  client_to_server w' = client_to_server w -> server_to_client w' = server_to_client w ->
  in_order w'.
Proof.
  intros (I1 & I2 & I3 & I4) Hevs.
  assert (Hn : forall (B : Type) (f : Event -> list B),
             (forall e, off_path e -> f e = []) -> flat_map f evs = []).
  { intros B f Hf. induction Hevs as [|e l He Hl IH]; simpl; [done|].
    by rewrite (Hf e He), IH. }
  intros E1 E2 E3 E4 E5.
  unfold in_order, encoded, put_c2s, got_c2s, put_s2c, got_s2c, decoded, got_decoded in *.
  rewrite E1, E2, E3, E4, E5, !flat_map_app.
  rewrite !Hn by (by intros []). by rewrite !app_nil_r.
Qed.


Lemma triple_ret {A : Type} (post : A -> World -> Prop) (stop : World -> Prop) (a : A) :
  triple (post a) (ret a) post stop.
Proof. by intros w Hw. Qed.

Lemma triple_bind {A B : Type} (pre : World -> Prop) (mid : A -> World -> Prop)
    (post : B -> World -> Prop) (stop : World -> Prop) (m : M A) (k : A -> M B) :
  triple pre m mid stop -> (forall a, triple (mid a) (k a) post stop) ->
  triple pre (bind m k) post stop.
Proof.
  intros Hm Hk w Hw. specialize (Hm w Hw). unfold bind.
  destruct (m w) as [a w1|w1|w1|e w1]; try done. by apply Hk.
Qed.

Lemma triple_lift {A : Type} (inv : World -> Prop) (r : Res A) :
  triple inv (lift r) (fun _ => inv) inv.
Proof. intros w Hw. unfold lift. by destruct r. Qed.

Lemma triple_emit (evs : list Event) :
  Forall announces evs -> triple in_order (act (emit evs)) (fun _ => in_order) in_order.
Proof.
  intros Hevs w Hw. unfold act. apply (in_order_logs w _ evs); try done.
  eapply Forall_impl; [exact Hevs|]. by intros [].
Qed.

Lemma do_encode_order (pcm : list sample) :
  triple in_order (do_encode pcm) (fun _ => in_order) in_order.
Proof.
  intros w (I1 & I2 & I3 & I4). unfold do_encode, act. traces.
  rewrite I1. split; [by rewrite <- app_assoc|done].
Qed.

Lemma do_decode_order (t : TokenFrame) :
  triple in_order (do_decode t) (fun _ => in_order) in_order.
Proof.
  intros w (I1 & I2 & I3 & I4). unfold do_decode, act. traces.
  rewrite I4. repeat split; try done. by rewrite <- app_assoc.
Qed.

Lemma poll_encoded_order (fuel : nat) :
  triple in_order (poll_encoded fuel) carrying in_order.
Proof.
  induction fuel as [|fuel IH]; simpl; [by intros w Hw|].
  intros w (I1 & I2 & I3 & I4). unfold bind, sleep_get_encoded.
  destruct (get_encoded_order (audio_tokenizer w)) as [E1 E2].
  destruct (get_encoded (audio_tokenizer w)) as [[d|] c]; simpl in *.
  - unfold ret, carrying. traces. rewrite E2. repeat split; try done.
    by rewrite I1, E1.
  - apply IH. traces. rewrite E2. repeat split; try done. by rewrite I1, E1.
Qed.

Lemma c2s_put_nowait_order (d : TokenFrame) :
  triple (carrying d) (c2s_put_nowait d) (fun _ => in_order) in_order.
Proof.
  intros w (I1 & I2 & I3 & I4). unfold c2s_put_nowait, act. traces.
  rewrite I1, I2. repeat split; try done; by rewrite <- !app_assoc.
Qed.

Lemma poll_decoded_order (fuel : nat) :
  triple in_order (poll_decoded fuel) (fun _ => in_order) in_order.
Proof.
  induction fuel as [|fuel IH]; simpl; [by intros w Hw|].
  intros w (I1 & I2 & I3 & I4). unfold bind, sleep_get_decoded.
  destruct (get_decoded_order (audio_tokenizer w)) as [E1 E2].
  destruct (get_decoded (audio_tokenizer w)) as [[d|] c]; simpl in *.
  - unfold ret. traces. rewrite E2. repeat split; try done.
    by rewrite I4, E1, <- app_assoc.
  - apply IH. traces. rewrite E2. repeat split; try done. by rewrite I4, E1.
Qed.

Lemma s2c_get_order : triple in_order s2c_get (fun _ => in_order) in_order.
Proof.
  intros w Hw. unfold s2c_get.
  destruct (run_order w Hw) as [(I1 & I2 & I3 & I4) He].
  destruct (server_to_client (ModelServer.run w)) as [|m rest] eqn:Hq.
  - unfold in_order. by rewrite Hq.
  - traces. rewrite I3. repeat split; try done. by rewrite <- app_assoc.
Qed.

Lemma warmup_round_order (fuel i : nat) :
  triple in_order (warmup_round fuel i) (fun _ => in_order) in_order.
Proof.
  unfold warmup_round.
  eapply triple_bind; [apply do_encode_order|]. intros ?.
  eapply triple_bind; [apply poll_encoded_order|]. intros d.
  eapply triple_bind; [apply c2s_put_nowait_order|]. intros ?.
  destruct (Nat.eqb i 0); [apply (triple_ret (fun _ => in_order))|].
  eapply triple_bind; [apply s2c_get_order|]. intros m.
  eapply triple_bind; [apply triple_lift|]. intros t.
  eapply triple_bind; [apply do_decode_order|]. intros ?.
  eapply triple_bind; [apply poll_decoded_order|]. intros ?.
  apply (triple_ret (fun _ => in_order)).
Qed.

Lemma for_each_order (l : list nat) (body : nat -> M unit) :
  (forall i, triple in_order (body i) (fun _ => in_order) in_order) ->
  triple in_order (for_each l body) (fun _ => in_order) in_order.
Proof.
  intros Hb. induction l as [|i l IH]; simpl; [apply (triple_ret (fun _ => in_order))|].
  eapply triple_bind; [apply Hb|]. intros ?. exact IH.
Qed.

Lemma go_order (args : Args) : triple in_order (go args) (fun _ => in_order) in_order.
Proof.
  unfold go. eapply (triple_bind _ (fun _ => in_order)).
  - unfold static_path_of. destruct (static args) as [s|].
    + destruct (String.eqb s "none"); apply (triple_ret (fun _ => in_order)).
    + eapply triple_bind; [apply triple_emit; by repeat constructor|]. intros ?.
      eapply triple_bind; [apply triple_lift|]. intros p.
      apply (triple_ret (fun _ => in_order)).
  - intros p. eapply (triple_bind _ (fun _ => in_order)).
    + destruct p; [apply triple_emit; by repeat constructor
                  |apply (triple_ret (fun _ => in_order))].
    + intros ?. apply triple_emit. by repeat constructor.
Qed.

Lemma web_server_order (fuel : nat) (args : Args) :
  triple in_order (web_server fuel args) (fun _ => in_order) in_order.
Proof.
  unfold web_server.
  eapply triple_bind; [apply triple_lift|]. intros f.
  eapply triple_bind; [apply triple_emit; by repeat constructor|]. intros ?.
  eapply triple_bind; [apply s2c_get_order|]. intros m.
  eapply triple_bind; [apply triple_emit; by repeat constructor|]. intros ?.
  eapply triple_bind; [apply for_each_order; intros i; apply warmup_round_order|].
  intros ?. apply go_order.
Qed.

Lemma recv_message_logs (m : WSMessage) (r : OpusStreamReader) :
  Forall off_path (logged (recv_message m r)).
Proof.
  unfold recv_message.
  repeat (case_decide; simpl; [by repeat constructor|]).
  destruct (as_bytes (data m)) as [b|]; simpl; [|by repeat constructor].
  destruct (Nat.eqb (length b) 0); simpl; [by repeat constructor|].
  destruct (b !! 0) as [k|]; simpl; [|constructor].
  destruct (Z.eqb (byte_int k) 1); simpl; by repeat constructor.
Qed.

Lemma recv_loop_logs (c : Chat) : Forall off_path (snd (fst (recv_loop c))).
Proof.
  unfold recv_loop. destruct (inbox c) as [|m rest]; simpl; [constructor|].
  destruct (stops_iteration (type m)); simpl; [by repeat constructor|].
  pose proof (recv_message_logs m (opus_reader c)) as Hm.
  destruct (flow (recv_message m (opus_reader c))); simpl; [done| |];
    (apply Forall_app; split; [done|by repeat constructor]).
Qed.

Lemma in_order_same (w w' : World) :
  in_order w ->
  events w' = events w -> model_events w' = model_events w ->
  audio_tokenizer w' = audio_tokenizer w ->
  client_to_server w' = client_to_server w -> server_to_client w' = server_to_client w ->
  in_order w'.
Proof.
  intros Hw E1 E2 E3 E4 E5. apply (in_order_logs w w' []); try done.
  by rewrite app_nil_r.
Qed.

Lemma gather_raises_order (c : Chat) (w : World) :
  events (snd (gather_raises c w)) = events w
  /\ model_events (snd (gather_raises c w)) = model_events w
  /\ audio_tokenizer (snd (gather_raises c w)) = audio_tokenizer w
  /\ client_to_server (snd (gather_raises c w)) = client_to_server w
  /\ server_to_client (snd (gather_raises c w)) = server_to_client w.
Proof. unfold gather_raises. by destruct (phase c). Qed.

Lemma resume_order (i : nat) (t : Task) (c : Chat) (w : World) :
  in_order w -> in_order (resume i t c w).
Proof.
  intros Hw. unfold resume. destruct t.
  - destruct (opus_pc c); [by apply (in_order_same w)| |done].
    destruct (opus_loop_body c (input_queue w)) as [c' q']. by apply (in_order_same w).
  - pose proof (recv_loop_logs c) as Hl.
    destruct (recv_pc c); [| |done];
      (destruct (recv_loop c) as [[c' evs] [e|]]; simpl in Hl;
       [pose proof (gather_raises_order c' (emit evs w)) as (E1 & E2 & E3 & E4 & E5);
        destruct (gather_raises c' (emit evs w)) as [c2 w2]; simpl in *;
        by apply (in_order_logs w _ evs)
       |by apply (in_order_logs w _ evs)]).
  - destruct (send_pc c); [by apply (in_order_same w)|by apply (in_order_same w)|done].
  - destruct (another_pc c); [by apply (in_order_same w)| |done].
    destruct (another_loop_body c (output_queue w)) as [[c'|] q'].
    + by apply (in_order_same w).
    + match goal with |- context [gather_raises ?a ?b] =>
        pose proof (gather_raises_order a b) as (E1 & E2 & E3 & E4 & E5);
        destruct (gather_raises a b) as [c2 w2] end.
      simpl in *. by apply (in_order_same w).
Qed.

Lemma pump_order (b : Bridge) (w : World) :
  in_order w -> in_order (gateway_step (Pump b) w).
Proof.
  intros Hw. pose proof Hw as (I1 & I2 & I3 & I4). destruct b; simpl.
  - unfold WebServer.send_loop. destruct (input_queue w) as [|pcm rest]; [done|].
    traces. rewrite I1. split; [by rewrite <- app_assoc|done].
  - unfold WebServer.recv_loop.
    destruct (get_decoded_order (audio_tokenizer w)) as [E1 E2].
    destruct (get_decoded (audio_tokenizer w)) as [[d|] c]; simpl in *;
      traces; rewrite E2; repeat split; try done; by rewrite I4, E1, <- ?app_assoc.
  - unfold WebServer.send_loop2.
    destruct (get_encoded_order (audio_tokenizer w)) as [E1 E2].
    destruct (get_encoded (audio_tokenizer w)) as [[d|] c]; simpl in *;
      traces; rewrite E2; repeat split; try done;
      rewrite ?I1, ?I2, ?E1, <- ?app_assoc; done.
  - unfold WebServer.recv_loop2. destruct (server_to_client w) as [|m rest] eqn:Hq; [done|].
    destruct m as [s|t]; simpl; traces; rewrite ?Hq in *.
    + rewrite I3. repeat split; try done. by rewrite <- app_assoc.
    + rewrite I3, I4. repeat split; try done; by rewrite <- app_assoc.
Qed.

Lemma gateway_step_order (a : Action) (w : World) :
  in_order w -> in_order (gateway_step a w).
Proof.
  intros Hw. destruct a as [|i m|i|i|i t|i|b|]; try (by apply pump_order); simpl;
    try done; try (unfold on_chat; destruct (chats w !! i) as [c|]; [|done]).
  - apply (in_order_logs w _ [EvLog "info" "accepted connection"]); try done.
    by repeat constructor.
  - by apply (in_order_same w).
  - destruct (_ && _); [|done]. by apply (in_order_same w).
  - destruct (bool_decide _); [|done]. by apply (in_order_same w).
  - destruct (loops_started c); [|done]. by apply resume_order.
  - destruct (_ && _); [|done].
    apply (in_order_logs w _ [EvLog "info" "done with connection"]); try done.
    by repeat constructor.
Qed.

Lemma step_order (a : Action) (w : World) : in_order w -> in_order (step a w).
Proof.
  intros Hw. unfold step.
  destruct a; try (by apply turn_order);
    (destruct (fault w); [done|by apply gateway_step_order]).
Qed.

(** X10: nothing on the audio path is lost, duplicated or reordered, in
    any run of the two processes.  At every moment, the encodings of the
    buffers passed to [encode] are, in order, the frames put on
    [client_to_server] followed by those the codec still works on; the
    frames put on [client_to_server] are those the model has taken followed
    by those still queued; the messages the model has put on
    [server_to_client] are those the gateway has taken followed by those
    still queued; and the decodings of the frames passed to [decode] are the
    buffers [get_decoded] has returned followed by those the codec still
    works on. *)
Theorem audio_path_keeps_order (fuel : nat) (args : Args) (lags : list nat)
    (schedule : list Action) :
  let w := run schedule (final (web_server fuel args (main args lags))) in
  map mimi_encode (encoded (events w))
    = put_c2s (events w) ++ map snd (encoding (audio_tokenizer w))
  /\ put_c2s (events w) = got_c2s (model_events w) ++ client_to_server w
  /\ put_s2c (model_events w) = got_s2c (events w) ++ server_to_client w
  /\ map mimi_decode (decoded (events w))
     = got_decoded (events w) ++ map snd (decoding (audio_tokenizer w)).
Proof.
  intros w. change (in_order w). subst w.
  assert (Hstart : in_order (final (web_server fuel args (main args lags)))).
  { pose proof (web_server_order fuel args (main args lags)) as Hws.
    assert (Hm : in_order (main args lags)) by done.
    specialize (Hws Hm).
    by destruct (web_server fuel args (main args lags)). }
  revert Hstart. generalize (final (web_server fuel args (main args lags))).
  induction schedule as [|a l IH]; intros w Hw; [done|].
  simpl. apply IH. by apply step_order.
Qed.

End AudioPathOrder.

(** ** The end of a session *)

Section SessionEnd.
Context `{Externals}.
Import HandleChat.

Lemma lookup_put_chat (i : nat) (c c' : Chat) (w : World) :
  chats w !! i = Some c -> chats (put_chat i c' w) !! i = Some c'.
Proof.
  intros Hi. unfold put_chat. simpl. apply list_lookup_insert_eq.
  by apply lookup_lt_Some in Hi.
Qed.







End SessionEnd.


(** ** The next session *)

Section NextSession.
Context `{Externals}.
Import HandleChat.


End NextSession.


(** ** Audio in and out of a session *)

Section AudioInAndOut.
Context `{Externals}.
Import HandleChat.

Lemma with_inbox_same (c : Chat) : with_inbox (inbox c ++ []) c = c.
Proof. destruct c. unfold with_inbox. simpl. by rewrite app_nil_r. Qed.

Lemma run_app (l1 l2 : list Action) (w : World) :
  run (l1 ++ l2) w = run l2 (run l1 w).
Proof. unfold run. apply foldl_app. Qed.

Lemma run_cons (a : Action) (l : list Action) (w : World) :
  run (a :: l) w = run l (step a w).
Proof. reflexivity. Qed.

Lemma run_deliver (i : nat) (payloads : list (list byte)) : forall (w : World) (c : Chat),
  fault w = None -> chats w !! i = Some c ->
  let w' := run (map (fun p => Deliver i (audio_message p)) payloads) w in
  chats w' !! i = Some (with_inbox (inbox c ++ map audio_message payloads) c)
  /\ fault w' = None /\ input_queue w' = input_queue w /\ events w' = events w.
Proof.
  induction payloads as [|p l IH]; intros w c Hf Hi.
  - simpl. by rewrite with_inbox_same.
  - cbn [map]. rewrite run_cons.
    assert (E : step (Deliver i (audio_message p)) w
                = put_chat i (with_inbox (inbox c ++ [audio_message p]) c) w).
    { unfold step. rewrite Hf. simpl. unfold on_chat. by rewrite Hi. }
    rewrite E.
    destruct (IH (put_chat i (with_inbox (inbox c ++ [audio_message p]) c) w)
                 (with_inbox (inbox c ++ [audio_message p]) c))
      as (I1 & I2 & I3 & I4); [done|by apply (lookup_put_chat i c)|].
    simpl in I1. rewrite <- app_assoc in I1. by repeat split.
Qed.

Lemma run_recv (i : nat) (payloads : list (list byte)) : forall (w : World) (c : Chat),
  fault w = None -> chats w !! i = Some c ->
  phase c = Gathering -> recv_pc c = Suspended ->
  inbox c = map audio_message payloads ->
  let w' := run (replicate (length payloads) (Resume i RecvLoop)) w in
  chats w' !! i
  = Some (with_reader
            {| decoded_pcm := decoded_pcm (opus_reader c)
                              ++ concat (map opus_decode payloads) |}
            (with_inbox [] c))
  /\ fault w' = None /\ input_queue w' = input_queue w /\ events w' = events w.
Proof.
  induction payloads as [|p l IH]; intros w c Hf Hi Hp Hr Hin.
  - simpl. rewrite app_nil_r. split; [|done]. rewrite Hi. f_equal.
    destruct c as [? ? ? ? [?] ? ? ? ? ? ?]. simpl in *. by subst.
  - cbn [length replicate]. rewrite run_cons. simpl in Hin.
    set (c1 := with_reader (append_bytes p (opus_reader c)) (with_inbox (map audio_message l) c)).
    assert (E : step (Resume i RecvLoop) w = put_chat i c1 (emit [] w)).
    { unfold step. rewrite Hf. simpl. unfold on_chat. rewrite Hi.
      unfold loops_started. rewrite Hp. simpl. rewrite Hr.
      unfold recv_loop. rewrite Hin. reflexivity. }
    rewrite E.
    destruct (IH (put_chat i c1 (emit [] w)) c1) as (I1 & I2 & I3 & I4); try done.
    { by apply (lookup_put_chat i c). }
    simpl in *. rewrite app_nil_r in I4. rewrite <- app_assoc in I1. by repeat split.
Qed.

(** X13: audio sent by a client reaches the encoder queue as whole frames.
    Let chat [i] be in its session, with its connection open, nothing
    unread, all loops at rest and fewer than 1920 samples held back.  When
    audio messages with the given payloads arrive, [recv_loop] has taken
    them and [opus_loop] has woken up once, then nothing was logged, the
    buffers added to [input_queue] have 1920 samples each, and these
    buffers followed by what is now held back are what was held back before,
    followed by what the Opus reader had already decoded and by the decoded
    payloads in the order of arrival; fewer than 1920 samples are held
    back. *)
Theorem uploaded_audio_is_queued_in_frames (w : World) (i : nat) (c : Chat)
    (payloads : list (list byte))
    (Hfault : fault w = None)
    (Hchat : chats w !! i = Some c)
    (Hphase : phase c = Gathering)
    (Hopen : close c = false)
    (Hrecv : recv_pc c = Suspended)
    (Hopus : opus_pc c = AtTop)
    (Hinbox : inbox c = [])
    (Hheld : length (buffered (all_pcm_data c)) < 1920) :
  let w' := run (upload i payloads) w in
  exists new c',
    input_queue w' = input_queue w ++ new
    /\ Forall (fun chunk => length chunk = 1920) new
    /\ chats w' !! i = Some c'
    /\ concat new ++ buffered (all_pcm_data c')
       = buffered (all_pcm_data c) ++ decoded_pcm (opus_reader c)
         ++ concat (map opus_decode payloads)
    /\ length (buffered (all_pcm_data c')) < 1920
    /\ events w' = events w.
Proof.
  intros w'. subst w'. unfold upload. rewrite !run_app.
  destruct (run_deliver i payloads w c Hfault Hchat) as (D1 & D2 & D3 & D4).
  revert D1 D2 D3 D4.
  generalize (run (map (fun p => Deliver i (audio_message p)) payloads) w).
  intros w1 D1 D2 D3 D4. rewrite Hinbox in D1. simpl in D1.
  destruct (run_recv i payloads w1 _ D2 D1) as (R1 & R2 & R3 & R4); try done.
  revert R1 R2 R3 R4.
  generalize (run (replicate (length payloads) (Resume i RecvLoop)) w1).
  intros w2 R1 R2 R3 R4. simpl in R1.
  match type of R1 with _ = Some ?x => set (c2 := x) in * end.
  rewrite !run_cons. change (run [] ?x) with x.
  assert (E1 : step (Resume i OpusLoop) w2 = put_chat i (with_opus_pc Suspended c2) w2).
  { unfold step. rewrite R2. simpl. unfold on_chat. rewrite R1.
    unfold loops_started. simpl. rewrite Hphase. simpl. rewrite Hopus.
    unfold at_top. simpl. by rewrite Hopen. }
  rewrite E1.
  pose proof (assemble_spec (decoded_pcm (opus_reader c)
                             ++ concat (map opus_decode payloads))
                (all_pcm_data c) (input_queue w2)) as Hspec.
  destruct Hspec as (new & Hq & Hlen & Hcat & Hrem); [exact Hheld|].
  destruct (assemble (decoded_pcm (opus_reader c) ++ concat (map opus_decode payloads))
              (all_pcm_data c) (input_queue w2)) as [a q'] eqn:Has.
  simpl in Hq, Hcat, Hrem.
  assert (E2 : step (Resume i OpusLoop) (put_chat i (with_opus_pc Suspended c2) w2)
               = put_chat i
                   (with_opus_pc AtTop
                      (with_all_pcm_data a
                         (with_reader {| decoded_pcm := [] |}
                            (with_opus_pc Suspended c2))))
                   (with_input_queue q' (put_chat i (with_opus_pc Suspended c2) w2))).
  { unfold step. simpl. rewrite R2. unfold on_chat.
    rewrite (lookup_put_chat i c2) by done.
    unfold loops_started. simpl. rewrite Hphase. simpl.
    unfold opus_loop_body. simpl. by rewrite Has. }
  rewrite E2. exists new. eexists. simpl.
  split; [by rewrite Hq, R3, D3|]. split; [exact Hlen|].
  split; [apply list_lookup_insert_eq; rewrite length_insert;
          by apply lookup_lt_Some in R1|].
  simpl. split; [by rewrite Hcat, app_assoc|]. split; [exact Hrem|].
  by rewrite R4, D4.
Qed.



End AudioInAndOut.

Lemma uploaded_audio_is_queued_in_frames_witness :
  let w := run in_session_0 toy_start in
  let w' := run (upload 0 [[x05; x06]; [x07]]) w in
  exists new c',
    input_queue w' = input_queue w ++ new
    /\ Forall (fun chunk => length chunk = 1920) new
    /\ chats w' !! 0 = Some c'
    /\ concat new ++ buffered (all_pcm_data c')
       = buffered (all_pcm_data (HandleChat.handshake (HandleChat.enter HandleChat.accepted)))
         ++ decoded_pcm (opus_reader (HandleChat.handshake (HandleChat.enter HandleChat.accepted)))
         ++ concat (map (opus_decode (Externals := Toy.toy [])) [[x05; x06]; [x07]])
    /\ length (buffered (all_pcm_data c')) < 1920
    /\ events w' = events w.
Proof.
  apply (uploaded_audio_is_queued_in_frames (H := Toy.toy [])
           (run in_session_0 toy_start) 0
           (HandleChat.handshake (HandleChat.enter HandleChat.accepted))
           [[x05; x06]; [x07]]).
  - reflexivity.
  - reflexivity.
  - reflexivity.
  - reflexivity.
  - reflexivity.
  - reflexivity.
  - reflexivity.
  - simpl. lia.
Defined.


(** ** After a session *)

Section AfterASession.
Context `{Externals}.
Import HandleChat.

Lemma lookup_put_chat_ne (i j : nat) (c : Chat) (w : World) :
  i <> j -> chats (put_chat j c w) !! i = chats w !! i.
Proof. intros Hne. unfold put_chat. simpl. by apply list_lookup_insert_ne. Qed.

Lemma gather_raises_chats (c : Chat) (w : World) :
  chats (snd (gather_raises c w)) = chats w.
Proof. unfold gather_raises. by destruct (phase c). Qed.

Lemma resume_chats (j : nat) (t : Task) (c : Chat) (w : World) :
  exists c', chats (resume j t c w) = <[j := c']> (chats w) \/ resume j t c w = w.
Proof.
  unfold resume. destruct t.
  - destruct (opus_pc c); [by eexists; left| |by exists c; right].
    destruct (opus_loop_body c (input_queue w)) as [c' q']. by eexists; left.
  - destruct (recv_pc c); [| |by exists c; right];
      (destruct (recv_loop c) as [[c' evs] [e|]];
       [pose proof (gather_raises_chats c' (emit evs w)) as E;
        destruct (gather_raises c' (emit evs w)) as [c2 w2]; simpl in *;
        eexists; left; by rewrite E
       |by eexists; left]).
  - destruct (send_pc c); [by eexists; left|by eexists; left|by exists c; right].
  - destruct (another_pc c); [by eexists; left| |by exists c; right].
    destruct (another_loop_body c (output_queue w)) as [[c'|] q'].
    + by eexists; left.
    + match goal with |- context [gather_raises ?a ?b] =>
        pose proof (gather_raises_chats a b) as E;
        destruct (gather_raises a b) as [c2 w2] end.
      simpl in *. eexists; left; by rewrite E.
Qed.

Lemma pump_chats (b : Bridge) (w : World) : chats (gateway_step (Pump b) w) = chats w.
Proof.
  destruct b; simpl.
  - unfold WebServer.send_loop. by destruct (input_queue w).
  - unfold WebServer.recv_loop. by destruct (get_decoded (audio_tokenizer w)) as [[d|] c].
  - unfold WebServer.send_loop2. by destruct (get_encoded (audio_tokenizer w)) as [[d|] c].
  - unfold WebServer.recv_loop2. destruct (server_to_client w) as [|m rest]; [done|].
    by destruct m.
Qed.

Lemma turn_chats (w : World) : chats (ModelServer.turn w) = chats w.
Proof.
  unfold ModelServer.turn. destruct (model_proc w) as [args|gen|e]; [| |done].
  - by destruct (ModelServer.boot args) as [[p evs] out].
  - destruct (client_to_server w) as [|d rest]; [done|].
    by destruct (ModelServer.iteration gen d) as [[g t] a].
Qed.

Lemma left_step (a : Action) (w : World) (i : nat) (c c1 : Chat) :
  chats w !! i = Some c1 -> left_as c c1 ->
  exists c2, chats (step a w) !! i = Some c2 /\ left_as c c2.
Proof.
  intros Hi Hl. pose proof Hl as (Hp & _). unfold step.
  destruct a as [|j m|j|j|j t|j|b|]; try (destruct (fault w); [by eauto|]).
  - exists c1. split; [|done]. simpl. by apply lookup_app_l_Some.
  - simpl. unfold on_chat. destruct (chats w !! j) as [cj|] eqn:Hj; [|by eauto].
    destruct (decide (i = j)) as [->|Hne].
    + eexists. split; [by apply (lookup_put_chat j cj)|].
      rewrite Hi in Hj. inversion Hj; subst. exact Hl.
    + exists c1. by rewrite lookup_put_chat_ne.
  - simpl. unfold on_chat. destruct (chats w !! j) as [cj|] eqn:Hj; [|by eauto].
    destruct (_ && _) eqn:Hb; [|by eauto].
    destruct (decide (i = j)) as [->|Hne].
    + rewrite Hi in Hj. inversion Hj; subst. rewrite Hp in Hb. done.
    + exists c1. by rewrite lookup_put_chat_ne.
  - simpl. unfold on_chat. destruct (chats w !! j) as [cj|] eqn:Hj; [|by eauto].
    destruct (bool_decide _) eqn:Hb; [|by eauto].
    destruct (decide (i = j)) as [->|Hne].
    + rewrite Hi in Hj. inversion Hj; subst. rewrite Hp in Hb. done.
    + exists c1. by rewrite lookup_put_chat_ne.
  - simpl. unfold on_chat. destruct (chats w !! j) as [cj|] eqn:Hj; [|by eauto].
    destruct (loops_started cj) eqn:Hb; [|by eauto].
    destruct (decide (i = j)) as [->|Hne].
    + rewrite Hi in Hj. inversion Hj; subst. unfold loops_started in Hb.
      rewrite Hp in Hb. done.
    + destruct (resume_chats j t cj w) as [c' [E|E]].
      * exists c1. by rewrite E, list_lookup_insert_ne.
      * exists c1. by rewrite E.
  - simpl. unfold on_chat. destruct (chats w !! j) as [cj|] eqn:Hj; [|by eauto].
    destruct (_ && _) eqn:Hb; [|by eauto].
    destruct (decide (i = j)) as [->|Hne].
    + rewrite Hi in Hj. inversion Hj; subst. rewrite Hp in Hb. done.
    + exists c1. simpl. by rewrite list_lookup_insert_ne.
  - exists c1. by rewrite pump_chats.
  - exists c1. by rewrite turn_chats.
Qed.

(** X15: a session that has ended stays ended.  Once a chat has left
    [async with lock] normally, nothing the clients, the other chats, the
    bridge loops or the model do changes it again, except that messages
    still arriving on its websocket pile up unread: it sends nothing more,
    none of its loops runs again, and it never takes the lock again. *)
Theorem finished_session_stays_finished (w : World) (schedule : list Action)
    (i : nat) (c : Chat)
    (Hchat : chats w !! i = Some c)
    (Hfinished : phase c = Finished) :
  exists c',
    chats (run schedule w) !! i = Some c'
    /\ phase c' = Finished /\ sent c' = sent c /\ close c' = close c
    /\ opus_reader c' = opus_reader c /\ opus_writer c' = opus_writer c
    /\ all_pcm_data c' = all_pcm_data c
    /\ opus_pc c' = opus_pc c /\ recv_pc c' = recv_pc c
    /\ send_pc c' = send_pc c /\ another_pc c' = another_pc c.
Proof.
  assert (Hgen : forall w c1, chats w !! i = Some c1 -> left_as c c1 ->
            exists c', chats (run schedule w) !! i = Some c' /\ left_as c c').
  { clear w Hchat. induction schedule as [|a l IH]; intros w c1 H1 Hl.
    - by exists c1.
    - rewrite run_cons. destruct (left_step a w i c c1 H1 Hl) as (c2 & H2 & Hl2).
      by apply (IH (step a w) c2). }
  destruct (Hgen w c Hchat) as (c' & Hc' & Hl'); [by repeat split|].
  exists c'. split; [exact Hc'|exact Hl'].
Qed.

End AfterASession.

Lemma finished_session_stays_finished_witness :
  exists c',
    chats (run second_served (run first_leaves toy_start)) !! 0 = Some c'
    /\ phase c' = Finished /\ sent c' = sent gone /\ close c' = close gone
    /\ opus_reader c' = opus_reader gone /\ opus_writer c' = opus_writer gone
    /\ all_pcm_data c' = all_pcm_data gone
    /\ opus_pc c' = opus_pc gone /\ recv_pc c' = recv_pc gone
    /\ send_pc c' = send_pc gone /\ another_pc c' = another_pc gone.
Proof.
  apply (finished_session_stays_finished (H := Toy.toy [])
           (run first_leaves toy_start) second_served 0 gone).
  - vm_compute. reflexivity.
  - reflexivity.
Defined.

(** ** The whole way *)

Section RoundTrip.
Context `{Externals}.
Import HandleChat.



















Opaque step run.


Transparent step run.

End RoundTrip.


(** ** How long a session lasts, and who holds the lock *)

Section SessionLifetime.
Context `{Externals}.
Import HandleChat.

Lemma recv_message_continues (m : WSMessage) (rd : OpusStreamReader) :
  keeps_open (type m) -> flow (recv_message m rd) = Continue.
Proof.
  intros (He & _ & _ & Hc).
  pose proof (recv_message_never_raises m rd) as Hr.
  destruct (flow (recv_message m rd)) eqn:E; [done| |by destruct (Hr exc)].
  exfalso. revert E. unfold recv_message. repeat case_decide; try done.
  destruct (as_bytes (data m)) as [b|]; [|done].
  destruct (Nat.eqb (length b) 0); [done|].
  destruct (b !! 0) as [k|]; [|done]. by destruct (Z.eqb (byte_int k) 1).
Qed.

Lemma recv_loop_connected (c : Chat) :
  connected c -> connected (fst (fst (recv_loop c))).
Proof.
  intros Hall. pose proof Hall as (Hc & Hr & Hp & Hin). unfold recv_loop.
  destruct (inbox c) as [|m rest] eqn:Hbox; [exact Hall|].
  inversion Hin as [|? ? Hm Hrest]; subst.
  assert (Hs : stops_iteration (type m) = false).
  { destruct Hm as (? & ? & ? & ?). by destruct (type m). }
  rewrite Hs. simpl. rewrite (recv_message_continues m _ Hm). simpl.
  by repeat split.
Qed.

Lemma connected_insert (w w' : World) (i : nat) (c' : Chat) :
  Forall connected (chats w) -> connected c' ->
  chats w' = <[i := c']> (chats w) -> Forall connected (chats w').
Proof. intros Hall Hc' ->. by apply Forall_insert. Qed.

Lemma gather_raises_connected (c : Chat) (w : World) :
  connected c ->
  connected (fst (gather_raises c w)) /\ chats (snd (gather_raises c w)) = chats w.
Proof.
  intros Hall. pose proof Hall as (Hc & Hr & Hp & Hin). unfold gather_raises.
  destruct (phase c) eqn:E; simpl; try (split; [exact Hall|done]).
  by repeat split.
Qed.

Lemma resume_connected (i : nat) (t : Task) (c : Chat) (w : World) :
  Forall connected (chats w) -> connected c ->
  Forall connected (chats (resume i t c w)).
Proof.
  intros Hall Hc. pose proof Hc as (Hcl & Hr & Hp & Hin). unfold resume. destruct t.
  - destruct (opus_pc c); [| |done].
    + by apply (connected_insert w _ i (with_opus_pc (at_top c) c)).
    + unfold opus_loop_body. simpl. destruct (assemble _ _ _) as [a q].
      eapply (connected_insert w _ i _ Hall); [|reflexivity]. by repeat split.
  - pose proof (recv_loop_connected c Hc) as Hc'.
    destruct (recv_pc c); [| |done];
      (destruct (recv_loop c) as [[c' evs] [e|]]; simpl in Hc';
       [destruct (gather_raises_connected c' (emit evs w) Hc') as [G1 G2];
        destruct (gather_raises c' (emit evs w)) as [c2 w2]; simpl in *;
        rewrite ?G2; by apply Forall_insert
       |by apply (connected_insert w _ i c')]).
  - destruct (send_pc c); [| |done].
    + by apply (connected_insert w _ i (with_send_pc (at_top c) c)).
    + apply (connected_insert w _ i (with_send_pc AtTop (send_loop_body c))); try done.
      unfold send_loop_body. simpl. destruct (Nat.ltb 0 _); by repeat split.
  - destruct (another_pc c); [| |done].
    + by apply (connected_insert w _ i (with_another_pc (at_top c) c)).
    + unfold another_loop_body. destruct (output_queue w) as [|pcm rest].
      * by apply (connected_insert w _ i (with_another_pc AtTop c)).
      * destruct (Nat.eqb (length pcm) 1920).
        { eapply (connected_insert w _ i _ Hall); [|reflexivity]. by repeat split. }
        match goal with |- context [gather_raises ?a ?b] =>
          destruct (gather_raises_connected a b) as [G1 G2]; [by repeat split|];
          destruct (gather_raises a b) as [c2 w2] end.
        simpl in *. rewrite ?G2. by apply Forall_insert.
Qed.

Lemma step_connected (a : Action) (w : World) :
  no_hang_up a -> Forall connected (chats w) -> Forall connected (chats (step a w)).
Proof.
  intros Ha Hall. unfold step.
  destruct a as [|j m|j|j|j t|j|b|]; try (destruct (fault w); [done|]).
  - simpl. apply Forall_app. split; [done|]. constructor; [|constructor].
    by repeat split.
  - simpl. unfold on_chat. destruct (chats w !! j) as [c|] eqn:Hj; [|done].
    rewrite Forall_lookup in Hall. pose proof (Hall j c Hj) as (Hc & Hr & Hp & Hin).
    rewrite <- Forall_lookup in Hall.
    eapply (connected_insert w _ j); [done| |reflexivity].
    repeat split; try done. simpl. apply Forall_app. split; [done|].
    constructor; [exact Ha|constructor].
  - simpl. unfold on_chat. destruct (chats w !! j) as [c|] eqn:Hj; [|done].
    destruct (_ && _); [|done].
    rewrite Forall_lookup in Hall. pose proof (Hall j c Hj) as (Hc & Hr & Hp & Hin).
    rewrite <- Forall_lookup in Hall.
    eapply (connected_insert w _ j); [done| |reflexivity]. by repeat split.
  - simpl. unfold on_chat. destruct (chats w !! j) as [c|] eqn:Hj; [|done].
    destruct (bool_decide _); [|done].
    rewrite Forall_lookup in Hall. pose proof (Hall j c Hj) as (Hc & Hr & Hp & Hin).
    rewrite <- Forall_lookup in Hall.
    eapply (connected_insert w _ j); [done| |reflexivity]. by repeat split.
  - simpl. unfold on_chat. destruct (chats w !! j) as [c|] eqn:Hj; [|done].
    destruct (loops_started c); [|done].
    apply resume_connected; [done|]. rewrite Forall_lookup in Hall. by apply (Hall j).
  - simpl. unfold on_chat. destruct (chats w !! j) as [c|] eqn:Hj; [|done].
    destruct (bool_decide (phase c = Gathering)); [|done]. simpl.
    destruct (all_exited c) eqn:Hex; [|done]. exfalso.
    rewrite Forall_lookup in Hall. pose proof (Hall j c Hj) as (Hc & Hr & Hp & Hin).
    unfold all_exited in Hex. rewrite !andb_true_iff in Hex.
    destruct Hex as [[[_ Hx] _] _]. by apply bool_decide_eq_true in Hx.
  - by rewrite pump_chats.
  - by rewrite turn_chats.
Qed.

Lemma run_connected (schedule : list Action) (w : World) :
  Forall no_hang_up schedule -> Forall connected (chats w) ->
  Forall connected (chats (run schedule w)).
Proof.
  revert w. induction schedule as [|a l IH]; intros w Hs Hw; [done|].
  inversion Hs; subst. rewrite run_cons. apply IH; [done|]. by apply step_connected.
Qed.

(** X17: a session ends only when its client leaves.  As long as no
    websocket delivers an error or a close message, no chat sets [close],
    none of its [recv_loop]s ends, and no session ends or fails: a chat that
    has the lock keeps it, whatever else its client sends. *)
Theorem sessions_end_only_when_clients_leave (w0 : World) (schedule : list Action)
    (i : nat) (c : Chat)
    (Hstart : event_loop_start w0)
    (Hopen : Forall no_hang_up schedule)
    (Hchat : chats (run schedule w0) !! i = Some c) :
  close c = false /\ recv_pc c <> Exited
  /\ phase c <> Finished /\ phase c <> Failed.
Proof.
  pose proof (run_inv schedule w0 (start_inv w0 Hstart)) as Hinv.
  pose proof (lookup_chat_inv _ i c Hinv Hchat) as (Hfailed & _).
  assert (Hall : Forall connected (chats (run schedule w0))).
  { apply run_connected; [done|]. destruct Hstart as (-> & _). constructor. }
  rewrite Forall_lookup in Hall. destruct (Hall i c Hchat) as (Hc & Hr & Hp & _).
  done.
Qed.

Lemma holder_insert (w w' : World) (j : nat) (cj c' : Chat) :
  lock_has_holder w -> lock w' = lock w ->
  chats w !! j = Some cj -> chats w' = <[j := c']> (chats w) ->
  (in_session cj -> in_session c') ->
  lock_has_holder w'.
Proof.
  intros Hw Hl Hj Hch Hp Hlock. rewrite Hl in Hlock.
  destruct (Hw Hlock) as (i & c & Hi & Hs). rewrite Hch.
  destruct (decide (i = j)) as [->|Hne].
  - exists j, c'. split.
    + apply list_lookup_insert_eq. by apply lookup_lt_Some in Hj.
    + apply Hp. rewrite Hi in Hj. by inversion Hj; subst.
  - exists i, c. by rewrite list_lookup_insert_ne.
Qed.

Lemma holder_same (w w' : World) :
  lock_has_holder w -> lock w' = lock w -> chats w' = chats w -> lock_has_holder w'.
Proof. intros Hw Hl Hch Hlock. rewrite Hl in Hlock. rewrite Hch. by apply Hw. Qed.

Lemma holder_gather_raises (w : World) (j : nat) (cj c' : Chat) (w1 : World) :
  lock_has_holder w -> lock w1 = lock w -> chats w1 = chats w ->
  chats w !! j = Some cj -> phase c' = phase cj ->
  lock_has_holder (put_chat j (fst (gather_raises c' w1)) (snd (gather_raises c' w1))).
Proof.
  intros Hw Hl Hch Hj Hp. unfold gather_raises.
  destruct (phase c') eqn:E; simpl;
    try (apply (holder_insert w _ j cj c'); try done; simpl; try (by rewrite Hch);
         unfold in_session; rewrite E, <- Hp; done).
  intros Hlock. simpl in Hlock. done.
Qed.

Lemma resume_holder (j : nat) (t : Task) (c : Chat) (w : World) :
  lock_has_holder w -> chats w !! j = Some c -> lock_has_holder (resume j t c w).
Proof.
  intros Hw Hj. unfold resume. destruct t.
  - destruct (opus_pc c); [| |done].
    + by apply (holder_insert w _ j c (with_opus_pc (at_top c) c)).
    + destruct (opus_loop_body c (input_queue w)) as [c' q'] eqn:Hb.
      apply opus_loop_body_frame in Hb as [Hp _].
      apply (holder_insert w _ j c (with_opus_pc AtTop c')); try done.
      unfold in_session. simpl. by rewrite Hp.
  - destruct (recv_pc c); [| |done];
      (destruct (recv_loop c) as [[c' evs] exc] eqn:Hb;
       apply recv_loop_frame in Hb as (-> & Hp & _);
       apply (holder_insert w _ j c c'); try done;
       unfold in_session; by rewrite Hp).
  - destruct (send_pc c); [| |done].
    + by apply (holder_insert w _ j c (with_send_pc (at_top c) c)).
    + apply (holder_insert w _ j c (with_send_pc AtTop (send_loop_body c))); try done.
      destruct (send_loop_body_frame c) as [Hp _]. unfold in_session. simpl.
      by rewrite Hp.
  - destruct (another_pc c); [| |done].
    + by apply (holder_insert w _ j c (with_another_pc (at_top c) c)).
    + unfold another_loop_body. destruct (output_queue w) as [|pcm rest].
      * by apply (holder_insert w _ j c (with_another_pc AtTop c)).
      * destruct (Nat.eqb (length pcm) 1920).
        { by apply (holder_insert w _ j c
                      (with_another_pc AtTop
                         (with_writer (append_pcm pcm (opus_writer c)) c))). }
        pose proof (holder_gather_raises w j c (with_another_pc Exited c)
                      (with_output_queue rest w) Hw eq_refl eq_refl Hj eq_refl) as Hg.
        by destruct (gather_raises _ _).
Qed.

Lemma step_holder (a : Action) (w : World) :
  lock_has_holder w -> lock_has_holder (step a w).
Proof.
  intros Hw. unfold step.
  destruct a as [|j m|j|j|j t|j|b|]; try (destruct (fault w); [done|]).
  - intros Hlock. destruct (Hw Hlock) as (i & c & Hi & Hs).
    exists i, c. split; [|done]. simpl. by apply lookup_app_l_Some.
  - simpl. unfold on_chat. destruct (chats w !! j) as [c|] eqn:Hj; [|done].
    by apply (holder_insert w _ j c (with_inbox (inbox c ++ [m]) c)).
  - simpl. unfold on_chat. destruct (chats w !! j) as [c|] eqn:Hj; [|done].
    destruct (_ && _); [|done]. intros _. exists j, (enter c). split.
    + apply list_lookup_insert_eq. by apply lookup_lt_Some in Hj.
    + by left.
  - simpl. unfold on_chat. destruct (chats w !! j) as [c|] eqn:Hj; [|done].
    destruct (bool_decide _); [|done].
    apply (holder_insert w _ j c (handshake c)); try done. intros _. by right.
  - simpl. unfold on_chat. destruct (chats w !! j) as [c|] eqn:Hj; [|done].
    destruct (loops_started c); [|done]. by apply resume_holder.
  - simpl. unfold on_chat. destruct (chats w !! j) as [c|] eqn:Hj; [|done].
    destruct (_ && _); [|done]. intros Hlock. simpl in Hlock. done.
  - apply (holder_same w); [done| |by rewrite pump_chats].
    destruct b; simpl.
    + unfold WebServer.send_loop. by destruct (input_queue w).
    + unfold WebServer.recv_loop. by destruct (get_decoded (audio_tokenizer w)) as [[d|] c].
    + unfold WebServer.send_loop2. by destruct (get_encoded (audio_tokenizer w)) as [[d|] c].
    + unfold WebServer.recv_loop2. destruct (server_to_client w) as [|m rest]; [done|].
      by destruct m.
  - apply (holder_same w); [done| |by rewrite turn_chats].
    unfold ModelServer.turn. destruct (model_proc w) as [args|gen|e]; [| |done].
    + by destruct (ModelServer.boot args) as [[p evs] out].
    + destruct (client_to_server w) as [|d rest]; [done|].
      by destruct (ModelServer.iteration gen d) as [[g t] a].
Qed.

(** X18: the lock is never left behind.  In every state the event loop
    can reach from one with the lock free, whenever the lock is taken, a
    chat that is inside [async with lock] holds it: no chat leaves the block
    without giving the lock back, neither at the end of its session nor when
    one of its loops raises. *)
Theorem lock_is_never_left_behind (w0 : World) (schedule : list Action)
    (Hfree : lock w0 = false)
    (Htaken : lock (run schedule w0) = true) :
  exists i c, chats (run schedule w0) !! i = Some c /\ in_session c.
Proof.
  assert (Hh : lock_has_holder (run schedule w0)).
  { assert (H0 : lock_has_holder w0) by (intros Hl; congruence).
    clear Hfree Htaken. revert w0 H0.
    induction schedule as [|a l IH]; intros w H0; [done|].
    rewrite run_cons. apply IH. by apply step_holder. }
  by apply Hh.
Qed.

End SessionLifetime.

Lemma sessions_end_only_when_clients_leave_witness :
  close (HandleChat.with_inbox [audio_message [x05]] greeted) = false
  /\ recv_pc (HandleChat.with_inbox [audio_message [x05]] greeted) <> Exited
  /\ phase (HandleChat.with_inbox [audio_message [x05]] greeted) <> Finished
  /\ phase (HandleChat.with_inbox [audio_message [x05]] greeted) <> Failed.
Proof.
  apply (sessions_end_only_when_clients_leave toy_start one_message 0
           (HandleChat.with_inbox [audio_message [x05]] greeted)).
  - exact toy_start_ok.
  - repeat constructor; done.
  - reflexivity.
Defined.

Lemma lock_is_never_left_behind_witness :
  exists i c, chats (run one_message toy_start) !! i = Some c /\ in_session c.
Proof.
  apply (lock_is_never_left_behind toy_start one_message).
  - reflexivity.
  - reflexivity.
Defined.
